(** * address-mapper: the reverse batch matcher of [AddressMatcher]

    A shallow embedding of [lib/address-matcher.ts] (class [AddressMatcher]):
    name normalisation, the similarity scorer, the staged per-candidate
    scoring of [matchOperAddressFromJunboOptimized], candidate pruning,
    [matchSingleJunboAddress] and [batchMatch].

    Conventions of the embedding.
    - A JavaScript string is the list of its UTF-16 code units ([jsstring]);
      [.length], [===], [includes], [startsWith] and the [$]-anchored
      regular expressions of the source all work on code units.
    - A JavaScript number is an IEEE-754 binary64 value ([float], the
      primitive floats of Rocq), so [0.25 * 0.95] below is the very double
      the source computes.
    - A JavaScript object used as a dictionary is the association list of
      its own enumerable properties in [Object.entries] order. *)

From Stdlib Require Import ZArith NArith List Bool Lia String Ascii Floats.
From Stdlib Require Import Sorting.Sorted Sorting.Permutation.
From stdpp Require Import base option list gmap.

Set Warnings "-inexact-float".
Set Default Proof Using "Type".

(* ------------------------------------------------------------------ *)
(** ** Strings *)

Module JS.

Definition char := N.
Definition jsstring := list char.

(** Truthiness of a string: [!s] holds exactly for the empty string. *)
Definition truthy (s : jsstring) : bool :=
  match s with [] => false | _ :: _ => true end.

(** [a === b] on strings. *)
Fixpoint str_eqb (a b : jsstring) : bool :=
  match a, b with
  | [], [] => true
  | x :: a', y :: b' => N.eqb x y && str_eqb a' b'
  | _, _ => false
  end.

(** [s.startsWith(t)] *)
Fixpoint startsWith (s t : jsstring) {struct t} : bool :=
  match t, s with
  | [], _ => true
  | y :: t', x :: s' => N.eqb x y && startsWith s' t'
  | _ :: _, [] => false
  end.

(** [s.includes(t)] *)
Fixpoint includes (s t : jsstring) : bool :=
  startsWith s t ||
  match s with
  | [] => false
  | _ :: s' => includes s' t
  end.

(** [s.endsWith(t)], which is what the regular expression [/t$/] tests
    when [t] is a literal. *)
Definition endsWith (s t : jsstring) : bool :=
  startsWith (rev s) (rev t).

(** [s.replace(/suf$/, '')] for a literal [suf]. *)
Definition replaceSuffix (suf s : jsstring) : jsstring :=
  if endsWith s suf then firstn (length s - length suf) s else s.

(** [s.replace(/[c1c2...]$/, '')] for a character class. *)
Definition replaceLastIn (cls : list char) (s : jsstring) : jsstring :=
  match rev s with
  | c :: r => if existsb (N.eqb c) cls then rev r else s
  | [] => s
  end.

(** WhiteSpace and LineTerminator code points, as [String.prototype.trim]
    removes them. *)
Definition isWhiteSpace (c : char) : bool :=
  existsb (N.eqb c)
    [9; 10; 11; 12; 13; 32; 160; 5760; 8232; 8233; 8239; 8287; 12288; 65279]%N
  || (N.leb 8192 c && N.leb c 8202).

Fixpoint trimStart (s : jsstring) : jsstring :=
  match s with
  | c :: s' => if isWhiteSpace c then trimStart s' else s
  | [] => []
  end.

Definition trimEnd (s : jsstring) : jsstring := rev (trimStart (rev s)).

Definition trim (s : jsstring) : jsstring := trimEnd (trimStart s).

(** Template-literal concatenation [`${a}-${b}-${c}`]. *)
Definition hyphen : char := 45%N.
Definition join3 (a b c : jsstring) : jsstring :=
  a ++ hyphen :: b ++ hyphen :: c.

(** *** Source literals

    The literals of the source are written here as UTF-8 text and
    decoded to code units (all of them lie in the Basic Multilingual
    Plane, one code unit each). *)
Fixpoint utf16_of_utf8 (bs : list N) : jsstring :=
  match bs with
  | [] => []
  | b0 :: r0 =>
      if N.ltb b0 128 then b0 :: utf16_of_utf8 r0
      else if N.ltb b0 224 then
        match r0 with
        | b1 :: r1 => ((b0 - 192) * 64 + (b1 - 128))%N :: utf16_of_utf8 r1
        | [] => []
        end
      else
        match r0 with
        | b1 :: b2 :: r2 =>
            ((b0 - 224) * 4096 + (b1 - 128) * 64 + (b2 - 128))%N
              :: utf16_of_utf8 r2
        | _ => []
        end
  end.

Definition lit (s : string) : jsstring :=
  utf16_of_utf8 (map (fun a => N_of_ascii a) (list_ascii_of_string s)).

End JS.

Import JS.

(* ------------------------------------------------------------------ *)
(** ** Numbers *)

Module Num.

(** An array length or an edit distance used as a number. *)
Definition of_nat (n : nat) : float :=
  PrimFloat.of_uint63 (Uint63.of_Z (Z.of_nat n)).

(** [Math.min(a, b)]: NaN if either is NaN, and [-0] below [+0]. *)
Definition Math_min (a b : float) : float :=
  if PrimFloat.is_nan a || PrimFloat.is_nan b then PrimFloat.nan
  else if PrimFloat.ltb a b then a
  else if PrimFloat.ltb b a then b
  else if PrimFloat.is_zero a && PrimFloat.get_sign a then a
  else b.

End Num.

(* ------------------------------------------------------------------ *)
(** ** Name normaliser and similarity scorer *)

(** The suffixes of [normalizeName], in the order of its [replace] chain. *)
Definition suffixes : list jsstring := Eval vm_compute in
  map lit
    [ "布依族苗族自治州"; "苗族侗族自治州"; "维吾尔自治区"; "回族自治区";
      "壮族自治区"; "藏族自治州"; "彝族自治州"; "朝鲜族自治州";
      "蒙古族自治州"; "哈萨克族自治州"; "傣族景颇族自治州";
      "哈尼族彝族自治州"; "特别行政区"; "自治区"; "自治州"; "地区";
      "省"; "市"; "区"; "县"; "镇" ]%string.

(** The chain of [.replace(/suffix$/, '')] calls, left to right. *)
Definition stripSuffixes (sufs : list jsstring) (name : jsstring) : jsstring :=
  fold_left (fun acc suf => replaceSuffix suf acc) sufs name.

Definition normalizeName (name : jsstring) : jsstring :=
  if truthy name then trim (stripSuffixes suffixes name) else [].

(** One inner loop of [levenshteinDistance]: with [prev] the cells
    [dp[i-1][j-1 ..]] and [left = dp[i][j-1]], the cells [dp[i][j ..]]. *)
Fixpoint levenshteinCells (c1 : char) (str2 : jsstring) (prev : list nat)
    (left : nat) : list nat :=
  match str2, prev with
  | c2 :: str2', diag :: ((up :: _) as prev') =>
      let v :=
        if N.eqb c1 c2 then diag
        else Nat.min (Nat.min (up + 1) (left + 1)) (diag + 1) in
      v :: levenshteinCells c1 str2' prev' v
  | _, _ => []
  end.

(** Row [i] of the table from row [i-1]; [dp[i][0] = i]. *)
Definition levenshteinRow (str2 : jsstring) (acc : nat * list nat) (c1 : char)
    : nat * list nat :=
  let i := S (fst acc) in (i, i :: levenshteinCells c1 str2 (snd acc) i).

Definition levenshteinDistance (str1 str2 : jsstring) : nat :=
  let row0 := seq 0 (S (length str2)) in
  List.last (snd (fold_left (levenshteinRow str2) str1 (0, row0))) 0.

Definition similarity (str1 str2 : jsstring) : float :=
  if negb (truthy str1) || negb (truthy str2) then 0%float
  else if str_eqb str1 str2 then 1%float
  else
    let normalized1 := normalizeName str1 in
    let normalized2 := normalizeName str2 in
    if str_eqb normalized1 normalized2 then 1%float
    else if includes normalized1 normalized2 || includes normalized2 normalized1
    then
      let minLen := Nat.min (length normalized1) (length normalized2) in
      let maxLen := Nat.max (length normalized1) (length normalized2) in
      if 2 <=? minLen then
        if startsWith normalized1 normalized2
           || startsWith normalized2 normalized1
        then Num.Math_min 0.95
               (Num.of_nat minLen / Num.of_nat maxLen * 0.95 + 0.1)%float
        else Num.Math_min 0.9
               (Num.of_nat minLen / Num.of_nat maxLen * 0.9 + 0.05)%float
      else (Num.of_nat minLen / Num.of_nat maxLen * 0.8)%float
    else
      let maxLen := Nat.max (length str1) (length str2) in
      if maxLen =? 0 then 1%float
      else (1 - Num.of_nat (levenshteinDistance str1 str2)
                / Num.of_nat maxLen)%float.


(* ------------------------------------------------------------------ *)
(** ** Data model ([lib/types.ts]) *)

(** [OperAddressInput]: one row of the uploaded sheet. *)
Record OperAddressInput := {
  省份名称 : jsstring;
  省份编码 : jsstring;
  地市名称 : jsstring;
  地市编码 : jsstring;
  区县名称 : jsstring;
  区县编码 : jsstring;
}.

(** An input object together with its identity.  The candidate [Set] of
    [getCandidateInputs] compares objects by reference; the identity of a
    row is its position in the [operInputs] array. *)
Definition InputRef : Type := nat * OperAddressInput.

(** One entry of [generateAllJunboAddresses]. *)
Record JunboEntry := {
  provinceCode : jsstring;
  provinceName : jsstring;
  cityCode : jsstring;
  cityName : jsstring;
  districtCode : jsstring;
  districtName : jsstring;
}.

(** A value stored under a code of [JunboAddressData]: a name, or anything
    that is not a string. *)
Inductive JunboValue :=
| JString (name : jsstring)
| JObject.

(** [JunboAddressData]: code -> (code -> value), each object given by its
    own properties in the order [Object.entries] lists them. *)
Definition JunboAddressData : Type := list (jsstring * list (jsstring * JunboValue)).

Inductive MatchMethod := m_code | m_exact | m_fuzzy | m_none.
Inductive Confidence := c_high | c_medium | c_low | c_none.

Definition method_eqb (a b : MatchMethod) : bool :=
  match a, b with
  | m_code, m_code | m_exact, m_exact | m_fuzzy, m_fuzzy | m_none, m_none => true
  | _, _ => false
  end.

Record OutputAddressData := {
  junbo_province_name : jsstring;
  oper_province_name : jsstring;
  oper_province_code : jsstring;
  junbo_city_name : jsstring;
  oper_city_name : jsstring;
  oper_city_code : jsstring;
  junbo_district_name : jsstring;
  oper_district_name : jsstring;
  oper_district_code : jsstring;
  match_score : float;
  match_method : MatchMethod;
  confidence : Confidence;
}.

Record AddressMatchResult := {
  input : OperAddressInput;
  output : OutputAddressData;
  needsConfirmation : bool;
}.

(** The value returned by [matchOperAddressFromJunboOptimized]. *)
Module Res.
Record t := {
  matched : option InputRef;
  matchScore : float;
  matchMethod : MatchMethod;
  confidence : Confidence;
}.
End Res.

(** The local type [MatchCandidate]. *)
Module Cand.
Record t := {
  input : InputRef;
  score : float;
  method : MatchMethod;
  districtExactMatch : bool;
  districtFuzzyMatch : bool;
}.
End Cand.

(* ------------------------------------------------------------------ *)
(** ** Catalog walk *)

(** [Object.entries(data[code] || {})]: the own properties stored under
    [code], none when the code is absent. *)
Definition entriesOf (data : JunboAddressData) (code : jsstring)
    : list (jsstring * JunboValue) :=
  match find (fun kv => str_eqb (fst kv) code) data with
  | Some kv => snd kv
  | None => []
  end.

(** The three nested loops of [generateAllJunboAddresses]. *)
Definition walkCatalog (data : JunboAddressData) : list JunboEntry :=
  flat_map (fun p =>
    match snd p with
    | JString provinceName =>
        flat_map (fun c =>
          match snd c with
          | JString cityName =>
              flat_map (fun d =>
                match snd d with
                | JString districtName =>
                    [ {| provinceCode := fst p; provinceName := provinceName;
                         cityCode := fst c; cityName := cityName;
                         districtCode := fst d; districtName := districtName |} ]
                | JObject => []
                end) (entriesOf data (fst c))
          | JObject => []
          end) (entriesOf data (fst p))
    | JObject => []
    end) (entriesOf data (lit "0000")).

(** The instance state that [batchMatch] reads and writes. *)
Record AddressMatcher := {
  addressData : JunboAddressData;
  cachedJunboAddresses : option (list JunboEntry);
}.

(** [new AddressMatcher(addressData)] *)
Definition newAddressMatcher (data : JunboAddressData) : AddressMatcher :=
  {| addressData := data; cachedJunboAddresses := None |}.

Definition generateAllJunboAddresses (this : AddressMatcher)
    : list JunboEntry * AddressMatcher :=
  match cachedJunboAddresses this with
  | Some cached => (cached, this)
  | None =>
      let addresses := walkCatalog (addressData this) in
      (addresses,
       {| addressData := addressData this;
          cachedJunboAddresses := Some addresses |})
  end.

(* ------------------------------------------------------------------ *)
(** ** The closure [getNormalized] of [batchMatch] *)

(** The closure with its [normalizedCache] made explicit. *)
Definition getNormalizedCached (normalizedCache : gmap jsstring jsstring)
    (name : jsstring) : jsstring * gmap jsstring jsstring :=
  if negb (truthy name) then ([], normalizedCache)
  else
    match normalizedCache !! name with
    | Some normalized => (normalized, normalizedCache)
    | None =>
        let normalized := normalizeName name in
        (normalized, <[name := normalized]> normalizedCache)
    end.

(** The function the closure computes.  Whatever calls came before, a call
    of the closure returns this value (lemma [callsOfClosure_pure]), and the
    cache is read and written by the closure alone; so the matcher
    functions below receive this function as their [getNormalized]. *)
Definition getNormalized (name : jsstring) : jsstring :=
  if negb (truthy name) then [] else normalizeName name.

(** The results of calling the closure on [names] one after the other. *)
Fixpoint callsOfClosure (normalizedCache : gmap jsstring jsstring)
    (names : list jsstring) : list jsstring :=
  match names with
  | [] => []
  | name :: names' =>
      let call := getNormalizedCached normalizedCache name in
      fst call :: callsOfClosure (snd call) names'
  end.

(* ------------------------------------------------------------------ *)
(** ** Input multi-index *)

Record Indexes := {
  operInputsByCode : gmap jsstring InputRef;
  operInputsByProvinceCode : gmap jsstring (list InputRef);
  operInputsByCityCode : gmap jsstring (list InputRef);
  operInputsByDistrictCode : gmap jsstring (list InputRef);
  operInputsByProvinceName : gmap jsstring (list InputRef);
  operInputsByCityName : gmap jsstring (list InputRef);
  operInputsByDistrictName : gmap jsstring (list InputRef);
}.

Definition emptyIndexes : Indexes :=
  {| operInputsByCode := ∅; operInputsByProvinceCode := ∅;
     operInputsByCityCode := ∅; operInputsByDistrictCode := ∅;
     operInputsByProvinceName := ∅; operInputsByCityName := ∅;
     operInputsByDistrictName := ∅ |}.

(** [if (!m.has(k)) m.set(k, []); m.get(k).push(x)] *)
Definition pushAt (k : jsstring) (x : InputRef)
    (m : gmap jsstring (list InputRef)) : gmap jsstring (list InputRef) :=
  <[k := default [] (m !! k) ++ [x]]> m.

(** [if (key) push] for the three code indexes. *)
Definition indexByCode (key : jsstring) (x : InputRef)
    (m : gmap jsstring (list InputRef)) : gmap jsstring (list InputRef) :=
  if truthy key then pushAt key x m else m.

(** [if (name) { normalized = getNormalized(name); if (normalized) push }] *)
Definition indexByName (getNormalized : jsstring -> jsstring)
    (name : jsstring) (x : InputRef)
    (m : gmap jsstring (list InputRef)) : gmap jsstring (list InputRef) :=
  if truthy name then
    let normalized := getNormalized name in
    if truthy normalized then pushAt normalized x m else m
  else m.

(** The body of the index-building loop of [batchMatch]. *)
Definition indexInput (getNormalized : jsstring -> jsstring)
    (ix : Indexes) (x : InputRef) : Indexes :=
  let input := snd x in
  {| operInputsByCode :=
       if truthy (省份编码 input) && truthy (地市编码 input)
          && truthy (区县编码 input)
       then <[join3 (省份编码 input) (地市编码 input) (区县编码 input) := x]>
              (operInputsByCode ix)
       else operInputsByCode ix;
     operInputsByProvinceCode :=
       indexByCode (省份编码 input) x (operInputsByProvinceCode ix);
     operInputsByCityCode :=
       indexByCode (地市编码 input) x (operInputsByCityCode ix);
     operInputsByDistrictCode :=
       indexByCode (区县编码 input) x (operInputsByDistrictCode ix);
     operInputsByProvinceName :=
       indexByName getNormalized (省份名称 input) x (operInputsByProvinceName ix);
     operInputsByCityName :=
       indexByName getNormalized (地市名称 input) x (operInputsByCityName ix);
     operInputsByDistrictName :=
       indexByName getNormalized (区县名称 input) x (operInputsByDistrictName ix) |}.

(** The rows of [operInputs] with their identities. *)
Definition inputRefs (operInputs : list OperAddressInput) : list InputRef :=
  combine (seq 0 (length operInputs)) operInputs.

Definition buildIndexes (getNormalized : jsstring -> jsstring)
    (operInputs : list OperAddressInput) : Indexes :=
  fold_left (indexInput getNormalized) (inputRefs operInputs) emptyIndexes.

(* ------------------------------------------------------------------ *)
(** ** Candidate pruning *)

(** [candidateSet.add(x)]: a [Set] keeps insertion order and holds an
    object once. *)
Definition Set_add (s : list InputRef) (x : InputRef) : list InputRef :=
  if existsb (fun y => fst y =? fst x) s then s else s ++ [x].

(** [if (key) { l = m.get(key); if (l) l.forEach(x => set.add(x)) }] *)
Definition addFrom (m : gmap jsstring (list InputRef)) (key : jsstring)
    (candidateSet : list InputRef) : list InputRef :=
  if truthy key then
    match m !! key with
    | Some inputs => fold_left Set_add inputs candidateSet
    | None => candidateSet
    end
  else candidateSet.

Definition getCandidateInputs (getNormalized : jsstring -> jsstring)
    (junboAddress : JunboEntry) (ix : Indexes) : list InputRef :=
  let candidateSet := [] in
  let candidateSet :=
    addFrom (operInputsByDistrictCode ix) (districtCode junboAddress) candidateSet in
  let candidateSet :=
    addFrom (operInputsByCityCode ix) (cityCode junboAddress) candidateSet in
  let candidateSet :=
    addFrom (operInputsByProvinceCode ix) (provinceCode junboAddress) candidateSet in
  if length candidateSet <? 10 then
    let candidateSet :=
      addFrom (operInputsByDistrictName ix)
        (getNormalized (districtName junboAddress)) candidateSet in
    let candidateSet :=
      addFrom (operInputsByCityName ix)
        (getNormalized (cityName junboAddress)) candidateSet in
    addFrom (operInputsByProvinceName ix)
      (getNormalized (provinceName junboAddress)) candidateSet
  else candidateSet.

(* ------------------------------------------------------------------ *)
(** ** Staged scoring ([matchOperAddressFromJunboOptimized]) *)

(** The variables of one iteration of the candidate loop. *)
Record Locals := {
  score : float;
  method : MatchMethod;
  provinceMatched : bool;
  cityMatched : bool;
  districtExactMatch : bool;
  districtFuzzyMatch : bool;
}.

Definition initialLocals : Locals :=
  {| score := 0; method := m_none; provinceMatched := false;
     cityMatched := false; districtExactMatch := false;
     districtFuzzyMatch := false |}.

(** [method = method === m ? r : method] *)
Definition methodIf (m r : MatchMethod) (method : MatchMethod) : MatchMethod :=
  if method_eqb method m then r else method.

(** The level that a block of assignments marks as matched. *)
Inductive Level := L_province | L_city | L_districtExact | L_districtFuzzy.

(** [score += w; method = newMethod; <flag> = true] *)
Definition contribute (lv : Level) (w : float) (newMethod : MatchMethod)
    (st : Locals) : Locals :=
  {| score := (score st + w)%float;
     method := newMethod;
     provinceMatched :=
       match lv with L_province => true | _ => provinceMatched st end;
     cityMatched :=
       match lv with L_city => true | _ => cityMatched st end;
     districtExactMatch :=
       match lv with L_districtExact => true | _ => districtExactMatch st end;
     districtFuzzyMatch :=
       match lv with L_districtFuzzy => true | _ => districtFuzzyMatch st end |}.

Section Scoring.

Variable getNormalized : jsstring -> jsstring.
Variable junboAddress : JunboEntry.

Let normalizedJunboProvince := getNormalized (provinceName junboAddress).
Let normalizedJunboCity := getNormalized (cityName junboAddress).
Let normalizedJunboDistrict := getNormalized (districtName junboAddress).

(** 1. province *)
Definition provinceStage (operInput : OperAddressInput) (st : Locals) : Locals :=
  if truthy (省份编码 operInput)
     && str_eqb (省份编码 operInput) (provinceCode junboAddress)
  then contribute L_province 0.25 m_code st
  else if truthy (省份名称 operInput)
          && str_eqb (省份名称 operInput) (provinceName junboAddress)
  then contribute L_province 0.25 (methodIf m_none m_exact (method st)) st
  else if truthy (省份名称 operInput) && truthy normalizedJunboProvince
  then
    let normalizedOper := getNormalized (省份名称 operInput) in
    if str_eqb normalizedOper normalizedJunboProvince
    then contribute L_province 0.25 (methodIf m_none m_exact (method st)) st
    else if truthy normalizedOper && truthy normalizedJunboProvince
    then
      let similarity := similarity normalizedOper normalizedJunboProvince in
      if (0.7 <=? similarity)%float
      then contribute L_province (0.25 * similarity)%float
             (methodIf m_none m_fuzzy (method st)) st
      else st
    else st
  else st.

(** 2. city *)
Definition cityStage (operInput : OperAddressInput) (st : Locals) : Locals :=
  if truthy (地市编码 operInput)
     && str_eqb (地市编码 operInput) (cityCode junboAddress)
  then contribute L_city 0.25 (methodIf m_code m_code (method st)) st
  else if truthy (地市名称 operInput)
          && str_eqb (地市名称 operInput) (cityName junboAddress)
  then contribute L_city 0.25 (methodIf m_none m_exact (method st)) st
  else if truthy (地市名称 operInput) && truthy normalizedJunboCity
  then
    let normalizedOper := getNormalized (地市名称 operInput) in
    if str_eqb normalizedOper normalizedJunboCity
    then contribute L_city 0.25 (methodIf m_none m_exact (method st)) st
    else if truthy normalizedOper && truthy normalizedJunboCity
    then
      if includes normalizedOper normalizedJunboCity
         || includes normalizedJunboCity normalizedOper
      then
        let minLen :=
          Nat.min (length normalizedOper) (length normalizedJunboCity) in
        if 2 <=? minLen then
          if startsWith normalizedOper normalizedJunboCity
             || startsWith normalizedJunboCity normalizedOper
          then contribute L_city (0.25 * 0.95)%float
                 (methodIf m_none m_exact (method st)) st
          else contribute L_city (0.25 * 0.85)%float
                 (methodIf m_fuzzy m_fuzzy (method st)) st
        else st
      else
        let similarity := similarity normalizedOper normalizedJunboCity in
        if (0.7 <=? similarity)%float
        then contribute L_city (0.25 * similarity)%float
               (methodIf m_fuzzy m_fuzzy (method st)) st
        else st
    else st
  else st.

(** 3. district *)
Definition districtStage (operInput : OperAddressInput) (st : Locals) : Locals :=
  if truthy (区县编码 operInput)
     && str_eqb (区县编码 operInput) (districtCode junboAddress)
  then contribute L_districtExact 0.5 (methodIf m_code m_code (method st)) st
  else if truthy (区县名称 operInput)
          && str_eqb (区县名称 operInput) (districtName junboAddress)
  then contribute L_districtExact 0.5 (methodIf m_none m_exact (method st)) st
  else if truthy (区县名称 operInput) && truthy normalizedJunboDistrict
  then
    let normalizedOper := getNormalized (区县名称 operInput) in
    if str_eqb normalizedOper normalizedJunboDistrict
    then contribute L_districtExact 0.5
           (methodIf m_none m_exact (method st)) st
    else if truthy normalizedOper && truthy normalizedJunboDistrict
    then
      let operWithoutSuffix :=
        replaceLastIn (lit "镇区县") normalizedOper in
      let junboWithoutSuffix :=
        replaceLastIn (lit "镇区县") normalizedJunboDistrict in
      if str_eqb operWithoutSuffix junboWithoutSuffix
         || ((0 <? length operWithoutSuffix)
             && (0 <? length junboWithoutSuffix)
             && (includes operWithoutSuffix junboWithoutSuffix
                 || includes junboWithoutSuffix operWithoutSuffix))
      then contribute L_districtFuzzy (0.5 * 0.95)%float
             (methodIf m_fuzzy m_fuzzy (method st)) st
      else
        let similarity := similarity normalizedOper normalizedJunboDistrict in
        if (0.85 <=? similarity)%float
        then contribute L_districtFuzzy (0.5 * similarity)%float
               (methodIf m_fuzzy m_fuzzy (method st)) st
        else st
    else st
  else st.

(** The body of the candidate loop up to the [push]: the city block runs
    inside [if (provinceMatched)], the district block inside
    [if (cityMatched)]. *)
Definition scoreCandidate (operInput : OperAddressInput) : Locals :=
  let st := provinceStage operInput initialLocals in
  if provinceMatched st then
    let st := cityStage operInput st in
    if cityMatched st then districtStage operInput st else st
  else st.

(** [if (score > 0) candidates.push({...})] *)
Definition pushCandidate (candidates : list Cand.t) (operInput : InputRef)
    : list Cand.t :=
  let st := scoreCandidate (snd operInput) in
  if (0 <? score st)%float then
    candidates ++
      [ {| Cand.input := operInput; Cand.score := score st;
           Cand.method := method st;
           Cand.districtExactMatch := districtExactMatch st;
           Cand.districtFuzzyMatch := districtFuzzyMatch st |} ]
  else candidates.

Definition scoreCandidates (candidateInputs : list InputRef) : list Cand.t :=
  fold_left pushCandidate candidateInputs [].

(** [(prev, curr) => curr.score > prev.score ? curr : prev] *)
Definition pickBetter (prev curr : Cand.t) : Cand.t :=
  if (Cand.score prev <? Cand.score curr)%float then curr else prev.

(** [arr.reduce(f)] without an initial value, on a non-empty array. *)
Definition reduce (f : Cand.t -> Cand.t -> Cand.t) (arr : list Cand.t)
    : option Cand.t :=
  match arr with
  | [] => None
  | first :: rest => Some (fold_left f rest first)
  end.

(** The selection after the loop: district-exact candidates first. *)
Definition selectBest (candidates : list Cand.t) : option Cand.t :=
  let exactDistrictMatches := List.filter Cand.districtExactMatch candidates in
  if 0 <? length exactDistrictMatches
  then reduce pickBetter exactDistrictMatches
  else if 0 <? length candidates
  then reduce pickBetter candidates
  else None.

Definition confidenceOf (bestScore : float) : Confidence :=
  if (0.9 <=? bestScore)%float then c_high
  else if (0.6 <=? bestScore)%float then c_medium
  else if (0 <? bestScore)%float then c_low
  else c_none.

Definition matchOperAddressFromJunboOptimized
    (candidateInputs : list InputRef) : Res.t :=
  let candidates := scoreCandidates candidateInputs in
  let best := selectBest candidates in
  let bestMatch := option_map Cand.input best in
  let bestScore := from_option Cand.score 0%float best in
  let bestMethod := from_option Cand.method m_none best in
  {| Res.matched := bestMatch; Res.matchScore := bestScore;
     Res.matchMethod := bestMethod;
     Res.confidence := confidenceOf bestScore |}.

End Scoring.

(* ------------------------------------------------------------------ *)
(** ** [matchSingleJunboAddress] and [batchMatch] *)

(** [matched?.field || ''] *)
Definition fieldOrEmpty (matched : option InputRef)
    (field : OperAddressInput -> jsstring) : jsstring :=
  match matched with
  | Some x => if truthy (field (snd x)) then field (snd x) else []
  | None => []
  end.

Definition confidence_eqb (a b : Confidence) : bool :=
  match a, b with
  | c_high, c_high | c_medium, c_medium | c_low, c_low | c_none, c_none => true
  | _, _ => false
  end.

Definition matchSingleJunboAddress (getNormalized : jsstring -> jsstring)
    (ix : Indexes) (junboAddress : JunboEntry) : AddressMatchResult :=
  let codeKey :=
    join3 (provinceCode junboAddress) (cityCode junboAddress)
      (districtCode junboAddress) in
  let matchResult :=
    match operInputsByCode ix !! codeKey with
    | Some exactMatch =>
        {| Res.matched := Some exactMatch; Res.matchScore := 1.0;
           Res.matchMethod := m_code; Res.confidence := c_high |}
    | None =>
        let candidateInputs := getCandidateInputs getNormalized junboAddress ix in
        matchOperAddressFromJunboOptimized getNormalized junboAddress
          candidateInputs
    end in
  let matched := Res.matched matchResult in
  {| input :=
       {| 省份名称 := fieldOrEmpty matched 省份名称;
          省份编码 := fieldOrEmpty matched 省份编码;
          地市名称 := fieldOrEmpty matched 地市名称;
          地市编码 := fieldOrEmpty matched 地市编码;
          区县名称 := fieldOrEmpty matched 区县名称;
          区县编码 := fieldOrEmpty matched 区县编码 |};
     output :=
       {| junbo_province_name := provinceName junboAddress;
          oper_province_name := fieldOrEmpty matched 省份名称;
          oper_province_code := fieldOrEmpty matched 省份编码;
          junbo_city_name := cityName junboAddress;
          oper_city_name := fieldOrEmpty matched 地市名称;
          oper_city_code := fieldOrEmpty matched 地市编码;
          junbo_district_name := districtName junboAddress;
          oper_district_name := fieldOrEmpty matched 区县名称;
          oper_district_code := fieldOrEmpty matched 区县编码;
          match_score := Res.matchScore matchResult;
          match_method := Res.matchMethod matchResult;
          confidence := Res.confidence matchResult |};
     needsConfirmation :=
       confidence_eqb (Res.confidence matchResult) c_low
       || confidence_eqb (Res.confidence matchResult) c_none |}.

(** [arr.slice(i, j)] for [0 <= i <= j]. *)
Definition slice {A} (i j : nat) (arr : list A) : list A :=
  take (j - i) (drop i arr).

(** The chunked loop
    [for (let i = 0; i < all.length; i += batchSize)
       results.push(...all.slice(i, i + batchSize).map(f))].
    [fuel] bounds the number of iterations; [length all] of them are
    enough whenever [batchSize >= 1] (lemma [processBatches_map]). *)
Fixpoint processBatches {A B} (f : A -> B) (batchSize : nat) (all : list A)
    (fuel i : nat) (results : list B) : list B :=
  match fuel with
  | 0 => results
  | S fuel' =>
      if i <? length all then
        let batch := slice i (i + batchSize) all in
        let batchResults := map f batch in
        processBatches f batchSize all fuel' (i + batchSize)
          (results ++ batchResults)
      else results
  end.

(** [Array.prototype.sort(compare)]: the sort is stable, which for a
    consistent comparator fixes its result; inserting each element after
    every element that does not compare greater computes it. *)
Fixpoint insertSorted {A} (compare : A -> A -> Z) (x : A) (sorted : list A)
    : list A :=
  match sorted with
  | [] => [x]
  | y :: rest =>
      if (compare x y <? 0)%Z then x :: sorted
      else y :: insertSorted compare x rest
  end.

Definition Array_sort {A} (compare : A -> A -> Z) (arr : list A) : list A :=
  fold_left (fun sorted x => insertSorted compare x sorted) arr [].

(** [s || ''] *)
Definition orEmpty (s : jsstring) : jsstring := if truthy s then s else [].

Section Batch.

(** [String.prototype.localeCompare] of the host: negative, zero or
    positive. *)
Variable localeCompare : jsstring -> jsstring -> Z.

(** The comparator passed to [results.sort]. *)
Definition compareResults (a b : AddressMatchResult) : Z :=
  let provinceCompare :=
    localeCompare (orEmpty (junbo_province_name (output a)))
                  (orEmpty (junbo_province_name (output b))) in
  if negb (provinceCompare =? 0)%Z then provinceCompare
  else
    let cityCompare :=
      localeCompare (orEmpty (junbo_city_name (output a)))
                    (orEmpty (junbo_city_name (output b))) in
    if negb (cityCompare =? 0)%Z then cityCompare
    else localeCompare (orEmpty (junbo_district_name (output a)))
                       (orEmpty (junbo_district_name (output b))).

(** [batchMatch] with the chunk size as a parameter. *)
Definition batchMatchWith (batchSize : nat) (this : AddressMatcher)
    (operInputs : list OperAddressInput)
    : list AddressMatchResult * AddressMatcher :=
  let (allJunboAddresses, this) := generateAllJunboAddresses this in
  let ix := buildIndexes getNormalized operInputs in
  let results :=
    processBatches (matchSingleJunboAddress getNormalized ix) batchSize
      allJunboAddresses (length allJunboAddresses) 0 [] in
  (Array_sort compareResults results, this).

(** [batchMatch]: [const batchSize = 100]. *)
Definition batchMatch := batchMatchWith 100.

(** [batchMatchAsync] differs in [const batchSize = 200] and in awaiting
    each chunk. *)
Definition batchMatchAsync := batchMatchWith 200.

End Batch.

(* ------------------------------------------------------------------ *)
(** ** Vocabulary of the statements *)

(** [t] occurs in [s] as a contiguous substring. *)
Definition substring_of (t s : jsstring) : Prop :=
  exists p q, s = p ++ t ++ q.

(** The record that [pushCandidate] appends for an input whose staged score
    is above zero. *)
Definition candidateOf (getNormalized : jsstring -> jsstring)
    (junboAddress : JunboEntry) (operInput : InputRef) : option Cand.t :=
  let st := scoreCandidate getNormalized junboAddress (snd operInput) in
  if (0 <? score st)%float then
    Some {| Cand.input := operInput; Cand.score := score st;
            Cand.method := method st;
            Cand.districtExactMatch := districtExactMatch st;
            Cand.districtFuzzyMatch := districtFuzzyMatch st |}
  else None.

(** A row's district is an exact-or-code match of the entry's: the staged
    scoring of the row reached the district level (the city matched), and
    the district agrees by a non-empty code, by a non-empty name, or by a
    non-empty normalised name. *)
Definition districtExactOrCode (getNormalized : jsstring -> jsstring)
    (junboAddress : JunboEntry) (operInput : OperAddressInput) : Prop :=
  cityMatched (scoreCandidate getNormalized junboAddress operInput) = true
  /\ ((区县编码 operInput <> []
       /\ 区县编码 operInput = districtCode junboAddress)
      \/ (区县名称 operInput <> []
          /\ 区县名称 operInput = districtName junboAddress)
      \/ (区县名称 operInput <> []
          /\ getNormalized (districtName junboAddress) <> []
          /\ getNormalized (区县名称 operInput)
             = getNormalized (districtName junboAddress))).



(** The three reference names of an enumerated entry and of an output
    record. *)
Definition entryNames (e : JunboEntry) : jsstring * jsstring * jsstring :=
  (provinceName e, cityName e, districtName e).

Definition resultNames (r : AddressMatchResult) : jsstring * jsstring * jsstring :=
  (junbo_province_name (output r), junbo_city_name (output r),
   junbo_district_name (output r)).

(** Every entry of the cache is a name with its normal form. *)
Definition cacheSound (normalizedCache : gmap jsstring jsstring) : Prop :=
  forall name normalized,
    normalizedCache !! name = Some normalized -> normalized = normalizeName name.

(** The order of [compareResults] on name triples: by province, then by
    city, then by district, each compared with [localeCompare]. *)
Definition lexLe (localeCompare : jsstring -> jsstring -> Z)
    (a b : jsstring * jsstring * jsstring) : Prop :=
  (localeCompare a.1.1 b.1.1 < 0)%Z
  \/ (localeCompare a.1.1 b.1.1 = 0%Z
      /\ ((localeCompare a.1.2 b.1.2 < 0)%Z
          \/ (localeCompare a.1.2 b.1.2 = 0%Z
              /\ (localeCompare a.2 b.2 <= 0)%Z))).

(* ------------------------------------------------------------------ *)
(** ** Concrete data used by the examples below *)

Module Fixtures.

(** Comparison by code units, a stand-in for [localeCompare]. *)
Fixpoint codeUnitCompare (a b : jsstring) : Z :=
  match a, b with
  | [], [] => 0
  | [], _ :: _ => -1
  | _ :: _, [] => 1
  | x :: a', y :: b' =>
      match N.compare x y with
      | Lt => -1
      | Gt => 1
      | Eq => codeUnitCompare a' b'
      end
  end.

Definition row (pn pc cn cc dn dc : string) : OperAddressInput :=
  {| 省份名称 := lit pn; 省份编码 := lit pc; 地市名称 := lit cn;
     地市编码 := lit cc; 区县名称 := lit dn; 区县编码 := lit dc |}.

Definition entry (pc pn cc cn dc dn : string) : JunboEntry :=
  {| provinceCode := lit pc; provinceName := lit pn; cityCode := lit cc;
     cityName := lit cn; districtCode := lit dc; districtName := lit dn |}.

Definition object (props : list (string * string)) : list (jsstring * JunboValue) :=
  map (fun kv => (lit (fst kv), JString (lit (snd kv)))) props.

(** 福建省 1001 / 厦门市 2001 / 思明区 3007, 湖里区 3008;
    新疆维吾尔自治区 1002 / 乌鲁木齐市 2002 / 天山区 3010. *)
Definition catalog : JunboAddressData :=
  [ (lit "0000", object [("1001", "福建省"); ("1002", "新疆维吾尔自治区")]);
    (lit "1001", object [("2001", "厦门市")]);
    (lit "1002", object [("2002", "乌鲁木齐市")]);
    (lit "2001", object [("3007", "思明区"); ("3008", "湖里区")]);
    (lit "2002", object [("3010", "天山区")]) ]%string.

Definition rows : list OperAddressInput :=
  [ row "福建" "1001" "厦门" "2001" "思明" "3007";
    row "福建省" "" "厦门市" "" "湖里" "";
    row "新疆" "65" "乌鲁木奇市" "" "天山区" "" ]%string.

(** The entry 新疆维吾尔自治区 / 乌鲁木齐市 / 天山区 of [catalog]. *)
Definition tianshan : JunboEntry :=
  entry "1002" "新疆维吾尔自治区" "2002" "乌鲁木齐市" "3010" "天山区".

(** Two rows for [tianshan]: the first agrees on both parent codes and has
    a district name that merely contains 天山; the second has no usable
    code, a misspelt city, and the district name itself. *)
Definition rowByCodes : InputRef :=
  (0, row "" "1002" "" "2002" "天山新区" "").
Definition rowByNames : InputRef :=
  (1, row "新疆" "65" "乌鲁木奇市" "" "天山区" "").

(** A province under two romanisations of its name, with no code in the
    row. *)
Definition xinjiangLatin : JunboEntry :=
  entry "65" "Xinjiang" "6501" "Urumqi" "650102" "Tianshan".

Definition rowSinkiang : OperAddressInput :=
  row "Sinkiang" "" "Urumqi" "" "Tianshan" "".

(** A catalog whose only district is stored under the empty code, and a
    row that carries the same three codes and no names. *)
Definition catalogBlankCode : JunboAddressData :=
  [ (lit "0000", object [("11", "北京市")]);
    (lit "11", object [("1101", "市辖区")]);
    (lit "1101", object [("", "东城区")]) ]%string.

Definition dongcheng : JunboEntry :=
  entry "11" "北京市" "1101" "市辖区" "" "东城区".

Definition rowBlankCode : OperAddressInput :=
  row "" "11" "" "1101" "" "".

(** The entry 福建省 / 厦门市 / 思明区 of [catalog], and a row of another
    province whose district happens to have the same name. *)
Definition siming : JunboEntry :=
  entry "1001" "福建省" "2001" "厦门市" "3007" "思明区".


(** A row with both parent codes of [tianshan] and nothing at the district
    level. *)
Definition rowParentsOnly : InputRef :=
  (2, row "" "1002" "" "2002" "" "").




End Fixtures.

(* ------------------------------------------------------------------ *)
(** ** Further vocabulary *)

(** The edit distance by recursion on the first characters: a deletion,
    an insertion or a substitution costs one. *)
Fixpoint editDistance (a b : jsstring) : nat :=
  match a with
  | [] => length b
  | x :: a' =>
      (fix inner (b : jsstring) : nat :=
         match b with
         | [] => length a
         | y :: b' =>
             if N.eqb x y then editDistance a' b'
             else S (Nat.min (Nat.min (editDistance a' b) (inner b'))
                             (editDistance a' b'))
         end) b
  end.

(** The strings [t1 ++ take k t2] for [k = 0 .. length t2]: the prefixes of
    [t1 ++ t2] that extend [t1]. *)
Fixpoint prefixesFrom (t1 t2 : jsstring) : list jsstring :=
  match t2 with
  | [] => [t1]
  | y :: t2' => t1 :: prefixesFrom (t1 ++ [y]) t2'
  end.

(** A level of an input row agrees with the reference entry by code, by
    name, or by normalised name. *)
Definition levelAgrees (getNormalized : jsstring -> jsstring)
    (code refCode name refName : jsstring) : Prop :=
  (code <> [] /\ code = refCode)
  \/ (name <> [] /\ name = refName)
  \/ (name <> [] /\ getNormalized refName <> []
      /\ getNormalized name = getNormalized refName).

(* ------------------------------------------------------------------ *)
(** ** The retained scorer [matchOperAddressFromJunbo]

    The version of the staged scoring that normalises names on the spot
    instead of receiving [getNormalized]. *)

Section Legacy.

Variable junboAddress : JunboEntry.

Definition provinceStageLegacy (operInput : OperAddressInput) (st : Locals)
    : Locals :=
  if truthy (省份编码 operInput)
     && str_eqb (省份编码 operInput) (provinceCode junboAddress)
  then contribute L_province 0.25 m_code st
  else if truthy (省份名称 operInput)
          && str_eqb (省份名称 operInput) (provinceName junboAddress)
  then contribute L_province 0.25 (methodIf m_none m_exact (method st)) st
  else if truthy (省份名称 operInput) && truthy (provinceName junboAddress)
  then
    let normalizedOper := normalizeName (省份名称 operInput) in
    let normalizedJunbo := normalizeName (provinceName junboAddress) in
    if truthy normalizedOper && truthy normalizedJunbo
       && str_eqb normalizedOper normalizedJunbo
    then contribute L_province 0.25 (methodIf m_none m_exact (method st)) st
    else if truthy normalizedOper && truthy normalizedJunbo
    then
      let similarity := similarity normalizedOper normalizedJunbo in
      if (0.7 <=? similarity)%float
      then contribute L_province (0.25 * similarity)%float
             (methodIf m_none m_fuzzy (method st)) st
      else st
    else st
  else st.

Definition cityStageLegacy (operInput : OperAddressInput) (st : Locals)
    : Locals :=
  if truthy (地市编码 operInput)
     && str_eqb (地市编码 operInput) (cityCode junboAddress)
  then contribute L_city 0.25 (methodIf m_code m_code (method st)) st
  else if truthy (地市名称 operInput)
          && str_eqb (地市名称 operInput) (cityName junboAddress)
  then contribute L_city 0.25 (methodIf m_none m_exact (method st)) st
  else if truthy (地市名称 operInput) && truthy (cityName junboAddress)
  then
    let normalizedOper := normalizeName (地市名称 operInput) in
    let normalizedJunbo := normalizeName (cityName junboAddress) in
    if truthy normalizedOper && truthy normalizedJunbo
       && str_eqb normalizedOper normalizedJunbo
    then contribute L_city 0.25 (methodIf m_none m_exact (method st)) st
    else if truthy normalizedOper && truthy normalizedJunbo
    then
      if includes normalizedOper normalizedJunbo
         || includes normalizedJunbo normalizedOper
      then
        let minLen := Nat.min (length normalizedOper) (length normalizedJunbo) in
        if (2 <=? minLen)
           && (startsWith normalizedOper normalizedJunbo
               || startsWith normalizedJunbo normalizedOper)
        then contribute L_city (0.25 * 0.95)%float
               (methodIf m_none m_exact (method st)) st
        else if 2 <=? minLen
        then contribute L_city (0.25 * 0.85)%float
               (methodIf m_fuzzy m_fuzzy (method st)) st
        else st
      else
        let similarity := similarity normalizedOper normalizedJunbo in
        if (0.7 <=? similarity)%float
        then contribute L_city (0.25 * similarity)%float
               (methodIf m_fuzzy m_fuzzy (method st)) st
        else st
    else st
  else st.

Definition districtStageLegacy (operInput : OperAddressInput) (st : Locals)
    : Locals :=
  if truthy (区县编码 operInput)
     && str_eqb (区县编码 operInput) (districtCode junboAddress)
  then contribute L_districtExact 0.5 (methodIf m_code m_code (method st)) st
  else if truthy (区县名称 operInput)
          && str_eqb (区县名称 operInput) (districtName junboAddress)
  then contribute L_districtExact 0.5 (methodIf m_none m_exact (method st)) st
  else if truthy (区县名称 operInput) && truthy (districtName junboAddress)
  then
    let normalizedOper := normalizeName (区县名称 operInput) in
    let normalizedJunbo := normalizeName (districtName junboAddress) in
    if truthy normalizedOper && truthy normalizedJunbo
       && str_eqb normalizedOper normalizedJunbo
    then contribute L_districtExact 0.5
           (methodIf m_none m_exact (method st)) st
    else if truthy normalizedOper && truthy normalizedJunbo
    then
      let operWithoutSuffix := replaceLastIn (lit "镇区县") normalizedOper in
      let junboWithoutSuffix := replaceLastIn (lit "镇区县") normalizedJunbo in
      if str_eqb operWithoutSuffix junboWithoutSuffix
         || ((0 <? length operWithoutSuffix)
             && (0 <? length junboWithoutSuffix)
             && (includes operWithoutSuffix junboWithoutSuffix
                 || includes junboWithoutSuffix operWithoutSuffix))
      then contribute L_districtFuzzy (0.5 * 0.95)%float
             (methodIf m_fuzzy m_fuzzy (method st)) st
      else
        let similarity := similarity normalizedOper normalizedJunbo in
        if (0.85 <=? similarity)%float
        then contribute L_districtFuzzy (0.5 * similarity)%float
               (methodIf m_fuzzy m_fuzzy (method st)) st
        else st
    else st
  else st.

Definition scoreCandidateLegacy (operInput : OperAddressInput) : Locals :=
  let st := provinceStageLegacy operInput initialLocals in
  if provinceMatched st then
    let st := cityStageLegacy operInput st in
    if cityMatched st then districtStageLegacy operInput st else st
  else st.

Definition pushCandidateLegacy (candidates : list Cand.t) (operInput : InputRef)
    : list Cand.t :=
  let st := scoreCandidateLegacy (snd operInput) in
  if (0 <? score st)%float then
    candidates ++
      [ {| Cand.input := operInput; Cand.score := score st;
           Cand.method := method st;
           Cand.districtExactMatch := districtExactMatch st;
           Cand.districtFuzzyMatch := districtFuzzyMatch st |} ]
  else candidates.

Definition matchOperAddressFromJunbo (operInputs : list InputRef) : Res.t :=
  let candidates := fold_left pushCandidateLegacy operInputs [] in
  let best := selectBest candidates in
  let bestMatch := option_map Cand.input best in
  let bestScore := from_option Cand.score 0%float best in
  let bestMethod := from_option Cand.method m_none best in
  {| Res.matched := bestMatch; Res.matchScore := bestScore;
     Res.matchMethod := bestMethod;
     Res.confidence := confidenceOf bestScore |}.

End Legacy.

(** The key under which a row enters a name index: the normalised name of
    a non-empty name. *)
Definition nameKey (getNormalized : jsstring -> jsstring) (name : jsstring)
    : jsstring :=
  if truthy name then getNormalized name else [].

(** The rows whose key is [k], in input order; [None] when there is none. *)
Definition rowsWithKey (key : InputRef -> jsstring) (k : jsstring)
    (refs : list InputRef) : list InputRef :=
  List.filter (fun x => str_eqb (key x) k) refs.

Definition groupOf (key : InputRef -> jsstring) (k : jsstring)
    (refs : list InputRef) : option (list InputRef) :=
  match rowsWithKey key k refs with
  | [] => None
  | rows => Some rows
  end.

(** The row has three non-empty codes whose joined key is [k]. *)
Definition hasFullKey (k : jsstring) (x : InputRef) : bool :=
  truthy (省份编码 (snd x)) && truthy (地市编码 (snd x))
  && truthy (区县编码 (snd x))
  && str_eqb (join3 (省份编码 (snd x)) (地市编码 (snd x)) (区县编码 (snd x))) k.

(** The row carries a non-empty code of the entry at some level. *)
Definition sharesCode (junboAddress : JunboEntry) (x : InputRef) : bool :=
  (truthy (districtCode junboAddress)
   && str_eqb (区县编码 (snd x)) (districtCode junboAddress))
  || (truthy (cityCode junboAddress)
      && str_eqb (地市编码 (snd x)) (cityCode junboAddress))
  || (truthy (provinceCode junboAddress)
      && str_eqb (省份编码 (snd x)) (provinceCode junboAddress)).

(** The row has, at some level, a name with the same non-empty normal form
    as the entry's. *)
Definition sharesName (getNormalized : jsstring -> jsstring)
    (junboAddress : JunboEntry) (x : InputRef) : bool :=
  (truthy (getNormalized (districtName junboAddress))
   && str_eqb (nameKey getNormalized (区县名称 (snd x)))
        (getNormalized (districtName junboAddress)))
  || (truthy (getNormalized (cityName junboAddress))
      && str_eqb (nameKey getNormalized (地市名称 (snd x)))
           (getNormalized (cityName junboAddress)))
  || (truthy (getNormalized (provinceName junboAddress))
      && str_eqb (nameKey getNormalized (省份名称 (snd x)))
           (getNormalized (provinceName junboAddress))).

(** The row with six empty fields: the [input] of a record without a
    match. *)
Definition emptyRow : OperAddressInput :=
  {| 省份名称 := []; 省份编码 := []; 地市名称 := []; 地市编码 := [];
     区县名称 := []; 区县编码 := [] |}.

(* ------------------------------------------------------------------ *)
(** ** The reference index ([buildIndex]) *)

(** A JavaScript [Map] with string keys: its entries in insertion order.
    [set] on a present key replaces the value where it stands, [set] on a
    new key appends. *)
Definition OMap (V : Type) : Type := list (jsstring * V).

Fixpoint Map_set {V} (k : jsstring) (v : V) (m : OMap V) : OMap V :=
  match m with
  | [] => [(k, v)]
  | (k', v') :: m' =>
      if str_eqb k' k then (k', v) :: m' else (k', v') :: Map_set k v m'
  end.

Definition Map_get {V} (k : jsstring) (m : OMap V) : option V :=
  option_map snd (find (fun kv => str_eqb (fst kv) k) m).

Module PInfo.
Record t := { code : jsstring; name : jsstring }.
End PInfo.

Module CInfo.
Record t := { code : jsstring; name : jsstring; provinceCode : jsstring }.
End CInfo.

Module DInfo.
Record t := { code : jsstring; name : jsstring; provinceCode : jsstring;
              cityCode : jsstring }.
End DInfo.

Record AddressIndex := {
  provinces : OMap PInfo.t;
  cities : OMap CInfo.t;
  districts : OMap DInfo.t;
}.

Definition emptyIndex : AddressIndex :=
  {| provinces := []; cities := []; districts := [] |}.

(** The innermost loop of [buildIndex]: the districts of one city. *)
Definition indexDistricts (provinceCode cityCode : jsstring)
    (districtData : list (jsstring * JunboValue)) (ix : AddressIndex)
    : AddressIndex :=
  fold_left (fun ix d =>
    match snd d with
    | JString districtName =>
        {| provinces := provinces ix; cities := cities ix;
           districts :=
             Map_set districtName
               {| DInfo.code := fst d; DInfo.name := districtName;
                  DInfo.provinceCode := provinceCode;
                  DInfo.cityCode := cityCode |} (districts ix) |}
    | JObject => ix
    end) districtData ix.

(** The middle loop: the cities of one province. *)
Definition indexCities (data : JunboAddressData) (provinceCode : jsstring)
    (cityData : list (jsstring * JunboValue)) (ix : AddressIndex)
    : AddressIndex :=
  fold_left (fun ix c =>
    match snd c with
    | JString cityName =>
        indexDistricts provinceCode (fst c) (entriesOf data (fst c))
          {| provinces := provinces ix;
             cities :=
               Map_set cityName
                 {| CInfo.code := fst c; CInfo.name := cityName;
                    CInfo.provinceCode := provinceCode |} (cities ix);
             districts := districts ix |}
    | JObject => ix
    end) cityData ix.

Definition buildIndex (data : JunboAddressData) : AddressIndex :=
  fold_left (fun ix p =>
    match snd p with
    | JString provinceName =>
        indexCities data (fst p) (entriesOf data (fst p))
          {| provinces :=
               Map_set provinceName
                 {| PInfo.code := fst p; PInfo.name := provinceName |}
                 (provinces ix);
             cities := cities ix; districts := districts ix |}
    | JObject => ix
    end) (entriesOf data (lit "0000")) emptyIndex.

(* ------------------------------------------------------------------ *)
(** ** The forward matcher ([matchProvince], [matchCity], [matchDistrict],
    [match]) *)

(** The outcome of evaluating an expression: a value, or a [TypeError]
    thrown. *)
Inductive Completion (A : Type) : Type :=
| Normal (a : A)
| Throw.
Arguments Normal {A} a.
Arguments Throw {A}.

Definition bind {A B} (c : Completion A) (k : A -> Completion B)
    : Completion B :=
  match c with
  | Normal a => k a
  | Throw => Throw
  end.

Notation "'let!' x ':=' c 'in' k" := (bind c (fun x => k))
  (at level 10, x name, c at level 100, k at level 200).

(** [code] is an own property of the catalog. *)
Definition hasOwn (data : JunboAddressData) (code : jsstring) : bool :=
  match find (fun kv => str_eqb (fst kv) code) data with
  | Some _ => true
  | None => false
  end.

(** The own property [inner] of the object stored under [outer], when it
    is a non-empty string. *)
Definition ownName (data : JunboAddressData) (outer inner : jsstring)
    : option jsstring :=
  match find (fun kv => str_eqb (fst kv) inner) (entriesOf data outer) with
  | Some (_, JString name) => if truthy name then Some name else None
  | _ => None
  end.

(** The catalog is an ordinary object, so a property it does not own is
    read from [Object.prototype]: these are its function-valued
    properties, each with the [name] of the function. *)
Definition objectPrototypeMethods : list (jsstring * jsstring) :=
  Eval vm_compute in
    map (fun kv => (lit (fst kv), lit (snd kv)))
      [ ("constructor", "Object");
        ("__defineGetter__", "__defineGetter__");
        ("__defineSetter__", "__defineSetter__");
        ("hasOwnProperty", "hasOwnProperty");
        ("__lookupGetter__", "__lookupGetter__");
        ("__lookupSetter__", "__lookupSetter__");
        ("isPrototypeOf", "isPrototypeOf");
        ("propertyIsEnumerable", "propertyIsEnumerable");
        ("toString", "toString");
        ("valueOf", "valueOf");
        ("toLocaleString", "toLocaleString") ]%string.

(** The name of the function that [addressData[code]] is when [code] is not
    an own property of the catalog. *)
Definition inheritedMethod (data : JunboAddressData) (code : jsstring)
    : option jsstring :=
  if hasOwn data code then None
  else option_map snd
         (find (fun kv => str_eqb (fst kv) code) objectPrototypeMethods).

Definition s_name : jsstring := Eval vm_compute in lit "name".
Definition s_caller : jsstring := Eval vm_compute in lit "caller".
Definition s_arguments : jsstring := Eval vm_compute in lit "arguments".

(** [this.addressData[outer]?.[inner]] when it is a non-empty string: the
    guard [x && typeof x === 'string'] of the code matches.  Under an own
    property of the catalog, an object of the catalog, only an own string
    of that object passes (what it inherits is a function or an object).
    Under an inherited function the property [name] is a string, reading
    [caller] or [arguments] throws, and every other property is a number, a
    function, an object or undefined.  Any other [outer] gives undefined or,
    for [__proto__], an object without string-valued properties. *)
Definition nameUnder (data : JunboAddressData) (outer inner : jsstring)
    : Completion (option jsstring) :=
  if hasOwn data outer then Normal (ownName data outer inner)
  else
    match inheritedMethod data outer with
    | Some functionName =>
        if str_eqb inner s_name then Normal (Some functionName)
        else if str_eqb inner s_caller || str_eqb inner s_arguments
        then Throw
        else Normal None
    | None => Normal None
    end.

(** One round of a best-match loop: [bestMatch] is replaced when the entry
    passes the filter, scores at least 0.8 and scores more than the best so
    far. *)
Definition bestStep {V} (normalizedInput : jsstring) (passes : V -> bool)
    (bestMatch : option (V * float)) (entry : jsstring * V)
    : option (V * float) :=
  if passes (snd entry) then
    let normalizedName := normalizeName (fst entry) in
    let score := similarity normalizedInput normalizedName in
    if (0.8 <=? score)%float
       && match bestMatch with
          | None => true
          | Some best => (snd best <? score)%float
          end
    then Some (snd entry, score)
    else bestMatch
  else bestMatch.

Definition bestOf {V} (normalizedInput : jsstring) (passes : V -> bool)
    (m : OMap V) : option V :=
  option_map fst (fold_left (bestStep normalizedInput passes) m None).

Section Forward.

Variable addressData : JunboAddressData.
Variable index : AddressIndex.

(** The result is the pair (code, name) of the object returned. *)
Definition matchProvince (provinceName provinceCode : jsstring)
    : Completion (option (jsstring * jsstring)) :=
  let! byCode := (if truthy provinceCode
                  then nameUnder addressData (lit "0000") provinceCode
                  else Normal None) in
  Normal
    match byCode with
    | Some name => Some (provinceCode, name)
    | None =>
        match Map_get provinceName (provinces index) with
        | Some exactMatch => Some (PInfo.code exactMatch, PInfo.name exactMatch)
        | None =>
            let normalizedInput := normalizeName provinceName in
            match bestOf normalizedInput (fun _ => true) (provinces index) with
            | Some bestMatch => Some (PInfo.code bestMatch, PInfo.name bestMatch)
            | None => None
            end
        end
    end.

Definition matchCity (cityName cityCode provinceCode : jsstring)
    : Completion (option (jsstring * jsstring)) :=
  let! byCode := (if truthy cityCode && truthy provinceCode
                  then nameUnder addressData provinceCode cityCode
                  else Normal None) in
  Normal
    match byCode with
    | Some name => Some (cityCode, name)
    | None =>
        match (if truthy provinceCode
               then find (fun e => str_eqb (CInfo.provinceCode (snd e)) provinceCode
                                   && str_eqb (fst e) cityName) (cities index)
               else None) with
        | Some e => Some (CInfo.code (snd e), CInfo.name (snd e))
        | None =>
            let normalizedInput := normalizeName cityName in
            match bestOf normalizedInput
                    (fun info => negb (truthy provinceCode)
                                 || str_eqb (CInfo.provinceCode info) provinceCode)
                    (cities index) with
            | Some bestMatch => Some (CInfo.code bestMatch, CInfo.name bestMatch)
            | None => None
            end
        end
    end.

Definition matchDistrict (districtName districtCode provinceCode cityCode
    : jsstring) : Completion (option (jsstring * jsstring)) :=
  let! byCode := (if truthy districtCode && truthy cityCode
                  then nameUnder addressData cityCode districtCode
                  else Normal None) in
  Normal
    match byCode with
    | Some name => Some (districtCode, name)
    | None =>
        match (if truthy cityCode
               then find (fun e => str_eqb (DInfo.cityCode (snd e)) cityCode
                                   && str_eqb (fst e) districtName)
                      (districts index)
               else None) with
        | Some e => Some (DInfo.code (snd e), DInfo.name (snd e))
        | None =>
            let normalizedInput := normalizeName districtName in
            match bestOf normalizedInput
                    (fun info =>
                       (negb (truthy cityCode)
                        || str_eqb (DInfo.cityCode info) cityCode)
                       && (negb (truthy provinceCode)
                           || str_eqb (DInfo.provinceCode info) provinceCode))
                    (districts index) with
            | Some bestMatch => Some (DInfo.code bestMatch, DInfo.name bestMatch)
            | None => None
            end
        end
    end.

End Forward.

(** [JunboAddress]: every field optional. *)
Module JA.
Record t := {
  provinceCode : option jsstring;
  provinceName : option jsstring;
  cityCode : option jsstring;
  cityName : option jsstring;
  districtCode : option jsstring;
  districtName : option jsstring;
}.
End JA.

(** [MatchResult] *)
Module MR.
Record t := {
  junbo : JA.t;
  matchScore : float;
  matchMethod : MatchMethod;
  confidence : Confidence;
}.
End MR.

(** Truthiness of an optional string field. *)
Definition truthyField (field : option jsstring) : bool :=
  match field with
  | Some s => truthy s
  | None => false
  end.

(** The method update after a level matched: [code] when the row's code is
    the matched code, else by name equality. *)
Definition forwardMethod (atProvince : bool) (inputCode inputName : jsstring)
    (matched : jsstring * jsstring) (matchMethod : MatchMethod) : MatchMethod :=
  if truthy inputCode && str_eqb (fst matched) inputCode
  then (if atProvince then m_code else methodIf m_code m_code matchMethod)
  else if str_eqb inputName (snd matched)
  then methodIf m_none m_exact matchMethod
  else (if atProvince then methodIf m_none m_fuzzy matchMethod
        else methodIf m_fuzzy m_fuzzy matchMethod).

(** The record that [match] returns when its three lookups return the
    given matches. *)
Definition forwardResult (input : OperAddressInput)
    (provinceMatch cityMatch districtMatch : option (jsstring * jsstring))
    : MR.t :=
  let matchScore := 0%float in
  let matchMethod := m_none in
  let '(matchScore, matchMethod) :=
    match provinceMatch with
    | Some pm =>
        ((matchScore + 0.33)%float,
         forwardMethod true (省份编码 input) (省份名称 input) pm matchMethod)
    | None => (matchScore, matchMethod)
    end in
  let '(matchScore, matchMethod) :=
    match cityMatch with
    | Some cm =>
        ((matchScore + 0.33)%float,
         forwardMethod false (地市编码 input) (地市名称 input) cm matchMethod)
    | None => (matchScore, matchMethod)
    end in
  let '(matchScore, matchMethod) :=
    match districtMatch with
    | Some dm =>
        ((matchScore + 0.34)%float,
         forwardMethod false (区县编码 input) (区县名称 input) dm matchMethod)
    | None => (matchScore, matchMethod)
    end in
  {| MR.junbo :=
       {| JA.provinceCode := option_map fst provinceMatch;
          JA.provinceName := option_map snd provinceMatch;
          JA.cityCode := option_map fst cityMatch;
          JA.cityName := option_map snd cityMatch;
          JA.districtCode := option_map fst districtMatch;
          JA.districtName := option_map snd districtMatch |};
     MR.matchScore := matchScore;
     MR.matchMethod := matchMethod;
     MR.confidence := confidenceOf matchScore |}.

(** [match(input)]: a lookup that throws ends the call. *)
Definition matchForward (addressData : JunboAddressData) (index : AddressIndex)
    (input : OperAddressInput) : Completion MR.t :=
  let matchScore := 0%float in
  let matchMethod := m_none in
  (* 1. province *)
  let! provinceMatch :=
    matchProvince addressData index (省份名称 input) (省份编码 input) in
  let '(matchScore, matchMethod) :=
    match provinceMatch with
    | Some pm =>
        ((matchScore + 0.33)%float,
         forwardMethod true (省份编码 input) (省份名称 input) pm matchMethod)
    | None => (matchScore, matchMethod)
    end in
  let junboProvinceCode := option_map fst provinceMatch in
  (* 2. city *)
  let! cityMatch :=
    (if truthyField junboProvinceCode
     then matchCity addressData index (地市名称 input) (地市编码 input)
            (default [] junboProvinceCode)
     else Normal None) in
  let '(matchScore, matchMethod) :=
    match cityMatch with
    | Some cm =>
        ((matchScore + 0.33)%float,
         forwardMethod false (地市编码 input) (地市名称 input) cm matchMethod)
    | None => (matchScore, matchMethod)
    end in
  let junboCityCode := option_map fst cityMatch in
  (* 3. district *)
  let! districtMatch :=
    (if truthyField junboCityCode
     then matchDistrict addressData index (区县名称 input) (区县编码 input)
            (default [] junboProvinceCode) (default [] junboCityCode)
     else Normal None) in
  let '(matchScore, matchMethod) :=
    match districtMatch with
    | Some dm =>
        ((matchScore + 0.34)%float,
         forwardMethod false (区县编码 input) (区县名称 input) dm matchMethod)
    | None => (matchScore, matchMethod)
    end in
  Normal
    {| MR.junbo :=
         {| JA.provinceCode := option_map fst provinceMatch;
            JA.provinceName := option_map snd provinceMatch;
            JA.cityCode := option_map fst cityMatch;
            JA.cityName := option_map snd cityMatch;
            JA.districtCode := option_map fst districtMatch;
            JA.districtName := option_map snd districtMatch |};
       MR.matchScore := matchScore;
       MR.matchMethod := matchMethod;
       MR.confidence := confidenceOf matchScore |}.

(** The second and third lookups of [match], given what the levels above
    returned. *)
Definition cityLookup (addressData : JunboAddressData) (index : AddressIndex)
    (input : OperAddressInput) (provinceMatch : option (jsstring * jsstring))
    : Completion (option (jsstring * jsstring)) :=
  if truthyField (option_map fst provinceMatch)
  then matchCity addressData index (地市名称 input) (地市编码 input)
         (default [] (option_map fst provinceMatch))
  else Normal None.

Definition districtLookup (addressData : JunboAddressData)
    (index : AddressIndex) (input : OperAddressInput)
    (provinceMatch cityMatch : option (jsstring * jsstring))
    : Completion (option (jsstring * jsstring)) :=
  if truthyField (option_map fst cityMatch)
  then matchDistrict addressData index (区县名称 input) (区县编码 input)
         (default [] (option_map fst provinceMatch))
         (default [] (option_map fst cityMatch))
  else Normal None.

(** What [buildIndex] stores for an entry of the walk. *)
Definition districtInfoOf (e : JunboEntry) : DInfo.t :=
  {| DInfo.code := districtCode e; DInfo.name := districtName e;
     DInfo.provinceCode := provinceCode e; DInfo.cityCode := cityCode e |}.

(** Every value of the index is stored under its own name and is a
    string-valued property of the catalog under its parent code. *)
Definition indexSound (data : JunboAddressData) (ix : AddressIndex) : Prop :=
  Forall (fun kv =>
            PInfo.name (snd kv) = fst kv
            /\ (PInfo.code (snd kv), JString (PInfo.name (snd kv)))
               ∈ entriesOf data (lit "0000")) (provinces ix)
  /\ Forall (fun kv =>
               CInfo.name (snd kv) = fst kv
               /\ (CInfo.code (snd kv), JString (CInfo.name (snd kv)))
                  ∈ entriesOf data (CInfo.provinceCode (snd kv))) (cities ix)
  /\ Forall (fun kv =>
               DInfo.name (snd kv) = fst kv
               /\ (DInfo.code (snd kv), JString (DInfo.name (snd kv)))
                  ∈ entriesOf data (DInfo.cityCode (snd kv))) (districts ix).

(** The last entry of a walk whose district has the given name. *)
Definition lastNamed (name : jsstring) (entries : list JunboEntry)
    : option JunboEntry :=
  last (List.filter (fun e => str_eqb (districtName e) name) entries).

(** [districts.set] along a list of entries. *)
Definition setDistricts (entries : list JunboEntry) (m : OMap DInfo.t)
    : OMap DInfo.t :=
  fold_left (fun m e => Map_set (districtName e) (districtInfoOf e) m) entries m.


(** The [JunboAddress] with all six fields of an entry. *)
Definition junboOf (e : JunboEntry) : JA.t :=
  {| JA.provinceCode := Some (provinceCode e);
     JA.provinceName := Some (provinceName e);
     JA.cityCode := Some (cityCode e);
     JA.cityName := Some (cityName e);
     JA.districtCode := Some (districtCode e);
     JA.districtName := Some (districtName e) |}.

(** How a level of the forward matcher may come to its result: by the
    row's code, by the row's name, or by a similarity of the normalised
    names of at least 0.8. *)
Definition justified (inputName inputCode code name : jsstring) : Prop :=
  (inputCode <> [] /\ code = inputCode)
  \/ name = inputName
  \/ (0.8 <=? similarity (normalizeName inputName) (normalizeName name))%float
     = true.

(** The two property names whose reading throws on a built-in function. *)
Definition throwingCode (code : jsstring) : Prop :=
  code = s_caller \/ code = s_arguments.

(** No property name in an object of the catalog leads, as a key of the
    catalog itself, to a method of [Object.prototype]: it is an own
    property of the catalog or no method name. *)
Definition plainKeys (data : JunboAddressData) : bool :=
  forallb (fun obj =>
             forallb (fun kv =>
                        match inheritedMethod data (fst kv) with
                        | None => true
                        | Some _ => false
                        end) (snd obj)) data.

(* ------------------------------------------------------------------ *)
(** * Properties *)

(** ** Order of binary64 numbers

    What the selection by [>] needs of [<] and [<=] on floats, proved from
    the specification of the primitive comparisons on [spec_float]. *)
Module FloatOrder.

Ltac split_ifs :=
  repeat match goal with
  | |- context [if ?s then _ else _] => destruct s
  | H : context [if ?s then _ else _] |- _ => destruct s
  end.

Ltac split_compares :=
  repeat match goal with
  | |- context [Z.compare ?x ?y] => destruct (Z.compare_spec x y)
  | H : context [Z.compare ?x ?y] |- _ => destruct (Z.compare_spec x y)
  | |- context [Pos.compare ?x ?y] => destruct (Pos.compare_spec x y)
  | H : context [Pos.compare ?x ?y] |- _ => destruct (Pos.compare_spec x y)
  end.

Ltac order_cases :=
  simpl in *; split_ifs; simpl in *; try congruence;
  change (PosDef.Pos.compare_cont Eq) with Pos.compare in *;
  split_compares; simpl in *; try congruence; try lia.

Lemma SFleb_trans a b c :
  SFleb a b = true -> SFleb b c = true -> SFleb a c = true.
Proof. unfold SFleb, SFcompare. destruct a, b, c; intros; order_cases. Qed.

Lemma SFltb_leb a b : SFltb a b = true -> SFleb a b = true.
Proof. unfold SFltb, SFleb, SFcompare. destruct a, b; intros; order_cases. Qed.

Lemma SFleb_of_not_ltb a b :
  SFltb (S754_zero false) a = true -> SFltb (S754_zero false) b = true ->
  SFltb a b = false -> SFleb b a = true.
Proof. unfold SFltb, SFleb, SFcompare. destruct a, b; intros; order_cases. Qed.

Lemma leb_trans (a b c : float) :
  (a <=? b)%float = true -> (b <=? c)%float = true -> (a <=? c)%float = true.
Proof. rewrite !FloatAxioms.leb_spec. apply SFleb_trans. Qed.

Lemma ltb_leb (a b : float) :
  (a <? b)%float = true -> (a <=? b)%float = true.
Proof. rewrite FloatAxioms.ltb_spec, FloatAxioms.leb_spec. apply SFltb_leb. Qed.

(** Among numbers above zero (so neither is NaN), "not less" is "at least". *)
Lemma leb_of_not_ltb (a b : float) :
  (0 <? a)%float = true -> (0 <? b)%float = true ->
  (a <? b)%float = false -> (b <=? a)%float = true.
Proof.
  rewrite !FloatAxioms.ltb_spec, FloatAxioms.leb_spec.
  change (Prim2SF 0) with (S754_zero false). apply SFleb_of_not_ltb.
Qed.

Lemma leb_refl_pos (a : float) :
  (0 <? a)%float = true -> (a <=? a)%float = true.
Proof.
  intros H. apply leb_of_not_ltb; try done.
  rewrite FloatAxioms.ltb_spec in *. revert H.
  unfold SFltb, SFcompare. destruct (Prim2SF a); intros; order_cases.
Qed.

End FloatOrder.

(** ** Strings *)

Lemma str_eqb_eq a b : str_eqb a b = true <-> a = b.
Proof.
  revert b; induction a as [|x a IH]; intros [|y b]; simpl; try easy.
  rewrite andb_true_iff, N.eqb_eq, IH. split.
  - intros [-> ->]; reflexivity.
  - intros [= -> ->]; auto.
Qed.

Lemma str_eqb_refl a : str_eqb a a = true.
Proof. apply str_eqb_eq; reflexivity. Qed.

Lemma str_eqb_neq a b : str_eqb a b = false <-> a <> b.
Proof.
  rewrite <- str_eqb_eq. destruct (str_eqb a b); split; congruence.
Qed.

Lemma truthy_true s : truthy s = true <-> s <> [].
Proof. destruct s; simpl; split; congruence. Qed.

Lemma startsWith_prefix s t : startsWith s t = true <-> t `prefix_of` s.
Proof.
  revert s; induction t as [|y t IH]; intros s; simpl.
  - split; [intros _; apply prefix_nil | easy].
  - destruct s as [|x s].
    + split; [easy | intros [k Hk]; discriminate].
    + rewrite andb_true_iff, N.eqb_eq, IH. split.
      * intros [-> Hp]. by apply prefix_cons.
      * intros [k Hk]. simpl in Hk. injection Hk as Hx Hs.
        split; [done | by exists k].
Qed.

Lemma includes_substring s t : includes s t = true <-> substring_of t s.
Proof.
  induction s as [|x s IH]; simpl.
  - rewrite orb_false_r, startsWith_prefix. split.
    + intros [k ->]. by exists [], k.
    + intros (p & q & H). symmetry in H.
      apply app_eq_nil in H as [-> H]. apply app_eq_nil in H as [-> ->].
      apply prefix_nil.
  - rewrite orb_true_iff, startsWith_prefix, IH. split.
    + intros [[k ->] | (p & q & ->)].
      * by exists [], k.
      * by exists (x :: p), q.
    + intros (p & q & H). destruct p as [|x' p]; simpl in H.
      * left. by exists q.
      * right. injection H as -> ->. by exists p, q.
Qed.

Lemma endsWith_suffix s t : endsWith s t = true <-> t `suffix_of` s.
Proof.
  unfold endsWith. rewrite startsWith_prefix. split.
  - intros [k Hk]. exists (rev k).
    rewrite <- (rev_involutive s), Hk, rev_app_distr.
    by rewrite rev_involutive.
  - intros [k ->]. exists (rev k). apply rev_app_distr.
Qed.

Lemma replaceSuffix_app p suf : replaceSuffix suf (p ++ suf) = p.
Proof.
  unfold replaceSuffix.
  assert (endsWith (p ++ suf) suf = true) as ->
    by (apply endsWith_suffix; by exists p).
  rewrite length_app, Nat.add_sub. apply take_app_length.
Qed.

Lemma replaceSuffix_nomatch suf s :
  endsWith s suf = false -> replaceSuffix suf s = s.
Proof. unfold replaceSuffix. by intros ->. Qed.

Lemma replaceSuffix_length suf s : length (replaceSuffix suf s) <= length s.
Proof.
  unfold replaceSuffix. destruct (endsWith s suf); [|lia].
  rewrite length_take. lia.
Qed.

Lemma replaceSuffix_shorter suf s :
  suf <> [] -> endsWith s suf = true ->
  length (replaceSuffix suf s) < length s.
Proof.
  intros Hne Hs. apply endsWith_suffix in Hs as [p ->].
  rewrite replaceSuffix_app, length_app. destruct suf; [done | simpl; lia].
Qed.

Lemma trimStart_length s : length (trimStart s) <= length s.
Proof.
  induction s as [|c s IH]; simpl; [lia|].
  destruct (isWhiteSpace c); simpl; lia.
Qed.

Lemma trimStart_fixed s :
  trimStart s = s <-> match s with [] => True | c :: _ => isWhiteSpace c = false end.
Proof.
  destruct s as [|c s]; simpl; [done|].
  destruct (isWhiteSpace c) eqn:E; [|done].
  split; [|done]. intros H.
  pose proof (trimStart_length s) as L. rewrite H in L. simpl in L. lia.
Qed.

Lemma trimStart_head s :
  match trimStart s with [] => True | c :: _ => isWhiteSpace c = false end.
Proof.
  induction s as [|c s IH]; simpl; [done|].
  destruct (isWhiteSpace c) eqn:E; [done | by simpl].
Qed.

Lemma trimStart_idem s : trimStart (trimStart s) = trimStart s.
Proof. apply trimStart_fixed, trimStart_head. Qed.

(** Dropping leading white space keeps what the string ends with. *)
Lemma trimStart_suffix s : trimStart s `suffix_of` s.
Proof.
  induction s as [|c s IH]; simpl; [done|].
  destruct (isWhiteSpace c); [by apply suffix_cons_r | done].
Qed.

Lemma trim_length s : length (trim s) <= length s.
Proof.
  unfold trim, trimEnd. rewrite length_rev.
  pose proof (trimStart_length (rev (trimStart s))).
  pose proof (trimStart_length s). rewrite length_rev in *. lia.
Qed.

Lemma trimEnd_keeps_head s :
  trimStart s = s -> trimStart (trimEnd s) = trimEnd s.
Proof.
  unfold trimEnd. intros Hs.
  destruct (trimStart_suffix (rev s)) as [k Hk].
  assert (s = rev (trimStart (rev s)) ++ rev k) as E.
  { rewrite <- rev_app_distr, <- Hk. by rewrite rev_involutive. }
  remember (rev (trimStart (rev s))) as u. clear Hequ Hk.
  apply trimStart_fixed. apply trimStart_fixed in Hs.
  rewrite E in Hs. destruct u; [done | exact Hs].
Qed.

Lemma trim_idem s : trim (trim s) = trim s.
Proof.
  unfold trim. rewrite (trimEnd_keeps_head (trimStart s)) by apply trimStart_idem.
  unfold trimEnd. by rewrite rev_involutive, trimStart_idem.
Qed.

(** ** Name normaliser *)

Lemma stripSuffixes_fixed sufs s :
  Forall (fun suf => endsWith s suf = false) sufs -> stripSuffixes sufs s = s.
Proof.
  unfold stripSuffixes. induction 1 as [|suf sufs Hsuf _ IH]; simpl; [done|].
  by rewrite replaceSuffix_nomatch.
Qed.

Lemma stripSuffixes_length sufs s : length (stripSuffixes sufs s) <= length s.
Proof.
  unfold stripSuffixes. revert s; induction sufs as [|suf sufs IH]; intros s; simpl.
  - lia.
  - specialize (IH (replaceSuffix suf s)).
    pose proof (replaceSuffix_length suf s). lia.
Qed.

Lemma stripSuffixes_shorter sufs s :
  Forall (fun suf => suf <> []) sufs ->
  Exists (fun suf => endsWith s suf = true) sufs ->
  length (stripSuffixes sufs s) < length s.
Proof.
  intros Hne. revert s. induction Hne as [|suf sufs Hsuf _ IH]; intros s Hex.
  - inversion Hex.
  - change (length (stripSuffixes sufs (replaceSuffix suf s)) < length s).
    destruct (endsWith s suf) eqn:E.
    + pose proof (replaceSuffix_shorter suf s Hsuf E).
      pose proof (stripSuffixes_length sufs (replaceSuffix suf s)). lia.
    + rewrite replaceSuffix_nomatch by done. apply IH.
      inversion Hex; subst; [congruence | done].
Qed.

Lemma suffixes_nonempty : Forall (fun suf => suf <> []) suffixes.
Proof.
  apply List.Forall_forall. intros suf H. apply truthy_true.
  assert (forallb truthy suffixes = true) as Hall by (vm_compute; reflexivity).
  rewrite forallb_forall in Hall. by apply Hall.
Qed.

Lemma normalizeName_nil : normalizeName [] = [].
Proof. reflexivity. Qed.

Lemma normalizeName_trimmed x : trim (normalizeName x) = normalizeName x.
Proof.
  unfold normalizeName. destruct (truthy x); [apply trim_idem | reflexivity].
Qed.

Lemma normalizeName_length x : length (normalizeName x) <= length x.
Proof.
  unfold normalizeName. destruct (truthy x); [|cbn [length]; lia].
  pose proof (trim_length (stripSuffixes suffixes x)).
  pose proof (stripSuffixes_length suffixes x). lia.
Qed.

(** A normalised name that ends with none of the suffixes is a fixed point. *)
Lemma normalizeName_fixed y :
  trim y = y ->
  Forall (fun suf => endsWith y suf = false) suffixes ->
  normalizeName y = y.
Proof.
  intros Ht Hs. unfold normalizeName. destruct (truthy y) eqn:E.
  - by rewrite stripSuffixes_fixed.
  - by destruct y.
Qed.

(** A name that still ends with a suffix gets strictly shorter. *)
Lemma normalizeName_shrinks y :
  Exists (fun suf => endsWith y suf = true) suffixes ->
  length (normalizeName y) < length y.
Proof.
  intros Hex. unfold normalizeName. destruct (truthy y) eqn:E.
  - pose proof (stripSuffixes_shorter suffixes y suffixes_nonempty Hex).
    pose proof (trim_length (stripSuffixes suffixes y)). lia.
  - destruct y; [|discriminate]. exfalso.
    pose proof suffixes_nonempty as Hne.
    rewrite Exists_exists in Hex. destruct Hex as (suf & Hin & Hends).
    rewrite Forall_forall in Hne. specialize (Hne suf Hin).
    apply endsWith_suffix in Hends as [k Hk].
    symmetry in Hk. by apply app_eq_nil in Hk as [_ ?].
Qed.

Lemma endsWith_none_or_some y sufs :
  Forall (fun suf => endsWith y suf = false) sufs
  \/ Exists (fun suf => endsWith y suf = true) sufs.
Proof.
  induction sufs as [|suf sufs IH].
  - left. apply Forall_nil_2.
  - destruct IH as [IH|IH].
    + destruct (endsWith y suf) eqn:E.
      * right. apply Exists_cons_hd. exact E.
      * left. apply Forall_cons_2; assumption.
    + right. apply Exists_cons_tl. exact IH.
Qed.

(** C8, as stated, fails: the district name 沙市区 normalises to 沙市 (the
    trailing 区 is removed after the 市 step has already been passed), and
    normalising 沙市 again removes the 市 as well. *)
Lemma normalizeName_not_idempotent :
  normalizeName (lit "沙市区") = lit "沙市"
  /\ normalizeName (normalizeName (lit "沙市区")) = lit "沙"
  /\ normalizeName (normalizeName (lit "沙市区")) <> normalizeName (lit "沙市区").
Proof. vm_compute. repeat split; discriminate. Qed.

(** C8, amended: normalising twice gives the same result as normalising
    once exactly when the once-normalised name ends with none of the
    suffixes of the [replace] chain. *)
Theorem normalizeName_idempotent_iff (x : jsstring) :
  normalizeName (normalizeName x) = normalizeName x
  <-> Forall (fun suf => endsWith (normalizeName x) suf = false) suffixes.
Proof.
  split.
  - intros Hidem.
    destruct (endsWith_none_or_some (normalizeName x) suffixes) as [H|H]; [done|].
    apply normalizeName_shrinks in H. rewrite Hidem in H. lia.
  - intros H. apply normalizeName_fixed; [apply normalizeName_trimmed | done].
Qed.

Lemma normalizeName_idempotent_witness :
  normalizeName (normalizeName (lit "福建省")) = normalizeName (lit "福建省").
Proof.
  apply (proj2 (normalizeName_idempotent_iff (lit "福建省"))).
  apply List.Forall_forall. intros suf Hin.
  assert (forallb (fun suf => negb (endsWith (normalizeName (lit "福建省")) suf))
            suffixes = true) as Hall by (vm_compute; reflexivity).
  rewrite forallb_forall in Hall. apply negb_true_iff. by apply Hall.
Defined.

(** ** Similarity scorer *)

(** C10: two non-empty names with equal normal forms score exactly 1,
    whatever the names are; in particular two names that both normalise
    to the empty string, such as 省 and 市. *)
Theorem similarity_normalized_equal (a b : jsstring) :
  a <> [] -> b <> [] -> normalizeName a = normalizeName b ->
  similarity a b = 1%float.
Proof.
  intros Ha Hb Hn. unfold similarity.
  apply truthy_true in Ha, Hb. rewrite Ha, Hb. simpl.
  destruct (str_eqb a b); [reflexivity|].
  by rewrite Hn, str_eqb_refl.
Qed.

Lemma similarity_normalized_equal_witness :
  normalizeName (lit "省") = [] /\ normalizeName (lit "市") = []
  /\ similarity (lit "省") (lit "市") = 1%float.
Proof.
  split; [reflexivity | split; [reflexivity|]].
  apply (similarity_normalized_equal (lit "省") (lit "市"));
    [discriminate | discriminate | reflexivity].
Defined.

Lemma similarity_containment_branch (a b : jsstring) :
  a <> [] -> b <> [] -> a <> b ->
  normalizeName a <> normalizeName b ->
  substring_of (normalizeName b) (normalizeName a)
    \/ substring_of (normalizeName a) (normalizeName b) ->
  similarity a b =
    let normalized1 := normalizeName a in
    let normalized2 := normalizeName b in
    let minLen := Nat.min (length normalized1) (length normalized2) in
    let maxLen := Nat.max (length normalized1) (length normalized2) in
    if 2 <=? minLen then
      if startsWith normalized1 normalized2 || startsWith normalized2 normalized1
      then Num.Math_min 0.95
             (Num.of_nat minLen / Num.of_nat maxLen * 0.95 + 0.1)%float
      else Num.Math_min 0.9
             (Num.of_nat minLen / Num.of_nat maxLen * 0.9 + 0.05)%float
    else (Num.of_nat minLen / Num.of_nat maxLen * 0.8)%float.
Proof.
  intros Ha Hb Hab Hn Hsub. unfold similarity.
  apply truthy_true in Ha, Hb. rewrite Ha, Hb. simpl.
  apply str_eqb_neq in Hab, Hn. rewrite Hab, Hn.
  assert (includes (normalizeName a) (normalizeName b)
          || includes (normalizeName b) (normalizeName a) = true) as ->.
  { apply orb_true_iff. by rewrite !includes_substring. }
  reflexivity.
Qed.

(** C6: the three containment scores of [similarity].  [minLen] and
    [maxLen] are the lengths of the shorter and the longer normal form. *)
Theorem similarity_containment (a b : jsstring) :
  let n1 := normalizeName a in
  let n2 := normalizeName b in
  let minLen := Nat.min (length n1) (length n2) in
  let maxLen := Nat.max (length n1) (length n2) in
  a <> [] -> b <> [] -> a <> b -> n1 <> n2 ->
  substring_of n2 n1 \/ substring_of n1 n2 ->
  (2 <= minLen -> (n2 `prefix_of` n1) \/ (n1 `prefix_of` n2) ->
     similarity a b =
       Num.Math_min 0.95 (Num.of_nat minLen / Num.of_nat maxLen * 0.95 + 0.1)%float)
  /\ (2 <= minLen -> ~ ((n2 `prefix_of` n1) \/ (n1 `prefix_of` n2)) ->
     similarity a b =
       Num.Math_min 0.9 (Num.of_nat minLen / Num.of_nat maxLen * 0.9 + 0.05)%float)
  /\ (minLen < 2 ->
     similarity a b = (Num.of_nat minLen / Num.of_nat maxLen * 0.8)%float).
Proof.
  intros n1 n2 minLen maxLen Ha Hb Hab Hn Hsub.
  pose proof (similarity_containment_branch a b Ha Hb Hab Hn Hsub) as E.
  cbv zeta in E. fold n1 n2 in E. fold minLen maxLen in E.
  repeat split.
  - intros Hlen Hpre. rewrite E.
    apply Nat.leb_le in Hlen. rewrite Hlen.
    assert (startsWith n1 n2 || startsWith n2 n1 = true) as ->; [|done].
    apply orb_true_iff. by rewrite !startsWith_prefix.
  - intros Hlen Hpre. rewrite E.
    apply Nat.leb_le in Hlen. rewrite Hlen.
    assert (startsWith n1 n2 || startsWith n2 n1 = false) as ->; [|done].
    apply not_true_is_false. intros H. apply Hpre.
    apply orb_true_iff in H. by rewrite !startsWith_prefix in H.
  - intros Hlen. rewrite E.
    assert ((2 <=? minLen) = false) as ->; [|done].
    apply Nat.leb_gt. lia.
Qed.


Lemma similarity_containment_witness :
  similarity (lit "黔南") (lit "黔南布依族")
    = Num.Math_min 0.95 (Num.of_nat 2 / Num.of_nat 5 * 0.95 + 0.1)%float
  /\ similarity (lit "南京市") (lit "大南京都")
    = Num.Math_min 0.9 (Num.of_nat 2 / Num.of_nat 4 * 0.9 + 0.05)%float
  /\ similarity (lit "南") (lit "大南京")
    = (Num.of_nat 1 / Num.of_nat 3 * 0.8)%float.
Proof.
  split; [|split].
  - refine (proj1 (similarity_containment (lit "黔南") (lit "黔南布依族")
                     _ _ _ _ _) _ _).
    + vm_compute. discriminate.
    + vm_compute. discriminate.
    + vm_compute. discriminate.
    + vm_compute. discriminate.
    + right. exists [], (lit "布依族"). vm_compute. reflexivity.
    + vm_compute. lia.
    + right. exists (lit "布依族"). vm_compute. reflexivity.
  - refine (proj1 (proj2 (similarity_containment (lit "南京市") (lit "大南京都")
                     _ _ _ _ _)) _ _).
    + vm_compute. discriminate.
    + vm_compute. discriminate.
    + vm_compute. discriminate.
    + vm_compute. discriminate.
    + right. exists (lit "大"), (lit "都"). vm_compute. reflexivity.
    + vm_compute. lia.
    + intros H. rewrite <- !startsWith_prefix in H.
      vm_compute in H. destruct H; discriminate.
  - refine (proj2 (proj2 (similarity_containment (lit "南") (lit "大南京")
                     _ _ _ _ _)) _).
    + vm_compute. discriminate.
    + vm_compute. discriminate.
    + vm_compute. discriminate.
    + vm_compute. discriminate.
    + right. exists (lit "大"), (lit "京"). vm_compute. reflexivity.
    + vm_compute. lia.
Defined.

(** ** Staged scoring *)

Ltac split_if :=
  match goal with
  | |- context [if ?b then _ else _] => destruct b eqn:?
  end.

Lemma provinceStage_cases gn j oi st :
  provinceStage gn j oi st = st
  \/ exists w m, provinceStage gn j oi st = contribute L_province w m st.
Proof. unfold provinceStage. cbv zeta. repeat split_if; eauto. Qed.

Lemma cityStage_cases gn j oi st :
  cityStage gn j oi st = st
  \/ exists w m, cityStage gn j oi st = contribute L_city w m st.
Proof. unfold cityStage. cbv zeta. repeat split_if; eauto. Qed.

Lemma districtStage_cases gn j oi st :
  districtStage gn j oi st = st
  \/ (exists w m, districtStage gn j oi st = contribute L_districtExact w m st)
  \/ (exists w m, districtStage gn j oi st = contribute L_districtFuzzy w m st).
Proof. unfold districtStage. cbv zeta. repeat split_if; eauto. Qed.

(** The flags of one candidate respect the hierarchy, and a level that is
    not reached leaves the variables as they were. *)
Lemma scoreCandidate_gated gn j oi :
  let st := scoreCandidate gn j oi in
  (provinceMatched st = false -> st = initialLocals)
  /\ (cityMatched st = false -> st = provinceStage gn j oi initialLocals)
  /\ (cityMatched st = true -> provinceMatched st = true)
  /\ (districtExactMatch st || districtFuzzyMatch st = true ->
      cityMatched st = true /\ provinceMatched st = true).
Proof.
  unfold scoreCandidate.
  destruct (provinceStage_cases gn j oi initialLocals) as [-> | (w & m & ->)];
    [simpl; repeat split; (done || discriminate) |].
  cbn [provinceMatched contribute].
  set (st1 := contribute L_province w m initialLocals).
  destruct (cityStage_cases gn j oi st1) as [E | (w' & m' & E)]; rewrite E;
    [subst st1; simpl; repeat split; (done || discriminate) |].
  cbn [cityMatched contribute].
  set (st2 := contribute L_city w' m' st1).
  destruct (districtStage_cases gn j oi st2)
    as [-> | [(w'' & m'' & ->) | (w'' & m'' & ->)]];
    subst st2 st1; simpl; repeat split; (done || discriminate).
Qed.

Lemma scoreCandidates_omap gn j candidateInputs :
  scoreCandidates gn j candidateInputs = omap (candidateOf gn j) candidateInputs.
Proof.
  unfold scoreCandidates.
  enough (forall acc, fold_left (pushCandidate gn j) candidateInputs acc
                      = acc ++ omap (candidateOf gn j) candidateInputs) as H
    by apply (H []).
  induction candidateInputs as [|x l IH]; intros acc; simpl.
  - by rewrite app_nil_r.
  - rewrite IH. unfold pushCandidate, candidateOf.
    destruct (0 <? score (scoreCandidate gn j (snd x)))%float;
      [by rewrite <- app_assoc | done].
Qed.

Lemma elem_of_scoreCandidates gn j candidateInputs c :
  c ∈ scoreCandidates gn j candidateInputs
  <-> exists x, x ∈ candidateInputs /\ candidateOf gn j x = Some c.
Proof. rewrite scoreCandidates_omap. apply list_elem_of_omap. Qed.

Lemma candidateOf_Some gn j x c :
  candidateOf gn j x = Some c ->
  let st := scoreCandidate gn j (snd x) in
  (0 <? score st)%float = true
  /\ Cand.input c = x /\ Cand.score c = score st /\ Cand.method c = method st
  /\ Cand.districtExactMatch c = districtExactMatch st
  /\ Cand.districtFuzzyMatch c = districtFuzzyMatch st.
Proof.
  unfold candidateOf. cbv zeta.
  destruct (0 <? score (scoreCandidate gn j (snd x)))%float; [|discriminate].
  intros [= <-]. simpl. repeat split.
Qed.

Lemma truthy_false s : truthy s = false <-> s = [].
Proof. destruct s; simpl; split; congruence. Qed.

Ltac bool_facts :=
  repeat match goal with
  | H : _ && _ = true |- _ => apply andb_true_iff in H as [? ?]
  | H : _ && _ = false |- _ => apply andb_false_iff in H as [H | H]
  | H : truthy _ = true |- _ => apply truthy_true in H
  | H : truthy _ = false |- _ => apply truthy_false in H
  | H : str_eqb _ _ = true |- _ => apply str_eqb_eq in H
  | H : str_eqb _ _ = false |- _ => apply str_eqb_neq in H
  end.

(** What the flag [districtExactMatch] of a candidate means: the district
    block was reached, and the district matched by code, by name, or by
    normalised name. *)
Lemma districtExactMatch_iff gn j (operInput : OperAddressInput) :
  let st := scoreCandidate gn j operInput in
  districtExactMatch st = true
  <-> cityMatched st = true
      /\ ((区县编码 operInput <> [] /\ 区县编码 operInput = districtCode j)
          \/ (区县名称 operInput <> [] /\ 区县名称 operInput = districtName j)
          \/ (区县名称 operInput <> [] /\ gn (districtName j) <> []
              /\ gn (区县名称 operInput) = gn (districtName j))).
Proof.
  unfold scoreCandidate.
  destruct (provinceStage_cases gn j operInput initialLocals) as [-> | (w & m & ->)];
    [simpl; split; [discriminate | intros [? _]; discriminate] |].
  cbn [provinceMatched contribute].
  set (st1 := contribute L_province w m initialLocals).
  destruct (cityStage_cases gn j operInput st1) as [E | (w' & m' & E)]; rewrite E;
    [subst st1; simpl; split; [discriminate | intros [? _]; discriminate] |].
  cbn [cityMatched contribute].
  set (st2 := contribute L_city w' m' st1).
  assert (districtExactMatch st2 = false) as Hflag by reflexivity.
  assert (cityMatched st2 = true) as Hcity by reflexivity.
  clearbody st2. clear E.
  unfold districtStage. cbv zeta.
  repeat split_if; cbn [districtExactMatch cityMatched contribute];
    rewrite ?Hflag, ?Hcity; bool_facts;
    (split;
     [ intros Hm;
       first [ discriminate Hm
             | split; [reflexivity | first [tauto | intuition congruence]] ]
     | intros [_ Hm]; first [reflexivity | tauto | intuition congruence] ]).
Qed.

(** ** Selection of the best candidate *)

Lemma fold_pickBetter_spec rest first :
  (forall c, c ∈ first :: rest -> (0 <? Cand.score c)%float = true) ->
  let best := fold_left pickBetter rest first in
  best ∈ first :: rest
  /\ forall c, c ∈ first :: rest -> (Cand.score c <=? Cand.score best)%float = true.
Proof.
  revert first. induction rest as [|curr rest IH]; intros first Hpos; simpl.
  - split; [by left|]. intros c Hc. apply list_elem_of_singleton in Hc as ->.
    apply FloatOrder.leb_refl_pos, Hpos. by left.
  - assert (Hfirst : (0 <? Cand.score first)%float = true)
      by (apply Hpos; by left).
    assert (Hcurr : (0 <? Cand.score curr)%float = true)
      by (apply Hpos; right; by left).
    destruct (IH (pickBetter first curr)) as [Hin Hmax].
    { intros c Hc. apply elem_of_cons in Hc as [-> | Hc].
      - unfold pickBetter.
        by destruct (Cand.score first <? Cand.score curr)%float.
      - apply Hpos. by do 2 right. }
    split.
    + apply elem_of_cons in Hin as [-> | Hin]; [|by do 2 right].
      unfold pickBetter.
      destruct (Cand.score first <? Cand.score curr)%float;
        [right; by left | by left].
    + intros c Hc.
      assert (Hpick : (Cand.score (pickBetter first curr)
                       <=? Cand.score (fold_left pickBetter rest (pickBetter first curr)))%float
                      = true) by (apply Hmax; by left).
      apply elem_of_cons in Hc as [-> | Hc]; [|apply elem_of_cons in Hc as [-> | Hc]].
      * unfold pickBetter in *.
        destruct (Cand.score first <? Cand.score curr)%float eqn:E; [|done].
        eapply FloatOrder.leb_trans; [|exact Hpick]. by apply FloatOrder.ltb_leb.
      * unfold pickBetter in *.
        destruct (Cand.score first <? Cand.score curr)%float eqn:E; [done|].
        eapply FloatOrder.leb_trans; [|exact Hpick].
        by apply FloatOrder.leb_of_not_ltb.
      * apply Hmax. by right.
Qed.

Lemma reduce_pickBetter_spec (l : list Cand.t) :
  (forall c, c ∈ l -> (0 <? Cand.score c)%float = true) ->
  l <> [] ->
  exists best,
    reduce pickBetter l = Some best /\ best ∈ l
    /\ forall c, c ∈ l -> (Cand.score c <=? Cand.score best)%float = true.
Proof.
  intros Hpos Hne. destruct l as [|first rest]; [done|].
  exists (fold_left pickBetter rest first). split; [reflexivity|].
  by apply fold_pickBetter_spec.
Qed.

Lemma elem_of_filter_bool {A} (f : A -> bool) (l : list A) (x : A) :
  x ∈ List.filter f l <-> x ∈ l /\ f x = true.
Proof. rewrite !list_elem_of_In. apply filter_In. Qed.

Lemma length_pos_nonempty {A} (l : list A) : (0 <? length l) = true <-> l <> [].
Proof. destruct l; simpl; split; (done || discriminate || congruence). Qed.

(** What [selectBest] returns on a non-empty list of candidates that all
    score above zero. *)
Lemma selectBest_spec (candidates : list Cand.t) :
  (forall c, c ∈ candidates -> (0 <? Cand.score c)%float = true) ->
  candidates <> [] ->
  exists best,
    selectBest candidates = Some best /\ best ∈ candidates
    /\ ((exists c, c ∈ candidates /\ Cand.districtExactMatch c = true) ->
        Cand.districtExactMatch best = true
        /\ forall c, c ∈ candidates -> Cand.districtExactMatch c = true ->
             (Cand.score c <=? Cand.score best)%float = true)
    /\ ((forall c, c ∈ candidates -> Cand.districtExactMatch c = false) ->
        forall c, c ∈ candidates ->
          (Cand.score c <=? Cand.score best)%float = true).
Proof.
  intros Hpos Hne. unfold selectBest.
  set (exact := List.filter Cand.districtExactMatch candidates).
  destruct (0 <? length exact) eqn:Hex.
  - apply length_pos_nonempty in Hex.
    destruct (reduce_pickBetter_spec exact) as (best & Hred & Hin & Hmax); [|done|].
    { intros c Hc. apply elem_of_filter_bool in Hc as [Hc _]. by apply Hpos. }
    apply elem_of_filter_bool in Hin as [Hin Hflag].
    exists best. repeat split; try done.
    + intros c Hc Hcflag. apply Hmax. by apply elem_of_filter_bool.
    + intros Hnone. rewrite (Hnone best Hin) in Hflag. discriminate.
  - assert (exact = []) as Hnil.
    { destruct exact; [done | discriminate]. }
    assert ((0 <? length candidates) = true) as -> by by apply length_pos_nonempty.
    destruct (reduce_pickBetter_spec candidates Hpos Hne) as (best & Hred & Hin & Hmax).
    exists best. repeat split; try done.
    + destruct H as (c & Hc & Hcflag).
      assert (c ∈ exact) as Hcex by by apply elem_of_filter_bool.
      rewrite Hnil in Hcex. by apply elem_of_nil in Hcex.
    + destruct H as (c & Hc & Hcflag).
      assert (c ∈ exact) as Hcex by by apply elem_of_filter_bool.
      rewrite Hnil in Hcex. by apply elem_of_nil in Hcex.
Qed.

Lemma scoreCandidates_positive gn j candidateInputs c :
  c ∈ scoreCandidates gn j candidateInputs -> (0 <? Cand.score c)%float = true.
Proof.
  intros Hc. apply elem_of_scoreCandidates in Hc as (x & _ & Hx).
  apply candidateOf_Some in Hx as (Hpos & _ & -> & _). exact Hpos.
Qed.

Lemma selectBest_elem candidates best :
  selectBest candidates = Some best -> best ∈ candidates.
Proof.
  unfold selectBest. intros H.
  assert (forall l b, reduce pickBetter l = Some b -> b ∈ l) as Hred.
  { intros [|first rest] b; [discriminate|]. intros [= <-].
    revert first. induction rest as [|curr rest IH]; intros first; simpl.
    - by left.
    - specialize (IH (pickBetter first curr)).
      apply elem_of_cons in IH as [-> | IH]; [|by do 2 right].
      unfold pickBetter.
      destruct (Cand.score first <? Cand.score curr)%float;
        [right; by left | by left]. }
  destruct (0 <? length (List.filter Cand.districtExactMatch candidates)).
  - apply Hred in H. by apply elem_of_filter_bool in H as [? _].
  - destruct (0 <? length candidates); [by apply Hred | discriminate].
Qed.

(** The two rows of [Fixtures]: the row matched by both parent codes scores
    0.975 with a contained district name, the other 0.9375 with the
    district name itself, and the latter is returned. *)
Example selection_example :
  let r := matchOperAddressFromJunboOptimized getNormalized Fixtures.tianshan
             [Fixtures.rowByCodes; Fixtures.rowByNames] in
  map Cand.score
      (scoreCandidates getNormalized Fixtures.tianshan
         [Fixtures.rowByCodes; Fixtures.rowByNames])
    = [0.975; 0.9375]%float
  /\ map Cand.districtExactMatch
      (scoreCandidates getNormalized Fixtures.tianshan
         [Fixtures.rowByCodes; Fixtures.rowByNames])
    = [false; true]
  /\ Res.matched r = Some Fixtures.rowByNames
  /\ Res.matchScore r = 0.9375%float.
Proof. vm_compute. repeat split; reflexivity. Qed.

(** ** Acceptance thresholds of the similarity scorer *)

Lemma code_differs (code ref : jsstring) :
  code = [] \/ code <> ref -> truthy code && str_eqb code ref = false.
Proof.
  intros [-> | H]; [reflexivity|].
  apply str_eqb_neq in H. rewrite H. apply andb_false_r.
Qed.

Lemma name_differs (name ref : jsstring) :
  name <> ref -> truthy name && str_eqb name ref = false.
Proof. intros H. apply code_differs. by right. Qed.

Lemma both_truthy (a b : jsstring) :
  a <> [] -> b <> [] -> truthy a && truthy b = true.
Proof. intros Ha Hb. apply truthy_true in Ha, Hb. by rewrite Ha, Hb. Qed.

Lemma not_includes (s t : jsstring) :
  ~ substring_of t s -> includes s t = false.
Proof.
  intros H. apply not_true_is_false. intros Hi. by apply includes_substring in Hi.
Qed.

(** C5, as stated, fails: the city 乌鲁木奇市 of the row against 乌鲁木齐市 of
    the catalog is decided by the similarity scorer, which returns 0.75;
    that is below 0.8, and the city level is accepted all the same and
    adds 0.25 * 0.75 to the score.  The province level behaves alike:
    Sinkiang against Xinjiang has similarity 0.75 and is accepted. *)
Lemma city_threshold_counterexample :
  let operInput := snd Fixtures.rowByNames in
  let normalizedOper := getNormalized (地市名称 operInput) in
  let normalizedJunbo := getNormalized (cityName Fixtures.tianshan) in
  let st := provinceStage getNormalized Fixtures.tianshan operInput initialLocals in
  let st' :=
    provinceStage getNormalized Fixtures.xinjiangLatin Fixtures.rowSinkiang
      initialLocals in
  (地市编码 operInput = []
   /\ str_eqb normalizedOper normalizedJunbo = false
   /\ includes normalizedOper normalizedJunbo
      || includes normalizedJunbo normalizedOper = false
   /\ similarity normalizedOper normalizedJunbo = 0.75%float
   /\ (0.8 <=? similarity normalizedOper normalizedJunbo)%float = false
   /\ cityMatched (cityStage getNormalized Fixtures.tianshan operInput st) = true
   /\ score st = 0.25%float
   /\ score (cityStage getNormalized Fixtures.tianshan operInput st)
      = 0.4375%float)
  /\ (similarity (getNormalized (lit "Sinkiang")) (getNormalized (lit "Xinjiang"))
      = 0.75%float
      /\ provinceMatched st' = true
      /\ score st' = 0.1875%float).
Proof. vm_compute. repeat split; reflexivity. Qed.

(** C5, amended: when a level of the reverse batch matcher is decided by
    the similarity scorer (no code match, no equal name, unequal non-empty
    normal forms and, for city and district, no containment), the level is
    accepted exactly when the similarity is at least 0.7 for the province,
    0.7 for the city and 0.85 for the district; below that the variables
    are left untouched. *)
Theorem fuzzy_thresholds
    (getNormalized : jsstring -> jsstring) (junboAddress : JunboEntry)
    (operInput : OperAddressInput) (st : Locals) :
  (let normalizedOper := getNormalized (省份名称 operInput) in
   let normalizedJunbo := getNormalized (provinceName junboAddress) in
   省份编码 operInput = [] \/ 省份编码 operInput <> provinceCode junboAddress ->
   省份名称 operInput <> [] ->
   省份名称 operInput <> provinceName junboAddress ->
   normalizedOper <> [] -> normalizedJunbo <> [] ->
   normalizedOper <> normalizedJunbo ->
   provinceStage getNormalized junboAddress operInput st =
     if (0.7 <=? similarity normalizedOper normalizedJunbo)%float
     then contribute L_province
            (0.25 * similarity normalizedOper normalizedJunbo)%float
            (methodIf m_none m_fuzzy (method st)) st
     else st)
  /\ (let normalizedOper := getNormalized (地市名称 operInput) in
      let normalizedJunbo := getNormalized (cityName junboAddress) in
      地市编码 operInput = [] \/ 地市编码 operInput <> cityCode junboAddress ->
      地市名称 operInput <> [] ->
      地市名称 operInput <> cityName junboAddress ->
      normalizedOper <> [] -> normalizedJunbo <> [] ->
      normalizedOper <> normalizedJunbo ->
      ~ substring_of normalizedJunbo normalizedOper ->
      ~ substring_of normalizedOper normalizedJunbo ->
      cityStage getNormalized junboAddress operInput st =
        if (0.7 <=? similarity normalizedOper normalizedJunbo)%float
        then contribute L_city
               (0.25 * similarity normalizedOper normalizedJunbo)%float
               (methodIf m_fuzzy m_fuzzy (method st)) st
        else st)
  /\ (let normalizedOper := getNormalized (区县名称 operInput) in
      let normalizedJunbo := getNormalized (districtName junboAddress) in
      let operWithoutSuffix := replaceLastIn (lit "镇区县") normalizedOper in
      let junboWithoutSuffix := replaceLastIn (lit "镇区县") normalizedJunbo in
      区县编码 operInput = [] \/ 区县编码 operInput <> districtCode junboAddress ->
      区县名称 operInput <> [] ->
      区县名称 operInput <> districtName junboAddress ->
      normalizedOper <> [] -> normalizedJunbo <> [] ->
      normalizedOper <> normalizedJunbo ->
      operWithoutSuffix <> junboWithoutSuffix ->
      operWithoutSuffix = [] \/ junboWithoutSuffix = []
        \/ (~ substring_of junboWithoutSuffix operWithoutSuffix
            /\ ~ substring_of operWithoutSuffix junboWithoutSuffix) ->
      districtStage getNormalized junboAddress operInput st =
        if (0.85 <=? similarity normalizedOper normalizedJunbo)%float
        then contribute L_districtFuzzy
               (0.5 * similarity normalizedOper normalizedJunbo)%float
               (methodIf m_fuzzy m_fuzzy (method st)) st
        else st).
Proof.
  split; [|split].
  - intros nO nJ Hcode Hname Hneq HnO HnJ Hn.
    unfold provinceStage. cbv zeta. fold nO nJ.
    rewrite (code_differs _ _ Hcode), (name_differs _ _ Hneq).
    rewrite (both_truthy _ _ Hname HnJ), (both_truthy _ _ HnO HnJ).
    apply str_eqb_neq in Hn. by rewrite Hn.
  - intros nO nJ Hcode Hname Hneq HnO HnJ Hn Hsub1 Hsub2.
    unfold cityStage. cbv zeta. fold nO nJ.
    rewrite (code_differs _ _ Hcode), (name_differs _ _ Hneq).
    rewrite (both_truthy _ _ Hname HnJ), (both_truthy _ _ HnO HnJ).
    apply str_eqb_neq in Hn. rewrite Hn.
    by rewrite (not_includes _ _ Hsub1), (not_includes _ _ Hsub2).
  - intros nO nJ oW jW Hcode Hname Hneq HnO HnJ Hn Hw Hsub.
    unfold districtStage. cbv zeta. fold nO nJ. fold oW jW.
    rewrite (code_differs _ _ Hcode), (name_differs _ _ Hneq).
    rewrite (both_truthy _ _ Hname HnJ), (both_truthy _ _ HnO HnJ).
    apply str_eqb_neq in Hn, Hw. rewrite Hn, Hw.
    assert ((0 <? length oW) && (0 <? length jW)
            && (includes oW jW || includes jW oW) = false) as ->; [|done].
    destruct Hsub as [-> | [-> | [H1 H2]]].
    + reflexivity.
    + cbn [length Nat.ltb Nat.leb]. by rewrite andb_false_r.
    + rewrite (not_includes _ _ H1), (not_includes _ _ H2). apply andb_false_r.
Qed.

Lemma fuzzy_thresholds_witness :
  let operInput := snd Fixtures.rowByNames in
  let st := provinceStage getNormalized Fixtures.tianshan operInput initialLocals in
  cityStage getNormalized Fixtures.tianshan operInput st =
    if (0.7 <=? similarity (getNormalized (地市名称 operInput))
                  (getNormalized (cityName Fixtures.tianshan)))%float
    then contribute L_city
           (0.25 * similarity (getNormalized (地市名称 operInput))
                     (getNormalized (cityName Fixtures.tianshan)))%float
           (methodIf m_fuzzy m_fuzzy (method st)) st
    else st.
Proof.
  intros operInput st.
  refine (proj1 (proj2 (fuzzy_thresholds getNormalized Fixtures.tianshan
                          operInput st)) _ _ _ _ _ _ _ _).
  - left. reflexivity.
  - vm_compute. discriminate.
  - vm_compute. discriminate.
  - vm_compute. discriminate.
  - vm_compute. discriminate.
  - vm_compute. discriminate.
  - rewrite <- includes_substring. vm_compute. discriminate.
  - rewrite <- includes_substring. vm_compute. discriminate.
Defined.

(** ** The memoising closure *)

Lemma cacheSound_empty : cacheSound ∅.
Proof. intros name normalized H. by rewrite lookup_empty in H. Qed.

(** The closure returns what [getNormalized] returns and keeps its cache
    sound, so its calls can be read as calls of [getNormalized]. *)
Lemma getNormalizedCached_sound (normalizedCache : gmap jsstring jsstring) name :
  cacheSound normalizedCache ->
  fst (getNormalizedCached normalizedCache name) = getNormalized name
  /\ cacheSound (snd (getNormalizedCached normalizedCache name)).
Proof.
  intros Hc. unfold getNormalizedCached, getNormalized.
  destruct (negb (truthy name)); [done|].
  destruct (normalizedCache !! name) as [v|] eqn:E; simpl.
  - split; [by apply Hc | done].
  - split; [done|]. intros k v Hk.
    destruct (decide (name = k)) as [<- | Hne].
    + rewrite lookup_insert_eq in Hk. by injection Hk as <-.
    + rewrite lookup_insert_ne in Hk by done. by apply Hc.
Qed.

Lemma callsOfClosure_pure (normalizedCache : gmap jsstring jsstring) names :
  cacheSound normalizedCache ->
  callsOfClosure normalizedCache names = map getNormalized names.
Proof.
  revert normalizedCache. induction names as [|name names IH]; intros c Hc; [done|].
  destruct (getNormalizedCached_sound c name Hc) as [Hv Hc'].
  cbn [callsOfClosure map]. by rewrite Hv, IH.
Qed.

(** ** Chunked processing *)

Lemma processBatches_map {A B} (f : A -> B) batchSize (all : list A) fuel i results :
  1 <= batchSize -> length all <= i + fuel ->
  processBatches f batchSize all fuel i results = results ++ map f (drop i all).
Proof.
  intros Hb. revert i results. induction fuel as [|fuel IH]; intros i results Hlen; simpl.
  - rewrite drop_ge by lia. by rewrite app_nil_r.
  - destruct (i <? length all) eqn:E.
    + rewrite IH by lia. unfold slice.
      replace (i + batchSize - i) with batchSize by lia.
      rewrite <- app_assoc, <- map_app. do 2 f_equal.
      rewrite <- (take_drop batchSize (drop i all)) at 2.
      by rewrite drop_drop.
    + apply Nat.ltb_ge in E. rewrite drop_ge by lia. by rewrite app_nil_r.
Qed.

Lemma processBatches_all {A B} (f : A -> B) batchSize (all : list A) :
  1 <= batchSize ->
  processBatches f batchSize all (length all) 0 [] = map f all.
Proof. intros Hb. by rewrite processBatches_map by (done || lia). Qed.

(** ** Sorting *)

Lemma insertSorted_perm {A} (compare : A -> A -> Z) x (l : list A) :
  insertSorted compare x l ≡ₚ x :: l.
Proof.
  induction l as [|y l IH]; simpl; [done|].
  destruct (compare x y <? 0)%Z; [done|].
  rewrite IH. apply Permutation_swap.
Qed.

Lemma Array_sort_perm {A} (compare : A -> A -> Z) (arr : list A) :
  Array_sort compare arr ≡ₚ arr.
Proof.
  unfold Array_sort.
  enough (forall acc, fold_left (fun sorted x => insertSorted compare x sorted) arr acc
                      ≡ₚ acc ++ arr) as H by apply (H []).
  induction arr as [|x arr IH]; intros acc; simpl.
  - by rewrite app_nil_r.
  - rewrite IH, insertSorted_perm. simpl. apply Permutation_middle.
Qed.

Section SortedOutput.

Context {A : Type} (compare : A -> A -> Z).
Hypothesis compare_total : forall a b, (compare a b < 0)%Z \/ (compare b a <= 0)%Z.
Hypothesis compare_trans :
  forall a b c, (compare a b <= 0)%Z -> (compare b c <= 0)%Z -> (compare a c <= 0)%Z.

Lemma insertSorted_sorted x (l : list A) :
  StronglySorted (fun a b => (compare a b <= 0)%Z) l ->
  StronglySorted (fun a b => (compare a b <= 0)%Z) (insertSorted compare x l).
Proof using compare_total compare_trans.
  induction 1 as [|y l Hs IH Hy]; simpl.
  - repeat constructor.
  - destruct (compare x y <? 0)%Z eqn:E.
    + apply Z.ltb_lt in E. constructor; [by constructor|].
      constructor; [lia|].
      eapply Forall_impl; [exact Hy|]. intros z Hz. simpl in Hz.
      apply (compare_trans x y z); [lia | done].
    + apply Z.ltb_ge in E. constructor; [done|].
      rewrite insertSorted_perm. constructor; [|done].
      destruct (compare_total x y); lia.
Qed.

Lemma Array_sort_sorted (arr : list A) :
  StronglySorted (fun a b => (compare a b <= 0)%Z) (Array_sort compare arr).
Proof using compare_total compare_trans.
  unfold Array_sort.
  enough (forall acc, StronglySorted (fun a b => (compare a b <= 0)%Z) acc ->
            StronglySorted (fun a b => (compare a b <= 0)%Z)
              (fold_left (fun sorted x => insertSorted compare x sorted) arr acc))
    as H by (apply H; constructor).
  induction arr as [|x arr IH]; intros acc Hacc; simpl; [done|].
  by apply IH, insertSorted_sorted.
Qed.

End SortedOutput.

(** ** Catalog walk *)

(** The entries of the walk are the triples of string-valued properties
    found by following the codes three levels down from ["0000"]; a
    property whose value is not a string, and everything below it, is
    skipped. *)
Lemma walkCatalog_spec (data : JunboAddressData) (e : JunboEntry) :
  e ∈ walkCatalog data
  <-> (provinceCode e, JString (provinceName e)) ∈ entriesOf data (lit "0000")
      /\ (cityCode e, JString (cityName e)) ∈ entriesOf data (provinceCode e)
      /\ (districtCode e, JString (districtName e)) ∈ entriesOf data (cityCode e).
Proof.
  rewrite !list_elem_of_In. unfold walkCatalog. rewrite in_flat_map. split.
  - intros ([pc pv] & Hp & H). simpl in H. destruct pv as [pn|]; [|done].
    apply in_flat_map in H as ([cc cv] & Hc & H). simpl in H.
    destruct cv as [cn|]; [|done].
    apply in_flat_map in H as ([dc dv] & Hd & H). simpl in H.
    destruct dv as [dn|]; [|done].
    destruct H as [<- | []]. simpl. done.
  - intros (Hp & Hc & Hd). destruct e as [pc pn cc cn dc dn]. simpl in *.
    exists (pc, JString pn). split; [done|]. simpl.
    apply in_flat_map. exists (cc, JString cn). split; [done|]. simpl.
    apply in_flat_map. exists (dc, JString dn). split; [done|]. simpl.
    by left.
Qed.

(** ** [batchMatch] as a sort of the per-entry results *)

Lemma batchMatchWith_fresh lc batchSize data operInputs :
  1 <= batchSize ->
  batchMatchWith lc batchSize (newAddressMatcher data) operInputs
  = (Array_sort (compareResults lc)
       (map (matchSingleJunboAddress getNormalized
               (buildIndexes getNormalized operInputs))
            (walkCatalog data)),
     {| addressData := data; cachedJunboAddresses := Some (walkCatalog data) |}).
Proof.
  intros Hb. unfold batchMatchWith, generateAllJunboAddresses, newAddressMatcher.
  cbn [cachedJunboAddresses addressData].
  by rewrite processBatches_all.
Qed.

Lemma batchMatchWith_warm lc batchSize data operInputs :
  1 <= batchSize ->
  batchMatchWith lc batchSize
    {| addressData := data; cachedJunboAddresses := Some (walkCatalog data) |}
    operInputs
  = (Array_sort (compareResults lc)
       (map (matchSingleJunboAddress getNormalized
               (buildIndexes getNormalized operInputs))
            (walkCatalog data)),
     {| addressData := data; cachedJunboAddresses := Some (walkCatalog data) |}).
Proof.
  intros Hb. unfold batchMatchWith, generateAllJunboAddresses.
  cbn [cachedJunboAddresses addressData].
  by rewrite processBatches_all.
Qed.

Lemma batchMatch_perm lc data operInputs :
  fst (batchMatch lc (newAddressMatcher data) operInputs)
  ≡ₚ map (matchSingleJunboAddress getNormalized
            (buildIndexes getNormalized operInputs))
         (walkCatalog data).
Proof.
  unfold batchMatch. rewrite batchMatchWith_fresh by lia. apply Array_sort_perm.
Qed.

Lemma batchMatch_elem lc data operInputs (junboAddress : JunboEntry) :
  junboAddress ∈ walkCatalog data ->
  matchSingleJunboAddress getNormalized (buildIndexes getNormalized operInputs)
    junboAddress
  ∈ fst (batchMatch lc (newAddressMatcher data) operInputs).
Proof.
  intros Hj. rewrite batchMatch_perm. by apply list_elem_of_fmap_2.
Qed.

Lemma resultNames_matchSingle gn ix (junboAddress : JunboEntry) :
  resultNames (matchSingleJunboAddress gn ix junboAddress) = entryNames junboAddress.
Proof. reflexivity. Qed.

(** C2: [batchMatch] returns one record per entry of the three-level walk
    of the catalog: as many records as entries, the reference names of the
    records are those of the entries up to order, and each record is the
    result of [matchSingleJunboAddress] on one entry.  The entries of the
    walk are exactly the leaves reached through string-valued
    properties. *)
Theorem batchMatch_complete
    (localeCompare : jsstring -> jsstring -> Z) (data : JunboAddressData)
    (operInputs : list OperAddressInput) :
  let results := fst (batchMatch localeCompare (newAddressMatcher data) operInputs) in
  length results = length (walkCatalog data)
  /\ map resultNames results ≡ₚ map entryNames (walkCatalog data)
  /\ results ≡ₚ map (matchSingleJunboAddress getNormalized
                       (buildIndexes getNormalized operInputs))
                    (walkCatalog data)
  /\ (forall e : JunboEntry,
        e ∈ walkCatalog data
        <-> (provinceCode e, JString (provinceName e)) ∈ entriesOf data (lit "0000")
            /\ (cityCode e, JString (cityName e)) ∈ entriesOf data (provinceCode e)
            /\ (districtCode e, JString (districtName e))
               ∈ entriesOf data (cityCode e)).
Proof.
  intros results. pose proof (batchMatch_perm localeCompare data operInputs) as Hp.
  fold results in Hp. split; [|split; [|split]].
  - rewrite Hp. apply length_map.
  - rewrite Hp, map_map.
    rewrite (map_ext _ entryNames); [done|].
    intros e. apply resultNames_matchSingle.
  - exact Hp.
  - intros e. apply walkCatalog_spec.
Qed.

(** ** The full-code index *)

Lemma indexInput_code_mono gn ix x (k : jsstring) :
  is_Some (operInputsByCode ix !! k) ->
  is_Some (operInputsByCode (indexInput gn ix x) !! k).
Proof.
  intros H. unfold indexInput. cbn [operInputsByCode].
  destruct (_ && _); [|done].
  rewrite lookup_insert. by case_decide.
Qed.

Lemma fold_indexInput_code_mono gn l ix (k : jsstring) :
  is_Some (operInputsByCode ix !! k) ->
  is_Some (operInputsByCode (fold_left (indexInput gn) l ix) !! k).
Proof.
  revert ix. induction l as [|x l IH]; intros ix H; simpl; [done|].
  by apply IH, indexInput_code_mono.
Qed.

Lemma indexInput_code_hit gn ix (x : InputRef) :
  省份编码 (snd x) <> [] -> 地市编码 (snd x) <> [] -> 区县编码 (snd x) <> [] ->
  is_Some (operInputsByCode (indexInput gn ix x)
           !! join3 (省份编码 (snd x)) (地市编码 (snd x)) (区县编码 (snd x))).
Proof.
  intros Hp Hc Hd. unfold indexInput. cbn [operInputsByCode].
  apply truthy_true in Hp, Hc, Hd. rewrite Hp, Hc, Hd. simpl.
  rewrite lookup_insert_eq. by eexists.
Qed.

Lemma fold_indexInput_code_hit gn l ix (x : InputRef) :
  x ∈ l ->
  省份编码 (snd x) <> [] -> 地市编码 (snd x) <> [] -> 区县编码 (snd x) <> [] ->
  is_Some (operInputsByCode (fold_left (indexInput gn) l ix)
           !! join3 (省份编码 (snd x)) (地市编码 (snd x)) (区县编码 (snd x))).
Proof.
  intros Hx Hp Hc Hd. revert ix.
  induction Hx as [x l | x y l Hx IH]; intros ix; simpl.
  - by apply fold_indexInput_code_mono, indexInput_code_hit.
  - by apply IH.
Qed.

Lemma inputRefs_elem (operInputs : list OperAddressInput) operInput :
  operInput ∈ operInputs -> exists i, (i, operInput) ∈ inputRefs operInputs.
Proof.
  unfold inputRefs. generalize 0 as start.
  induction operInputs as [|y l IH]; intros start H; [by apply elem_of_nil in H|].
  apply elem_of_cons in H as [-> | H]; simpl.
  - exists start. by left.
  - destruct (IH (S start) H) as [i Hi]. exists i. by right.
Qed.

Lemma buildIndexes_code_hit gn (operInputs : list OperAddressInput) operInput :
  operInput ∈ operInputs ->
  省份编码 operInput <> [] -> 地市编码 operInput <> [] -> 区县编码 operInput <> [] ->
  is_Some (operInputsByCode (buildIndexes gn operInputs)
           !! join3 (省份编码 operInput) (地市编码 operInput) (区县编码 operInput)).
Proof.
  intros Hin Hp Hc Hd. apply inputRefs_elem in Hin as [i Hi].
  by apply (fold_indexInput_code_hit gn _ emptyIndexes (i, operInput)).
Qed.

(** C1, as stated, fails when a code of the tuple is empty: the district of
    this catalog is stored under the empty code, the row carries exactly
    the codes 11 / 1101 / (empty), and the record returned for the entry
    has score 0.5 and confidence low.  Rows with an empty code are not
    entered in the full-code index. *)
Lemma code_match_blank_code_counterexample :
  walkCatalog Fixtures.catalogBlankCode = [Fixtures.dongcheng]
  /\ 省份编码 Fixtures.rowBlankCode = provinceCode Fixtures.dongcheng
  /\ 地市编码 Fixtures.rowBlankCode = cityCode Fixtures.dongcheng
  /\ 区县编码 Fixtures.rowBlankCode = districtCode Fixtures.dongcheng
  /\ map (fun r => (resultNames r, match_score (output r),
                    match_method (output r), confidence (output r)))
       (fst (batchMatch Fixtures.codeUnitCompare
               (newAddressMatcher Fixtures.catalogBlankCode)
               [Fixtures.rowBlankCode]))
     = [(entryNames Fixtures.dongcheng, 0.5%float, m_code, c_low)].
Proof. vm_compute. repeat split; reflexivity. Qed.

(** C1, amended: when the three codes of an entry of the walk are all
    non-empty and some input row carries the same three codes, the record
    that [batchMatch] returns for that entry has score 1.0, method [code]
    and confidence [high]. *)
Theorem code_match_supremacy
    (localeCompare : jsstring -> jsstring -> Z) (data : JunboAddressData)
    (operInputs : list OperAddressInput)
    (junboAddress : JunboEntry) (operInput : OperAddressInput) :
  let r := matchSingleJunboAddress getNormalized
             (buildIndexes getNormalized operInputs) junboAddress in
  junboAddress ∈ walkCatalog data ->
  operInput ∈ operInputs ->
  省份编码 operInput = provinceCode junboAddress ->
  地市编码 operInput = cityCode junboAddress ->
  区县编码 operInput = districtCode junboAddress ->
  provinceCode junboAddress <> [] ->
  cityCode junboAddress <> [] ->
  districtCode junboAddress <> [] ->
  r ∈ fst (batchMatch localeCompare (newAddressMatcher data) operInputs)
  /\ resultNames r = entryNames junboAddress
  /\ match_score (output r) = 1.0%float
  /\ match_method (output r) = m_code
  /\ confidence (output r) = c_high.
Proof.
  intros r Hj Hin Ep Ec Ed Hp Hc Hd.
  split; [by apply batchMatch_elem|]. split; [reflexivity|].
  destruct (buildIndexes_code_hit getNormalized operInputs operInput Hin)
    as [exactMatch Hhit]; [congruence..|].
  rewrite Ep, Ec, Ed in Hhit.
  subst r. unfold matchSingleJunboAddress. cbv zeta. rewrite Hhit.
  cbn [output match_score match_method confidence
       Res.matchScore Res.matchMethod Res.confidence].
  done.
Qed.

Lemma code_match_supremacy_witness :
  let r := matchSingleJunboAddress getNormalized
             (buildIndexes getNormalized Fixtures.rows)
             Fixtures.siming in
  r ∈ fst (batchMatch Fixtures.codeUnitCompare
             (newAddressMatcher Fixtures.catalog) Fixtures.rows)
  /\ resultNames r
     = entryNames Fixtures.siming
  /\ match_score (output r) = 1.0%float
  /\ match_method (output r) = m_code
  /\ confidence (output r) = c_high.
Proof.
  refine (code_match_supremacy Fixtures.codeUnitCompare Fixtures.catalog
            Fixtures.rows
            Fixtures.siming
            (Fixtures.row "福建" "1001" "厦门" "2001" "思明" "3007")
            _ _ _ _ _ _ _ _).
  - apply list_elem_of_In. vm_compute. left. reflexivity.
  - apply list_elem_of_In. vm_compute. left. reflexivity.
  - vm_compute. reflexivity.
  - vm_compute. reflexivity.
  - vm_compute. reflexivity.
  - vm_compute. discriminate.
  - vm_compute. discriminate.
  - vm_compute. discriminate.
Defined.

(** ** No candidate above zero *)




(** ** Order of the output *)

Lemma orEmpty_id (s : jsstring) : orEmpty s = s.
Proof. by destruct s. Qed.

Lemma StronglySorted_weaken {A} (R S : A -> A -> Prop) (l : list A) :
  (forall a b, R a b -> S a b) -> StronglySorted R l -> StronglySorted S l.
Proof.
  intros HRS. induction 1 as [|x l Hs IH Hx]; constructor; [done|].
  eapply Forall_impl; [exact Hx | auto].
Qed.

Section OutputOrder.

Variable localeCompare : jsstring -> jsstring -> Z.

(** [localeCompare] is a consistent comparator: swapping the arguments
    flips the sign, and "not after" is transitive. *)
Hypothesis localeCompare_antisym :
  forall a b, (localeCompare a b < 0)%Z <-> (0 < localeCompare b a)%Z.
Hypothesis localeCompare_trans :
  forall a b c, (localeCompare a b <= 0)%Z -> (localeCompare b c <= 0)%Z ->
                (localeCompare a c <= 0)%Z.

Lemma compareResults_le (a b : AddressMatchResult) :
  (compareResults localeCompare a b <= 0)%Z
  <-> lexLe localeCompare (resultNames a) (resultNames b).
Proof.
  unfold compareResults, lexLe, resultNames. cbv zeta. rewrite !orEmpty_id. simpl.
  destruct (Z.eqb_spec (localeCompare (junbo_province_name (output a))
                          (junbo_province_name (output b))) 0) as [Ep|Ep]; simpl;
    [|lia].
  destruct (Z.eqb_spec (localeCompare (junbo_city_name (output a))
                          (junbo_city_name (output b))) 0) as [Ec|Ec]; simpl; lia.
Qed.

Lemma compareResults_lt (a b : AddressMatchResult) :
  (compareResults localeCompare a b < 0)%Z
  <-> (localeCompare (resultNames a).1.1 (resultNames b).1.1 < 0)%Z
      \/ (localeCompare (resultNames a).1.1 (resultNames b).1.1 = 0%Z
          /\ ((localeCompare (resultNames a).1.2 (resultNames b).1.2 < 0)%Z
              \/ (localeCompare (resultNames a).1.2 (resultNames b).1.2 = 0%Z
                  /\ (localeCompare (resultNames a).2 (resultNames b).2 < 0)%Z))).
Proof.
  unfold compareResults, resultNames. cbv zeta. rewrite !orEmpty_id. simpl.
  destruct (Z.eqb_spec (localeCompare (junbo_province_name (output a))
                          (junbo_province_name (output b))) 0) as [Ep|Ep]; simpl;
    [|lia].
  destruct (Z.eqb_spec (localeCompare (junbo_city_name (output a))
                          (junbo_city_name (output b))) 0) as [Ec|Ec]; simpl; lia.
Qed.

(** The facts about three names that the lexicographic argument uses. *)
Lemma localeCompare_facts (x y z : jsstring) :
  ((localeCompare x y < 0)%Z <-> (0 < localeCompare y x)%Z)
  /\ ((localeCompare y x < 0)%Z <-> (0 < localeCompare x y)%Z)
  /\ ((localeCompare x y <= 0)%Z -> (localeCompare y z <= 0)%Z ->
      (localeCompare x z <= 0)%Z)
  /\ ((localeCompare x y <= 0)%Z -> (localeCompare y z <= 0)%Z ->
      (localeCompare x z = 0)%Z ->
      (localeCompare x y = 0)%Z /\ (localeCompare y z = 0)%Z).
Proof using localeCompare_antisym localeCompare_trans.
  pose proof (localeCompare_antisym x y). pose proof (localeCompare_antisym y x).
  pose proof (localeCompare_antisym x z). pose proof (localeCompare_antisym z x).
  pose proof (localeCompare_antisym y z). pose proof (localeCompare_antisym z y).
  pose proof (localeCompare_trans x y z).
  pose proof (localeCompare_trans y z x). pose proof (localeCompare_trans z x y).
  repeat split; lia.
Qed.

Lemma compareResults_total (a b : AddressMatchResult) :
  (compareResults localeCompare a b < 0)%Z
  \/ (compareResults localeCompare b a <= 0)%Z.
Proof using localeCompare_antisym.
  rewrite compareResults_lt, compareResults_le. unfold lexLe.
  pose proof (localeCompare_antisym (resultNames a).1.1 (resultNames b).1.1).
  pose proof (localeCompare_antisym (resultNames b).1.1 (resultNames a).1.1).
  pose proof (localeCompare_antisym (resultNames a).1.2 (resultNames b).1.2).
  pose proof (localeCompare_antisym (resultNames b).1.2 (resultNames a).1.2).
  pose proof (localeCompare_antisym (resultNames a).2 (resultNames b).2).
  pose proof (localeCompare_antisym (resultNames b).2 (resultNames a).2).
  lia.
Qed.

Lemma compareResults_trans (a b c : AddressMatchResult) :
  (compareResults localeCompare a b <= 0)%Z ->
  (compareResults localeCompare b c <= 0)%Z ->
  (compareResults localeCompare a c <= 0)%Z.
Proof using localeCompare_antisym localeCompare_trans.
  rewrite !compareResults_le. unfold lexLe.
  pose proof (localeCompare_facts (resultNames a).1.1 (resultNames b).1.1
                (resultNames c).1.1) as (? & ? & ? & ?).
  pose proof (localeCompare_facts (resultNames a).1.2 (resultNames b).1.2
                (resultNames c).1.2) as (? & ? & ? & ?).
  pose proof (localeCompare_facts (resultNames a).2 (resultNames b).2
                (resultNames c).2) as (? & ? & ? & ?).
  lia.
Qed.

Lemma batchMatch_sorted data operInputs :
  StronglySorted
    (fun a b => lexLe localeCompare (resultNames a) (resultNames b))
    (fst (batchMatch localeCompare (newAddressMatcher data) operInputs)).
Proof using localeCompare_antisym localeCompare_trans.
  unfold batchMatch. rewrite batchMatchWith_fresh by lia. cbn [fst].
  eapply StronglySorted_weaken; [intros a b; apply compareResults_le|].
  apply Array_sort_sorted; [apply compareResults_total | apply compareResults_trans].
Qed.

End OutputOrder.

(** C7: for a fixed catalog and fixed rows, a second call of [batchMatch]
    on the same matcher (whose entry list is cached by then) returns the
    same list as the first, every chunk size of at least one (100 in
    [batchMatch], 200 in [batchMatchAsync]) gives that list too, and the
    list is ordered by reference province name, then city name, then
    district name, each compared with [localeCompare]. *)
Theorem batchMatch_deterministic_order
    (localeCompare : jsstring -> jsstring -> Z)
    (data : JunboAddressData) (operInputs : list OperAddressInput) :
  (forall a b, (localeCompare a b < 0)%Z <-> (0 < localeCompare b a)%Z) ->
  (forall a b c, (localeCompare a b <= 0)%Z -> (localeCompare b c <= 0)%Z ->
                 (localeCompare a c <= 0)%Z) ->
  let first := batchMatch localeCompare (newAddressMatcher data) operInputs in
  let second := batchMatch localeCompare (snd first) operInputs in
  fst second = fst first
  /\ (forall batchSize, 1 <= batchSize ->
        fst (batchMatchWith localeCompare batchSize (newAddressMatcher data)
               operInputs) = fst first)
  /\ fst (batchMatchAsync localeCompare (newAddressMatcher data) operInputs)
     = fst first
  /\ StronglySorted
       (fun a b => lexLe localeCompare (resultNames a) (resultNames b))
       (fst first).
Proof.
  intros Hanti Htrans first second.
  assert (Hfirst : first
    = (Array_sort (compareResults localeCompare)
         (map (matchSingleJunboAddress getNormalized
                 (buildIndexes getNormalized operInputs))
              (walkCatalog data)),
       {| addressData := data;
          cachedJunboAddresses := Some (walkCatalog data) |}))
    by (apply batchMatchWith_fresh; lia).
  split; [|split; [|split]].
  - subst second. rewrite Hfirst. cbn [snd fst].
    unfold batchMatch. by rewrite batchMatchWith_warm by lia.
  - intros batchSize Hb. rewrite Hfirst. by rewrite batchMatchWith_fresh.
  - rewrite Hfirst. unfold batchMatchAsync. by rewrite batchMatchWith_fresh by lia.
  - by apply batchMatch_sorted.
Qed.

Lemma codeUnitCompare_antisym (a b : jsstring) :
  (Fixtures.codeUnitCompare a b < 0)%Z <-> (0 < Fixtures.codeUnitCompare b a)%Z.
Proof.
  revert b. induction a as [|x a IH]; intros [|y b]; simpl; try lia.
  rewrite (N.compare_antisym x y).
  destruct (N.compare x y); simpl; [apply IH | lia | lia].
Qed.

Lemma codeUnitCompare_trans (a b c : jsstring) :
  (Fixtures.codeUnitCompare a b <= 0)%Z -> (Fixtures.codeUnitCompare b c <= 0)%Z ->
  (Fixtures.codeUnitCompare a c <= 0)%Z.
Proof.
  revert b c. induction a as [|x a IH]; intros [|y b] [|z c]; simpl; try lia.
  destruct (N.compare_spec x y), (N.compare_spec y z), (N.compare_spec x z);
    subst; try lia.
  apply IH.
Qed.

Lemma batchMatch_deterministic_order_witness :
  let first := batchMatch Fixtures.codeUnitCompare
                 (newAddressMatcher Fixtures.catalog) Fixtures.rows in
  let second := batchMatch Fixtures.codeUnitCompare (snd first) Fixtures.rows in
  fst second = fst first
  /\ fst (batchMatchAsync Fixtures.codeUnitCompare
            (newAddressMatcher Fixtures.catalog) Fixtures.rows) = fst first
  /\ StronglySorted
       (fun a b => lexLe Fixtures.codeUnitCompare (resultNames a) (resultNames b))
       (fst first).
Proof.
  destruct (batchMatch_deterministic_order Fixtures.codeUnitCompare
              Fixtures.catalog Fixtures.rows
              codeUnitCompare_antisym codeUnitCompare_trans)
    as (Hsecond & _ & Hasync & Hsorted).
  exact (conj Hsecond (conj Hasync Hsorted)).
Defined.

(** The order of the three records of the sample batch: 新疆… sorts before
    福建… by code units, and 思明区 before 湖里区. *)
Example batchMatch_order_example :
  map resultNames
    (fst (batchMatch Fixtures.codeUnitCompare
            (newAddressMatcher Fixtures.catalog) Fixtures.rows))
  = [ (lit "新疆维吾尔自治区", lit "乌鲁木齐市", lit "天山区");
      (lit "福建省", lit "厦门市", lit "思明区");
      (lit "福建省", lit "厦门市", lit "湖里区") ].
Proof. vm_compute. reflexivity. Qed.

(* ------------------------------------------------------------------ *)
(** * Further properties *)

(** ** Edit distance *)

Lemma editDistance_nil_r a : editDistance a [] = length a.
Proof. by destruct a. Qed.

Lemma editDistance_cons x a y b :
  editDistance (x :: a) (y :: b)
  = if N.eqb x y then editDistance a b
    else S (Nat.min (Nat.min (editDistance a (y :: b)) (editDistance (x :: a) b))
                    (editDistance a b)).
Proof. reflexivity. Qed.

Lemma editDistance_sym a b : editDistance a b = editDistance b a.
Proof.
  revert b. induction a as [|x a IHa]; intros b.
  - by rewrite editDistance_nil_r.
  - induction b as [|y b IHb]; [reflexivity|].
    rewrite !editDistance_cons, (N.eqb_sym y x).
    rewrite IHb, (IHa (y :: b)), (IHa b). destruct (N.eqb x y); lia.
Qed.

Lemma editDistance_refl a : editDistance a a = 0.
Proof.
  induction a as [|x a IH]; [reflexivity|].
  by rewrite editDistance_cons, N.eqb_refl.
Qed.

Lemma editDistance_zero a b : editDistance a b = 0 -> a = b.
Proof.
  revert b. induction a as [|x a IHa]; intros [|y b]; try (simpl; done).
  rewrite editDistance_cons. destruct (N.eqb_spec x y) as [->|]; [|discriminate].
  intros H. by rewrite (IHa b H).
Qed.

Lemma editDistance_bounds a b :
  length a - length b <= editDistance a b
  /\ length b - length a <= editDistance a b
  /\ editDistance a b <= Nat.max (length a) (length b).
Proof.
  revert b. induction a as [|x a IHa]; intros b.
  - simpl. lia.
  - induction b as [|y b IHb]; [simpl; lia|].
    rewrite editDistance_cons.
    pose proof (IHa (y :: b)). pose proof (IHa b).
    destruct (N.eqb x y); simpl length in *; lia.
Qed.

Lemma prefixesFrom_lengths t1 t2 :
  map (length (A:=char)) (prefixesFrom t1 t2) = seq (length t1) (S (length t2)).
Proof.
  revert t1. induction t2 as [|y t2 IH]; intros t1; [reflexivity|].
  cbn [prefixesFrom map length seq]. rewrite IH, length_app. simpl.
  by rewrite Nat.add_1_r.
Qed.

Lemma prefixesFrom_last t1 t2 d : List.last (prefixesFrom t1 t2) d = t1 ++ t2.
Proof.
  revert t1. induction t2 as [|y t2 IH]; intros t1.
  - simpl. by rewrite app_nil_r.
  - cbn [prefixesFrom]. destruct (prefixesFrom (t1 ++ [y]) t2) eqn:E.
    + by destruct t2.
    + rewrite <- E. change (List.last (t1 :: prefixesFrom (t1 ++ [y]) t2) d)
        with (match prefixesFrom (t1 ++ [y]) t2 with
              | [] => t1 | _ :: _ => List.last (prefixesFrom (t1 ++ [y]) t2) d end).
      rewrite E, <- E, IH. by rewrite <- app_assoc.
Qed.

(** The cells of row [i]: [prev] holds row [i-1] from the column of [t1]
    on and [left] is the cell of row [i] in that column. *)
Lemma levenshteinCells_spec (c : char) (a t1 t2 : jsstring) :
  levenshteinCells c t2
    (map (fun u => editDistance a (rev u)) (prefixesFrom t1 t2))
    (editDistance (c :: a) (rev t1))
  = map (fun u => editDistance (c :: a) (rev u)) (tail (prefixesFrom t1 t2)).
Proof.
  revert t1. induction t2 as [|y t2 IH]; intros t1; [reflexivity|].
  cbn [prefixesFrom map tail levenshteinCells].
  destruct (prefixesFrom (t1 ++ [y]) t2) as [|u us] eqn:E; [by destruct t2|].
  assert (u = t1 ++ [y]) as -> by (destruct t2; simpl in E; congruence).
  cbn [map].
  assert (Hv : (if N.eqb c y then editDistance a (rev t1)
                else Nat.min (Nat.min (editDistance a (rev (t1 ++ [y])) + 1)
                                      (editDistance (c :: a) (rev t1) + 1))
                             (editDistance a (rev t1) + 1))
               = editDistance (c :: a) (rev (t1 ++ [y]))).
  { rewrite rev_app_distr. cbn [rev app]. rewrite editDistance_cons.
    destruct (N.eqb c y); lia. }
  rewrite Hv. f_equal.
  specialize (IH (t1 ++ [y])). rewrite E in IH. cbn [map tail] in IH. exact IH.
Qed.

Lemma levenshteinRows_spec (str1 str2 : jsstring) :
  fold_left (levenshteinRow str2) str1 (0, seq 0 (S (length str2)))
  = (length str1,
     map (fun u => editDistance (rev str1) (rev u)) (prefixesFrom [] str2)).
Proof.
  induction str1 as [|c str1 IH] using rev_ind.
  - cbn [fold_left]. f_equal.
    change (seq 0 (S (length str2)))
      with (seq (length (A:=char) []) (S (length str2))).
    rewrite <- (prefixesFrom_lengths [] str2).
    apply map_ext. intros u. cbn [rev editDistance]. by rewrite length_rev.
  - rewrite fold_left_app, IH. cbn [fold_left]. unfold levenshteinRow. cbn [fst snd].
    rewrite length_app, Nat.add_1_r. f_equal.
    rewrite rev_app_distr. cbn [rev app].
    pose proof (levenshteinCells_spec c (rev str1) [] str2) as Hc.
    cbn [rev] in Hc. rewrite editDistance_nil_r in Hc. cbn [length] in Hc.
    rewrite length_rev in Hc. rewrite Hc.
    destruct str2; cbn [prefixesFrom map tail]; rewrite editDistance_nil_r;
      cbn [length]; by rewrite length_rev.
Qed.

Lemma last_map_nonempty {A B} (f : A -> B) (l : list A) d d' :
  l <> [] -> List.last (map f l) d = f (List.last l d').
Proof.
  induction l as [|u [|v l] IH]; intros Hne; [done | reflexivity |].
  change (List.last (map f (v :: l)) d = f (List.last (v :: l) d')).
  by apply IH.
Qed.

Lemma levenshteinDistance_editDistance (str1 str2 : jsstring) :
  levenshteinDistance str1 str2 = editDistance (rev str1) (rev str2).
Proof.
  unfold levenshteinDistance. cbv zeta. rewrite levenshteinRows_spec. cbn [snd].
  rewrite (last_map_nonempty _ _ 0 []) by by destruct str2.
  by rewrite prefixesFrom_last.
Qed.

Lemma levenshteinDistance_comm (str1 str2 : jsstring) :
  levenshteinDistance str1 str2 = levenshteinDistance str2 str1.
Proof. rewrite !levenshteinDistance_editDistance. apply editDistance_sym. Qed.

(** X1: [levenshteinDistance] obeys the edit-distance recurrence on the last
    characters: against the empty string it is the length of the other
    string; for equal last characters it is the distance of the strings
    without them, and otherwise one more than the least of the three
    distances obtained by dropping a last character on the left, on the
    right, or on both sides. *)
Theorem levenshteinDistance_recurrence :
  (forall t : jsstring, levenshteinDistance [] t = length t)
  /\ (forall s : jsstring, levenshteinDistance s [] = length s)
  /\ (forall (s t : jsstring) (x y : char),
        levenshteinDistance (s ++ [x]) (t ++ [y])
        = if N.eqb x y then levenshteinDistance s t
          else S (Nat.min (Nat.min (levenshteinDistance s (t ++ [y]))
                                   (levenshteinDistance (s ++ [x]) t))
                          (levenshteinDistance s t))).
Proof.
  split; [|split].
  - intros t. rewrite levenshteinDistance_editDistance. simpl. apply length_rev.
  - intros s. rewrite levenshteinDistance_editDistance. cbn [rev].
    rewrite editDistance_nil_r. apply length_rev.
  - intros s t x y. rewrite !levenshteinDistance_editDistance.
    rewrite !rev_app_distr. cbn [rev app]. apply editDistance_cons.
Qed.

(** X2: [levenshteinDistance] is symmetric, and it is zero exactly for
    equal strings. *)
Theorem levenshteinDistance_symmetric_zero (str1 str2 : jsstring) :
  levenshteinDistance str1 str2 = levenshteinDistance str2 str1
  /\ (levenshteinDistance str1 str2 = 0 <-> str1 = str2).
Proof.
  split; [apply levenshteinDistance_comm|].
  rewrite levenshteinDistance_editDistance. split.
  - intros H. apply editDistance_zero in H.
    by rewrite <- (rev_involutive str1), H, rev_involutive.
  - intros ->. apply editDistance_refl.
Qed.

(** X3: the distance is at least the difference of the two lengths and at
    most the greater length, so the quotient that [similarity] subtracts
    from 1 has a numerator no greater than its denominator. *)
Theorem levenshteinDistance_bounds (str1 str2 : jsstring) :
  length str1 - length str2 <= levenshteinDistance str1 str2
  /\ length str2 - length str1 <= levenshteinDistance str1 str2
  /\ levenshteinDistance str1 str2 <= Nat.max (length str1) (length str2).
Proof.
  rewrite levenshteinDistance_editDistance.
  pose proof (editDistance_bounds (rev str1) (rev str2)) as H.
  by rewrite !length_rev in H.
Qed.

(** ** Symmetry of the scorer *)

Lemma str_eqb_comm a b : str_eqb a b = str_eqb b a.
Proof.
  destruct (str_eqb a b) eqn:E; symmetry.
  - apply str_eqb_eq in E as ->. apply str_eqb_refl.
  - apply str_eqb_neq. apply str_eqb_neq in E. congruence.
Qed.

(** X4: [similarity] does not depend on the order of its arguments. *)
Theorem similarity_symmetric (str1 str2 : jsstring) :
  similarity str1 str2 = similarity str2 str1.
Proof.
  unfold similarity.
  rewrite (orb_comm (negb (truthy str2))), (str_eqb_comm str2 str1).
  rewrite (str_eqb_comm (normalizeName str2)).
  rewrite (orb_comm (includes (normalizeName str2) (normalizeName str1))).
  rewrite (orb_comm (startsWith (normalizeName str2) (normalizeName str1))).
  rewrite (Nat.min_comm (length (normalizeName str2))).
  rewrite (Nat.max_comm (length (normalizeName str2))).
  rewrite (Nat.max_comm (length str2)).
  by rewrite (levenshteinDistance_comm str2 str1).
Qed.

(** ** What normalisation keeps *)

Lemma replaceSuffix_prefix suf s : replaceSuffix suf s `prefix_of` s.
Proof.
  unfold replaceSuffix. destruct (endsWith s suf); [|done].
  apply prefix_take.
Qed.

Lemma stripSuffixes_prefix sufs s : stripSuffixes sufs s `prefix_of` s.
Proof.
  unfold stripSuffixes. revert s.
  induction sufs as [|suf sufs IH]; intros s; simpl; [done|].
  etransitivity; [apply IH | apply replaceSuffix_prefix].
Qed.

Lemma trimEnd_prefix s : trimEnd s `prefix_of` s.
Proof.
  unfold trimEnd. destruct (trimStart_suffix (rev s)) as [k Hk].
  exists (rev k). by rewrite <- rev_app_distr, <- Hk, rev_involutive.
Qed.

Lemma trim_substring s : substring_of (trim s) s.
Proof.
  unfold trim. destruct (trimEnd_prefix (trimStart s)) as [q Hq].
  destruct (trimStart_suffix s) as [p Hp].
  exists p, q. by rewrite <- Hq.
Qed.

(** X5: [normalizeName] only removes characters at the two ends: its result
    is a contiguous piece of the argument, no longer than it, and has no
    white space left at either end. *)
Theorem normalizeName_substring (name : jsstring) :
  substring_of (normalizeName name) name
  /\ length (normalizeName name) <= length name
  /\ trim (normalizeName name) = normalizeName name.
Proof.
  split; [|split; [apply normalizeName_length | apply normalizeName_trimmed]].
  unfold normalizeName. destruct (truthy name).
  - destruct (trim_substring (stripSuffixes suffixes name)) as (p & q & Ht).
    destruct (stripSuffixes_prefix suffixes name) as [k Hk].
    exists p, (q ++ k). rewrite Hk at 1. rewrite Ht at 1.
    by rewrite <- !app_assoc.
  - exists [], name. reflexivity.
Qed.

Lemma normalizeName_fixed_or_shorter y :
  trim y = y -> normalizeName y = y \/ length (normalizeName y) < length y.
Proof.
  intros Ht. destruct (endsWith_none_or_some y suffixes) as [H|H].
  - left. by apply normalizeName_fixed.
  - right. by apply normalizeName_shrinks.
Qed.

Lemma normalizeName_rounds (x : jsstring) (k : nat) :
  let y := Nat.iter (S k) normalizeName x in
  normalizeName y = y \/ length y + k <= length x.
Proof.
  induction k as [|k IH]; cbv zeta.
  - right. cbn [Nat.iter nat_rect]. pose proof (normalizeName_length x). lia.
  - cbv zeta in IH. change (Nat.iter (S (S k)) normalizeName x)
      with (normalizeName (Nat.iter (S k) normalizeName x)).
    set (y := Nat.iter (S k) normalizeName x) in *.
    destruct IH as [IH|IH]; [left; by rewrite !IH|].
    destruct (normalizeName_fixed_or_shorter y) as [Hf|Hs].
    + subst y. apply normalizeName_trimmed.
    + left. by rewrite !Hf.
    + right. lia.
Qed.

(** X6: repeated normalisation comes to rest: after more rounds than the
    name has characters the result is a fixed point of [normalizeName]. *)
Theorem normalizeName_converges (name : jsstring) (n : nat) :
  length name <= n ->
  let y := Nat.iter (S n) normalizeName name in
  normalizeName y = y.
Proof.
  intros Hn y. destruct (normalizeName_rounds name n) as [H|H]; [exact H|].
  fold y in H. assert (y = []) as -> by (destruct y; [done | simpl in H; lia]).
  reflexivity.
Qed.

Lemma normalizeName_converges_witness :
  Nat.iter 4 normalizeName (lit "沙市区") = lit "沙"
  /\ normalizeName (Nat.iter 4 normalizeName (lit "沙市区"))
     = Nat.iter 4 normalizeName (lit "沙市区").
Proof.
  split; [vm_compute; reflexivity|].
  apply (normalizeName_converges (lit "沙市区") 3). vm_compute. lia.
Defined.

(** ** The method field *)

Lemma provinceStage_initial gn j oi :
  (provinceStage gn j oi initialLocals = initialLocals
   /\ ~ (省份编码 oi <> [] /\ 省份编码 oi = provinceCode j))
  \/ exists w m,
       provinceStage gn j oi initialLocals = contribute L_province w m initialLocals
       /\ m <> m_none
       /\ (m = m_code <-> 省份编码 oi <> [] /\ 省份编码 oi = provinceCode j).
Proof.
  unfold provinceStage. cbv zeta. cbn [method initialLocals methodIf method_eqb].
  repeat split_if; bool_facts;
    first
      [ left; split; [reflexivity | intuition congruence]
      | right; eexists _, _; split; [reflexivity|];
        split; [discriminate | split; [try discriminate; intuition congruence
                                      | try done; intuition congruence]] ].
Qed.

Lemma methodIf_keeps m r (method : MatchMethod) :
  method <> m_none -> (m = m_none \/ m = r) -> methodIf m r method = method.
Proof. intros Hn [-> | ->]; unfold methodIf; destruct method, r; simpl; congruence. Qed.

Lemma cityStage_method gn j oi st :
  method st <> m_none -> method (cityStage gn j oi st) = method st.
Proof.
  intros Hn. unfold cityStage. cbv zeta.
  repeat split_if; cbn [method contribute]; try done;
    apply methodIf_keeps; auto.
Qed.

Lemma districtStage_method gn j oi st :
  method st <> m_none -> method (districtStage gn j oi st) = method st.
Proof.
  intros Hn. unfold districtStage. cbv zeta.
  repeat split_if; cbn [method contribute]; try done;
    apply methodIf_keeps; auto.
Qed.

(** X7: the method a candidate is scored with is fixed by the province
    level alone: later levels never change it.  It is [code] exactly when
    the row's province code is non-empty and equals the entry's, whatever
    matched at the city and district levels, and it is [none] exactly when
    the province did not match. *)
Theorem method_from_province
    (getNormalized : jsstring -> jsstring) (junboAddress : JunboEntry)
    (operInput : OperAddressInput) :
  let st := scoreCandidate getNormalized junboAddress operInput in
  method st = method (provinceStage getNormalized junboAddress operInput initialLocals)
  /\ (method st = m_code
      <-> 省份编码 operInput <> []
          /\ 省份编码 operInput = provinceCode junboAddress)
  /\ (method st = m_none <-> provinceMatched st = false).
Proof.
  unfold scoreCandidate.
  destruct (provinceStage_initial getNormalized junboAddress operInput)
    as [[-> Hno] | (w & m & -> & Hm & Hcode)].
  - cbn [provinceMatched initialLocals method].
    split; [reflexivity|]. split; [split; [discriminate | done] | done].
  - cbn [provinceMatched contribute].
    set (st1 := contribute L_province w m initialLocals).
    assert (method st1 = m) as Hst1 by reflexivity.
    assert (method st1 <> m_none) as Hn1 by by rewrite Hst1.
    destruct (cityMatched (cityStage getNormalized junboAddress operInput st1)) eqn:Ec.
    + rewrite districtStage_method by by rewrite cityStage_method.
      rewrite cityStage_method by done. rewrite Hst1.
      split; [reflexivity|]. split; [exact Hcode|].
      split; [done|].
      destruct (districtStage_cases getNormalized junboAddress operInput
                  (cityStage getNormalized junboAddress operInput st1))
        as [-> | [(? & ? & ->) | (? & ? & ->)]];
        destruct (cityStage_cases getNormalized junboAddress operInput st1)
          as [-> | (? & ? & ->)]; discriminate.
    + rewrite cityStage_method by done. rewrite Hst1.
      split; [reflexivity|]. split; [exact Hcode|].
      split; [done|].
      destruct (cityStage_cases getNormalized junboAddress operInput st1)
        as [-> | (? & ? & ->)]; discriminate.
Qed.

(** ** Full agreement *)

Lemma provinceStage_agrees gn j oi st :
  levelAgrees gn (省份编码 oi) (provinceCode j) (省份名称 oi) (provinceName j) ->
  exists m, provinceStage gn j oi st = contribute L_province 0.25 m st.
Proof.
  intros H. unfold provinceStage. cbv zeta.
  repeat split_if; try (eexists; reflexivity); exfalso; bool_facts;
    unfold levelAgrees in H; intuition congruence.
Qed.

Lemma cityStage_agrees gn j oi st :
  levelAgrees gn (地市编码 oi) (cityCode j) (地市名称 oi) (cityName j) ->
  exists m, cityStage gn j oi st = contribute L_city 0.25 m st.
Proof.
  intros H. unfold cityStage. cbv zeta.
  destruct (truthy (地市编码 oi) && str_eqb (地市编码 oi) (cityCode j)) eqn:E1;
    [eexists; reflexivity|].
  destruct (truthy (地市名称 oi) && str_eqb (地市名称 oi) (cityName j)) eqn:E2;
    [eexists; reflexivity|].
  destruct (truthy (地市名称 oi) && truthy (gn (cityName j))) eqn:E3.
  - destruct (str_eqb (gn (地市名称 oi)) (gn (cityName j))) eqn:E4;
      [eexists; reflexivity|].
    exfalso; bool_facts; unfold levelAgrees in H; intuition congruence.
  - exfalso; bool_facts; unfold levelAgrees in H; intuition congruence.
Qed.

Lemma districtStage_agrees gn j oi st :
  levelAgrees gn (区县编码 oi) (districtCode j) (区县名称 oi) (districtName j) ->
  exists m, districtStage gn j oi st = contribute L_districtExact 0.5 m st.
Proof.
  intros H. unfold districtStage. cbv zeta.
  destruct (truthy (区县编码 oi) && str_eqb (区县编码 oi) (districtCode j)) eqn:E1;
    [eexists; reflexivity|].
  destruct (truthy (区县名称 oi) && str_eqb (区县名称 oi) (districtName j)) eqn:E2;
    [eexists; reflexivity|].
  destruct (truthy (区县名称 oi) && truthy (gn (districtName j))) eqn:E3.
  - destruct (str_eqb (gn (区县名称 oi)) (gn (districtName j))) eqn:E4;
      [eexists; reflexivity|].
    exfalso; bool_facts; unfold levelAgrees in H; intuition congruence.
  - exfalso; bool_facts; unfold levelAgrees in H; intuition congruence.
Qed.

(** X8: a row that agrees with the entry at all three levels, each by
    code, by name or by normalised name, is scored exactly 1.0 with the
    district flagged as an exact match, which is confidence [high]. *)
Theorem full_agreement_scores_one
    (getNormalized : jsstring -> jsstring) (junboAddress : JunboEntry)
    (operInput : OperAddressInput) :
  levelAgrees getNormalized (省份编码 operInput) (provinceCode junboAddress)
    (省份名称 operInput) (provinceName junboAddress) ->
  levelAgrees getNormalized (地市编码 operInput) (cityCode junboAddress)
    (地市名称 operInput) (cityName junboAddress) ->
  levelAgrees getNormalized (区县编码 operInput) (districtCode junboAddress)
    (区县名称 operInput) (districtName junboAddress) ->
  let st := scoreCandidate getNormalized junboAddress operInput in
  score st = 1.0%float
  /\ districtExactMatch st = true
  /\ confidenceOf (score st) = c_high.
Proof.
  intros Hp Hc Hd. unfold scoreCandidate.
  destruct (provinceStage_agrees getNormalized junboAddress operInput
              initialLocals Hp) as [m1 ->].
  cbn [provinceMatched contribute].
  destruct (cityStage_agrees getNormalized junboAddress operInput
              (contribute L_province 0.25 m1 initialLocals) Hc) as [m2 ->].
  cbn [cityMatched contribute].
  destruct (districtStage_agrees getNormalized junboAddress operInput
              (contribute L_city 0.25 m2
                 (contribute L_province 0.25 m1 initialLocals)) Hd) as [m3 ->].
  vm_compute. repeat split; reflexivity.
Qed.

Lemma full_agreement_scores_one_witness :
  let st := scoreCandidate getNormalized Fixtures.siming
              (Fixtures.row "福建省" "" "厦门" "2001" "思明" "") in
  score st = 1.0%float /\ districtExactMatch st = true
  /\ confidenceOf (score st) = c_high.
Proof.
  apply (full_agreement_scores_one getNormalized Fixtures.siming
           (Fixtures.row "福建省" "" "厦门" "2001" "思明" "")).
  - right. left. split; [vm_compute; discriminate | vm_compute; reflexivity].
  - left. split; [vm_compute; discriminate | vm_compute; reflexivity].
  - right. right. split; [vm_compute; discriminate|].
    split; [vm_compute; discriminate | vm_compute; reflexivity].
Defined.

(** ** The retained scorer *)

Lemma getNormalized_normalizeName name : getNormalized name = normalizeName name.
Proof. by destruct name. Qed.

Lemma truthy_normalizeName name :
  truthy (normalizeName name) = true -> truthy name = true.
Proof. by destruct name. Qed.

Lemma legacy_guard (name ref : jsstring) :
  truthy name && truthy ref = false ->
  truthy name && truthy (normalizeName ref) = false.
Proof.
  intros H. destruct (truthy name); [|done]. simpl in *.
  destruct ref; [reflexivity | discriminate].
Qed.

Lemma legacy_equal_guard (a b : jsstring) :
  truthy a && truthy b && str_eqb a b
  = if truthy b then str_eqb a b else false.
Proof.
  destruct (truthy b) eqn:Eb.
  - rewrite andb_true_r. destruct (str_eqb a b) eqn:E; [|apply andb_false_r].
    apply str_eqb_eq in E as ->. by rewrite Eb.
  - by rewrite andb_false_r.
Qed.

Lemma provinceStageLegacy_eq j oi st :
  provinceStageLegacy j oi st = provinceStage getNormalized j oi st.
Proof.
  unfold provinceStageLegacy, provinceStage. cbv zeta.
  rewrite !getNormalized_normalizeName.
  destruct (_ && str_eqb (省份编码 oi) _); [reflexivity|].
  destruct (_ && str_eqb (省份名称 oi) _); [reflexivity|].
  rewrite legacy_equal_guard.
  destruct (truthy (normalizeName (provinceName j))) eqn:En.
  - rewrite (truthy_normalizeName _ En). reflexivity.
  - rewrite !andb_false_r.
    destruct (truthy (省份名称 oi) && truthy (provinceName j)); reflexivity.
Qed.

Lemma cityStageLegacy_eq j oi st :
  cityStageLegacy j oi st = cityStage getNormalized j oi st.
Proof.
  unfold cityStageLegacy, cityStage. cbv zeta.
  rewrite !getNormalized_normalizeName.
  destruct (_ && str_eqb (地市编码 oi) _); [reflexivity|].
  destruct (_ && str_eqb (地市名称 oi) _); [reflexivity|].
  rewrite legacy_equal_guard.
  destruct (truthy (normalizeName (cityName j))) eqn:En.
  - rewrite (truthy_normalizeName _ En).
    destruct (truthy (地市名称 oi)); [|reflexivity]. cbn [andb].
    destruct (str_eqb _ _); [reflexivity|].
    destruct (truthy (normalizeName (地市名称 oi)) && true); [|reflexivity].
    destruct (_ || _); [|reflexivity].
    destruct (2 <=? _); [|reflexivity]. cbn [andb].
    destruct (_ || _); reflexivity.
  - rewrite !andb_false_r.
    destruct (truthy (地市名称 oi) && truthy (cityName j)); reflexivity.
Qed.

Lemma districtStageLegacy_eq j oi st :
  districtStageLegacy j oi st = districtStage getNormalized j oi st.
Proof.
  unfold districtStageLegacy, districtStage. cbv zeta.
  rewrite !getNormalized_normalizeName.
  destruct (_ && str_eqb (区县编码 oi) _); [reflexivity|].
  destruct (_ && str_eqb (区县名称 oi) _); [reflexivity|].
  rewrite legacy_equal_guard.
  destruct (truthy (normalizeName (districtName j))) eqn:En.
  - rewrite (truthy_normalizeName _ En). reflexivity.
  - rewrite !andb_false_r.
    destruct (truthy (区县名称 oi) && truthy (districtName j)); reflexivity.
Qed.

(** X9: the retained scorer [matchOperAddressFromJunbo] and the scorer
    that [batchMatch] uses return the same record on every entry and every
    list of rows. *)
Theorem legacy_scorer_agrees (junboAddress : JunboEntry)
    (operInputs : list InputRef) :
  matchOperAddressFromJunbo junboAddress operInputs
  = matchOperAddressFromJunboOptimized getNormalized junboAddress operInputs.
Proof.
  unfold matchOperAddressFromJunbo, matchOperAddressFromJunboOptimized,
    scoreCandidates.
  assert (forall oi, scoreCandidateLegacy junboAddress oi
                     = scoreCandidate getNormalized junboAddress oi) as Hs.
  { intros oi. unfold scoreCandidateLegacy, scoreCandidate.
    rewrite provinceStageLegacy_eq.
    destruct (provinceMatched _); [|reflexivity].
    rewrite cityStageLegacy_eq.
    destruct (cityMatched _); [|reflexivity].
    apply districtStageLegacy_eq. }
  assert (forall acc, fold_left (pushCandidateLegacy junboAddress) operInputs acc
                      = fold_left (pushCandidate getNormalized junboAddress)
                          operInputs acc) as ->; [|reflexivity].
  induction operInputs as [|x l IH]; intros acc; [reflexivity|].
  cbn [fold_left]. rewrite IH. f_equal.
  unfold pushCandidateLegacy, pushCandidate. by rewrite Hs.
Qed.

(** ** Contents of the input indexes *)

Lemma fold_pushAt_lookup (key : InputRef -> jsstring) (l : list InputRef)
    (m : gmap jsstring (list InputRef)) (k : jsstring) :
  fold_left (fun m x => if truthy (key x) then pushAt (key x) x m else m) l m !! k
  = if truthy k then
      match rowsWithKey key k l with
      | [] => m !! k
      | rows => Some (default [] (m !! k) ++ rows)
      end
    else m !! k.
Proof.
  revert m. induction l as [|x l IH]; intros m; cbn [fold_left].
  - unfold rowsWithKey. simpl. by destruct (truthy k).
  - rewrite IH. unfold rowsWithKey. cbn [List.filter].
    destruct (truthy k) eqn:Ek.
    + destruct (str_eqb (key x) k) eqn:E.
      * apply str_eqb_eq in E. rewrite E, Ek. unfold pushAt.
        rewrite lookup_insert_eq.
        destruct (List.filter _ l); [reflexivity|].
        cbn [from_option id]. by rewrite <- app_assoc.
      * apply str_eqb_neq in E.
        assert ((if truthy (key x) then pushAt (key x) x m else m) !! k = m !! k)
          as ->; [|reflexivity].
        destruct (truthy (key x)); [|reflexivity].
        unfold pushAt. by rewrite lookup_insert_ne.
    + destruct (truthy (key x)) eqn:Ex; [|reflexivity].
      unfold pushAt. rewrite lookup_insert_ne; [reflexivity|].
      intros Heq. rewrite Heq in Ex. congruence.
Qed.

Lemma fold_pushAt_empty (key : InputRef -> jsstring) (l : list InputRef)
    (k : jsstring) :
  fold_left (fun m x => if truthy (key x) then pushAt (key x) x m else m) l ∅ !! k
  = if truthy k then groupOf key k l else None.
Proof.
  rewrite fold_pushAt_lookup, lookup_empty. unfold groupOf.
  destruct (truthy k); [|reflexivity].
  by destruct (rowsWithKey key k l).
Qed.

Lemma indexByName_key gn name x m :
  indexByName gn name x m
  = if truthy (nameKey gn name) then pushAt (nameKey gn name) x m else m.
Proof. unfold indexByName, nameKey. by destruct (truthy name). Qed.

Lemma fold_indexInput_fields gn (l : list InputRef) (ix : Indexes) :
  let ix' := fold_left (indexInput gn) l ix in
  operInputsByProvinceCode ix'
  = fold_left (fun m x => if truthy (省份编码 (snd x))
                          then pushAt (省份编码 (snd x)) x m else m)
      l (operInputsByProvinceCode ix)
  /\ operInputsByCityCode ix'
     = fold_left (fun m x => if truthy (地市编码 (snd x))
                             then pushAt (地市编码 (snd x)) x m else m)
         l (operInputsByCityCode ix)
  /\ operInputsByDistrictCode ix'
     = fold_left (fun m x => if truthy (区县编码 (snd x))
                             then pushAt (区县编码 (snd x)) x m else m)
         l (operInputsByDistrictCode ix)
  /\ operInputsByProvinceName ix'
     = fold_left (fun m x => if truthy (nameKey gn (省份名称 (snd x)))
                             then pushAt (nameKey gn (省份名称 (snd x))) x m else m)
         l (operInputsByProvinceName ix)
  /\ operInputsByCityName ix'
     = fold_left (fun m x => if truthy (nameKey gn (地市名称 (snd x)))
                             then pushAt (nameKey gn (地市名称 (snd x))) x m else m)
         l (operInputsByCityName ix)
  /\ operInputsByDistrictName ix'
     = fold_left (fun m x => if truthy (nameKey gn (区县名称 (snd x)))
                             then pushAt (nameKey gn (区县名称 (snd x))) x m else m)
         l (operInputsByDistrictName ix).
Proof.
  revert ix. induction l as [|x l IH]; intros ix; [by repeat split|].
  cbn [fold_left]. destruct (IH (indexInput gn ix x)) as (H1 & H2 & H3 & H4 & H5 & H6).
  cbv zeta. rewrite H1, H2, H3, H4, H5, H6.
  unfold indexInput. cbn [operInputsByProvinceCode operInputsByCityCode
    operInputsByDistrictCode operInputsByProvinceName operInputsByCityName
    operInputsByDistrictName].
  rewrite !indexByName_key. unfold indexByCode. by repeat split.
Qed.

Lemma buildIndexes_lookup (getNormalized : jsstring -> jsstring)
    (operInputs : list OperAddressInput) (k : jsstring) :
  let ix := buildIndexes getNormalized operInputs in
  let refs := inputRefs operInputs in
  let at_ (key : InputRef -> jsstring) :=
    if truthy k then groupOf key k refs else None in
  operInputsByProvinceCode ix !! k = at_ (fun x => 省份编码 (snd x))
  /\ operInputsByCityCode ix !! k = at_ (fun x => 地市编码 (snd x))
  /\ operInputsByDistrictCode ix !! k = at_ (fun x => 区县编码 (snd x))
  /\ operInputsByProvinceName ix !! k
     = at_ (fun x => nameKey getNormalized (省份名称 (snd x)))
  /\ operInputsByCityName ix !! k
     = at_ (fun x => nameKey getNormalized (地市名称 (snd x)))
  /\ operInputsByDistrictName ix !! k
     = at_ (fun x => nameKey getNormalized (区县名称 (snd x))).
Proof.
  intros ix refs at_. subst ix at_. unfold buildIndexes. fold refs.
  destruct (fold_indexInput_fields getNormalized refs emptyIndexes)
    as (H1 & H2 & H3 & H4 & H5 & H6).
  rewrite H1, H2, H3, H4, H5, H6. cbn [emptyIndexes operInputsByProvinceCode
    operInputsByCityCode operInputsByDistrictCode operInputsByProvinceName
    operInputsByCityName operInputsByDistrictName].
  rewrite !fold_pushAt_empty. by repeat split.
Qed.

(** X10: each of the six grouping indexes that [batchMatch] builds holds,
    under a non-empty key, exactly the rows with that key in input order,
    and nothing under any other key: the code indexes are keyed by the
    row's code, the name indexes by the normal form of the row's name. *)
Theorem buildIndexes_groups (getNormalized : jsstring -> jsstring)
    (operInputs : list OperAddressInput) (k : jsstring) :
  let ix := buildIndexes getNormalized operInputs in
  let refs := inputRefs operInputs in
  let at_ (key : InputRef -> jsstring) :=
    if truthy k then groupOf key k refs else None in
  operInputsByProvinceCode ix !! k = at_ (fun x => 省份编码 (snd x))
  /\ operInputsByCityCode ix !! k = at_ (fun x => 地市编码 (snd x))
  /\ operInputsByDistrictCode ix !! k = at_ (fun x => 区县编码 (snd x))
  /\ operInputsByProvinceName ix !! k
     = at_ (fun x => nameKey getNormalized (省份名称 (snd x)))
  /\ operInputsByCityName ix !! k
     = at_ (fun x => nameKey getNormalized (地市名称 (snd x)))
  /\ operInputsByDistrictName ix !! k
     = at_ (fun x => nameKey getNormalized (区县名称 (snd x))).
Proof. exact (buildIndexes_lookup getNormalized operInputs k). Qed.

Lemma fold_indexInput_code gn (l : list InputRef) (ix : Indexes) (k : jsstring) :
  operInputsByCode (fold_left (indexInput gn) l ix) !! k
  = match last (List.filter (hasFullKey k) l) with
    | Some x => Some x
    | None => operInputsByCode ix !! k
    end.
Proof.
  revert ix. induction l as [|x l IH]; intros ix; [reflexivity|].
  cbn [fold_left List.filter]. rewrite IH.
  assert (operInputsByCode (indexInput gn ix x) !! k
          = if hasFullKey k x then Some x else operInputsByCode ix !! k) as ->.
  { unfold indexInput, hasFullKey. cbn [operInputsByCode].
    destruct (truthy (省份编码 (snd x)) && truthy (地市编码 (snd x))
              && truthy (区县编码 (snd x))); [|reflexivity].
    cbn [andb]. rewrite lookup_insert. case_decide as Hk.
    - by rewrite Hk, str_eqb_refl.
    - apply str_eqb_neq in Hk. by rewrite Hk. }
  destruct (hasFullKey k x); [|reflexivity].
  destruct (List.filter (hasFullKey k) l) as [|y l'] eqn:E; [reflexivity|].
  change (last (x :: y :: l')) with (last (y :: l')).
  destruct (last (y :: l')) eqn:E'; [reflexivity|].
  by apply last_None in E'.
Qed.

(** X11: the full-code index returns, for a key, the last row of the input
    that has three non-empty codes joined to that key (a later row with the
    same codes replaces an earlier one), and nothing when there is no such
    row. *)
Theorem buildIndexes_full_code_last (getNormalized : jsstring -> jsstring)
    (operInputs : list OperAddressInput) (k : jsstring) :
  operInputsByCode (buildIndexes getNormalized operInputs) !! k
  = last (List.filter (hasFullKey k) (inputRefs operInputs)).
Proof.
  unfold buildIndexes. rewrite fold_indexInput_code.
  cbn [emptyIndexes operInputsByCode]. rewrite lookup_empty.
  by destruct (last _).
Qed.

(** ** Candidate sets *)

Lemma combine_seq_elem (l : list OperAddressInput) start i a :
  (i, a) ∈ combine (seq start (length l)) l
  <-> start <= i /\ l !! (i - start) = Some a.
Proof.
  revert start. induction l as [|y l IH]; intros start; cbn [length seq combine].
  - split; [intros H; by apply elem_of_nil in H | intros [_ H]; done].
  - rewrite elem_of_cons, IH. split.
    + intros [[= -> ->] | [Hle Hl]].
      * split; [lia|]. by rewrite Nat.sub_diag.
      * split; [lia|]. replace (i - start) with (S (i - S start)) by lia. done.
    + intros [Hle Hl]. destruct (decide (i = start)) as [->|Hne].
      * left. rewrite Nat.sub_diag in Hl. simpl in Hl. congruence.
      * right. split; [lia|].
        replace (i - start) with (S (i - S start)) in Hl by lia. done.
Qed.

Lemma inputRefs_lookup (operInputs : list OperAddressInput) i a :
  (i, a) ∈ inputRefs operInputs <-> operInputs !! i = Some a.
Proof.
  unfold inputRefs. rewrite combine_seq_elem, Nat.sub_0_r. intuition lia.
Qed.

Lemma inputRefs_inj (operInputs : list OperAddressInput) (x y : InputRef) :
  x ∈ inputRefs operInputs -> y ∈ inputRefs operInputs -> fst x = fst y -> x = y.
Proof.
  destruct x as [i a], y as [i' b]. rewrite !inputRefs_lookup. simpl.
  intros Ha Hb <-. congruence.
Qed.

Lemma inputRefs_NoDup (operInputs : list OperAddressInput) :
  NoDup (inputRefs operInputs).
Proof.
  unfold inputRefs. generalize 0 as start.
  induction operInputs as [|y l IH]; intros start; cbn [length seq combine].
  - apply NoDup_nil_2.
  - apply NoDup_cons. split; [|apply IH].
    intros H. apply combine_seq_elem in H as [H _]. lia.
Qed.

Section CandidateSets.

Variable refs : list InputRef.
Hypothesis refs_inj : forall x y, x ∈ refs -> y ∈ refs -> fst x = fst y -> x = y.

Lemma Set_add_spec (s : list InputRef) (x : InputRef) :
  s ⊆ refs -> x ∈ refs -> NoDup s ->
  NoDup (Set_add s x) /\ Set_add s x ⊆ refs
  /\ forall y, y ∈ Set_add s x <-> y ∈ s \/ y = x.
Proof using refs_inj.
  intros Hs Hx Hnd. unfold Set_add.
  destruct (existsb (fun y => fst y =? fst x) s) eqn:E.
  - apply existsb_exists in E as (y & Hy & Hfst).
    apply Nat.eqb_eq in Hfst. apply list_elem_of_In in Hy.
    assert (y = x) as -> by (apply refs_inj; auto).
    split; [done|]. split; [done|]. intros z. split; [auto|].
    intros [?| ->]; done.
  - assert (x ∉ s) as Hnot.
    { intros Hin. apply not_true_iff_false in E. apply E.
      apply existsb_exists. exists x. split; [by apply list_elem_of_In|].
      apply Nat.eqb_refl. }
    split; [|split].
    + apply NoDup_app. split; [done|]. split; [|apply NoDup_singleton].
      intros z Hz Hz'. apply list_elem_of_singleton in Hz' as ->. done.
    + intros z Hz. apply elem_of_app in Hz as [Hz|Hz]; [by apply Hs|].
      by apply list_elem_of_singleton in Hz as ->.
    + intros z. rewrite elem_of_app, list_elem_of_singleton. done.
Qed.

Lemma fold_Set_add_spec (rows s : list InputRef) :
  s ⊆ refs -> rows ⊆ refs -> NoDup s ->
  NoDup (fold_left Set_add rows s) /\ fold_left Set_add rows s ⊆ refs
  /\ forall y, y ∈ fold_left Set_add rows s <-> y ∈ s \/ y ∈ rows.
Proof using refs_inj.
  revert s. induction rows as [|x rows IH]; intros s Hs Hrows Hnd; cbn [fold_left].
  - split; [done|]. split; [done|]. intros y. rewrite elem_of_nil. tauto.
  - destruct (Set_add_spec s x Hs) as (Hnd' & Hs' & Hin'); [|done|].
    { apply Hrows. by left. }
    destruct (IH (Set_add s x) Hs') as (Hnd'' & Hs'' & Hin''); [|done|].
    { intros z Hz. apply Hrows. by right. }
    split; [done|]. split; [done|].
    intros y. rewrite Hin'', Hin', elem_of_cons. tauto.
Qed.

Lemma addFrom_spec (m : gmap jsstring (list InputRef))
    (key : InputRef -> jsstring) (k : jsstring) (s : list InputRef) :
  m !! k = (if truthy k then groupOf key k refs else None) ->
  s ⊆ refs -> NoDup s ->
  NoDup (addFrom m k s) /\ addFrom m k s ⊆ refs
  /\ forall y, y ∈ addFrom m k s
       <-> y ∈ s \/ (y ∈ refs /\ truthy k && str_eqb (key y) k = true).
Proof using refs_inj.
  intros Hm Hs Hnd. unfold addFrom. destruct (truthy k) eqn:Ek.
  - rewrite Hm. unfold groupOf.
    assert (Hrows : forall y, y ∈ rowsWithKey key k refs
                       <-> y ∈ refs /\ str_eqb (key y) k = true).
    { intros y. unfold rowsWithKey.
      apply (elem_of_filter_bool (fun x => str_eqb (key x) k)). }
    destruct (rowsWithKey key k refs) as [|r rows] eqn:E.
    + split; [done|]. split; [done|]. intros y. rewrite <- Hrows, elem_of_nil. tauto.
    + destruct (fold_Set_add_spec (r :: rows) s Hs) as (H1 & H2 & H3); [|done|].
      { intros y Hy. by apply Hrows in Hy as [? _]. }
      split; [done|]. split; [done|]. intros y. by rewrite H3, Hrows.
  - split; [done|]. split; [done|]. intros y. cbn [andb].
    split; [auto | intros [?|[_ ?]]; done].
Qed.

End CandidateSets.

Lemma getCandidateInputs_elem (getNormalized : jsstring -> jsstring)
    (operInputs : list OperAddressInput) (junboAddress : JunboEntry) :
  let refs := inputRefs operInputs in
  let candidates :=
    getCandidateInputs getNormalized junboAddress
      (buildIndexes getNormalized operInputs) in
  NoDup candidates
  /\ forall x : InputRef,
       x ∈ candidates
       <-> x ∈ refs
           /\ (sharesCode junboAddress x = true
               \/ (length (List.filter (sharesCode junboAddress) refs) < 10
                   /\ sharesName getNormalized junboAddress x = true)).
Proof.
  intros refs candidates. subst candidates. unfold getCandidateInputs.
  pose proof (inputRefs_inj operInputs) as Hinj. fold refs in Hinj.
  pose proof (fun k => buildIndexes_lookup getNormalized operInputs k) as Hg.
  cbv zeta in Hg. fold refs in Hg.
  set (ix := buildIndexes getNormalized operInputs) in *.
  destruct (addFrom_spec refs Hinj (operInputsByDistrictCode ix)
              (fun x => 区县编码 (snd x)) (districtCode junboAddress) [])
    as (N1 & S1 & M1); [apply Hg | by intros ? ?%elem_of_nil | apply NoDup_nil_2 |].
  set (s1 := addFrom (operInputsByDistrictCode ix) (districtCode junboAddress) []) in *.
  destruct (addFrom_spec refs Hinj (operInputsByCityCode ix)
              (fun x => 地市编码 (snd x)) (cityCode junboAddress) s1)
    as (N2 & S2 & M2); [apply Hg | done | done |].
  set (s2 := addFrom (operInputsByCityCode ix) (cityCode junboAddress) s1) in *.
  destruct (addFrom_spec refs Hinj (operInputsByProvinceCode ix)
              (fun x => 省份编码 (snd x)) (provinceCode junboAddress) s2)
    as (N3 & S3 & M3); [apply Hg | done | done |].
  set (s3 := addFrom (operInputsByProvinceCode ix) (provinceCode junboAddress) s2) in *.
  assert (Hs3 : forall y, y ∈ s3 <-> y ∈ refs /\ sharesCode junboAddress y = true).
  { intros y. rewrite M3, M2, M1, elem_of_nil. unfold sharesCode.
    rewrite !orb_true_iff. split.
    - intros [[[[]|[? ?]]|[? ?]]|[? ?]]; auto.
    - intros [Hy [[?|?]|?]]; auto. }
  assert (Hlen : length s3 = length (List.filter (sharesCode junboAddress) refs)).
  { apply Permutation_length, NoDup_Permutation; [done| |].
    - apply NoDup_ListNoDup, List.NoDup_filter, NoDup_ListNoDup, inputRefs_NoDup.
    - intros y. rewrite Hs3. symmetry. apply elem_of_filter_bool. }
  rewrite <- Hlen. destruct (length s3 <? 10) eqn:E.
  - apply Nat.ltb_lt in E.
    destruct (addFrom_spec refs Hinj (operInputsByDistrictName ix)
                (fun x => nameKey getNormalized (区县名称 (snd x)))
                (getNormalized (districtName junboAddress)) s3)
      as (N4 & S4 & M4); [apply Hg | done | done |].
    set (s4 := addFrom (operInputsByDistrictName ix) _ s3) in *.
    destruct (addFrom_spec refs Hinj (operInputsByCityName ix)
                (fun x => nameKey getNormalized (地市名称 (snd x)))
                (getNormalized (cityName junboAddress)) s4)
      as (N5 & S5 & M5); [apply Hg | done | done |].
    set (s5 := addFrom (operInputsByCityName ix) _ s4) in *.
    destruct (addFrom_spec refs Hinj (operInputsByProvinceName ix)
                (fun x => nameKey getNormalized (省份名称 (snd x)))
                (getNormalized (provinceName junboAddress)) s5)
      as (N6 & S6 & M6); [apply Hg | done | done |].
    split; [exact N6|].
    intros y. rewrite M6, M5, M4, Hs3. unfold sharesName.
    rewrite !orb_true_iff. split.
    + intros [[[[? ?]|[? ?]]|[? ?]]|[? ?]]; auto 10.
    + intros [Hy [?|[_ [[?|?]|?]]]]; auto 10.
  - apply Nat.ltb_ge in E. split; [exact N3|].
    intros y. rewrite Hs3. split.
    + intros [? ?]. auto.
    + intros [? [?|[? _]]]; [auto | lia].
Qed.

(** X12: the candidate set of an entry has no row twice and consists of the
    input rows that carry one of the entry's non-empty codes, together
    with, only when fewer than ten rows do, the rows that share a non-empty
    normalised name with the entry at some level. *)
Theorem getCandidateInputs_spec (getNormalized : jsstring -> jsstring)
    (operInputs : list OperAddressInput) (junboAddress : JunboEntry) :
  let refs := inputRefs operInputs in
  let candidates :=
    getCandidateInputs getNormalized junboAddress
      (buildIndexes getNormalized operInputs) in
  NoDup candidates
  /\ forall x : InputRef,
       x ∈ candidates
       <-> x ∈ refs
           /\ (sharesCode junboAddress x = true
               \/ (length (List.filter (sharesCode junboAddress) refs) < 10
                   /\ sharesName getNormalized junboAddress x = true)).
Proof. exact (getCandidateInputs_elem getNormalized operInputs junboAddress). Qed.

(** ** Records of a batch *)

Lemma confidenceOf_positive (s : float) :
  (0 <? s)%float = true -> confidenceOf s <> c_none.
Proof.
  intros H. unfold confidenceOf. rewrite H.
  destruct (0.9 <=? s)%float; [discriminate|].
  destruct (0.6 <=? s)%float; discriminate.
Qed.

Lemma scoreCandidate_positive_method gn j oi :
  (0 <? score (scoreCandidate gn j oi))%float = true ->
  method (scoreCandidate gn j oi) <> m_none.
Proof.
  intros Hpos Hm.
  destruct (scoreCandidate_gated gn j oi) as (Hp & _).
  unfold scoreCandidate in *.
  destruct (provinceStage_initial gn j oi) as [[E _] | (w & m & E & Hne & _)].
  - rewrite E in Hpos. cbn [provinceMatched initialLocals score] in Hpos.
    vm_compute in Hpos. discriminate.
  - rewrite E in Hm, Hp. cbn [provinceMatched contribute] in Hm, Hp.
    set (st1 := contribute L_province w m initialLocals) in *.
    assert (method st1 <> m_none) as Hn1 by exact Hne.
    destruct (cityMatched (cityStage gn j oi st1)).
    + rewrite districtStage_method in Hm by by rewrite cityStage_method.
      rewrite cityStage_method in Hm by done. done.
    + rewrite cityStage_method in Hm by done. done.
Qed.

(** The two shapes of the record returned by the staged matcher. *)
Lemma matchOper_cases gn j (candidateInputs : list InputRef) :
  let r := matchOperAddressFromJunboOptimized gn j candidateInputs in
  (Res.matched r = None /\ Res.matchScore r = 0%float
   /\ Res.matchMethod r = m_none /\ Res.confidence r = c_none)
  \/ (exists x, x ∈ candidateInputs /\ Res.matched r = Some x
      /\ (0 <? Res.matchScore r)%float = true
      /\ Res.matchMethod r <> m_none
      /\ Res.confidence r = confidenceOf (Res.matchScore r)
      /\ Res.confidence r <> c_none).
Proof.
  unfold matchOperAddressFromJunboOptimized. cbv zeta.
  destruct (selectBest (scoreCandidates gn j candidateInputs)) as [best|] eqn:E.
  - right. apply selectBest_elem, elem_of_scoreCandidates in E as (x & Hx & Hc).
    apply candidateOf_Some in Hc as (Hpos & Hinp & Hs & Hm & _).
    exists x. cbn [Res.matched Res.matchScore Res.matchMethod Res.confidence
      option_map from_option].
    rewrite Hinp, Hs, Hm. repeat split; try done.
    + by apply scoreCandidate_positive_method.
    + by apply confidenceOf_positive.
  - left. cbn. repeat split; reflexivity.
Qed.

Lemma fieldOrEmpty_Some (x : InputRef) (field : OperAddressInput -> jsstring) :
  fieldOrEmpty (Some x) field = field (snd x).
Proof. unfold fieldOrEmpty. by destruct (field (snd x)). Qed.

Lemma inputRefs_elem_of (operInputs : list OperAddressInput) (x : InputRef) :
  x ∈ inputRefs operInputs -> snd x ∈ operInputs.
Proof.
  destruct x as [i a]. rewrite inputRefs_lookup. simpl.
  intros H. apply list_elem_of_lookup. by exists i.
Qed.

Lemma full_code_hit_elem gn (operInputs : list OperAddressInput) k x :
  operInputsByCode (buildIndexes gn operInputs) !! k = Some x ->
  x ∈ inputRefs operInputs /\ hasFullKey k x = true.
Proof.
  unfold buildIndexes. rewrite fold_indexInput_code.
  cbn [emptyIndexes operInputsByCode]. rewrite lookup_empty.
  destruct (last _) as [y|] eqn:E; [|discriminate]. intros [= ->].
  apply last_Some_elem_of in E.
  by apply (elem_of_filter_bool (hasFullKey k)) in E.
Qed.

Lemma getCandidateInputs_refs gn (operInputs : list OperAddressInput) j x :
  x ∈ getCandidateInputs gn j (buildIndexes gn operInputs) ->
  x ∈ inputRefs operInputs.
Proof.
  intros H. by apply (proj2 (getCandidateInputs_elem gn operInputs j)) in H as [? _].
Qed.

(** The two shapes of a record of [matchSingleJunboAddress]. *)
Lemma matchSingle_cases gn (operInputs : list OperAddressInput) j :
  let r := matchSingleJunboAddress gn (buildIndexes gn operInputs) j in
  confidence (output r) = confidenceOf (match_score (output r))
  /\ ((input r = emptyRow /\ match_score (output r) = 0%float
       /\ match_method (output r) = m_none /\ confidence (output r) = c_none)
      \/ (input r ∈ operInputs /\ (0 <? match_score (output r))%float = true
          /\ match_method (output r) <> m_none
          /\ confidence (output r) <> c_none)).
Proof.
  unfold matchSingleJunboAddress. cbv zeta.
  destruct (operInputsByCode (buildIndexes gn operInputs) !! _) as [x|] eqn:E.
  - cbn [output input match_score match_method confidence
         Res.matched Res.matchScore Res.matchMethod Res.confidence].
    split; [vm_compute; reflexivity|]. right.
    rewrite !fieldOrEmpty_Some.
    apply full_code_hit_elem in E as [Hx _]. apply inputRefs_elem_of in Hx.
    split; [by destruct (snd x)|]. split; [vm_compute; reflexivity|].
    split; discriminate.
  - cbn [output input match_score match_method confidence].
    destruct (matchOper_cases gn j
                (getCandidateInputs gn j (buildIndexes gn operInputs)))
      as [(Hm & Hs & Hme & Hc) | (x & Hx & Hm & Hs & Hme & Hc & Hcn)].
    + rewrite Hm, Hs, Hme, Hc. split; [vm_compute; reflexivity|]. left.
      repeat split; reflexivity.
    + rewrite Hm. split; [exact Hc|]. right. rewrite !fieldOrEmpty_Some.
      apply getCandidateInputs_refs, inputRefs_elem_of in Hx.
      split; [by destruct (snd x)|]. done.
Qed.

(** X13: every record that [batchMatch] returns has the confidence that the
    bands 0.9 / 0.6 / 0 assign to its score, and is of one of two kinds:
    an unmatched record, with six empty fields, score 0, method [none] and
    confidence [none]; or a copy of one of the input rows, with a score
    above zero, a method other than [none] and a confidence other than
    [none]. *)
Theorem batchMatch_records
    (localeCompare : jsstring -> jsstring -> Z) (data : JunboAddressData)
    (operInputs : list OperAddressInput) (r : AddressMatchResult) :
  r ∈ fst (batchMatch localeCompare (newAddressMatcher data) operInputs) ->
  confidence (output r) = confidenceOf (match_score (output r))
  /\ ((input r = emptyRow /\ match_score (output r) = 0%float
       /\ match_method (output r) = m_none /\ confidence (output r) = c_none)
      \/ (input r ∈ operInputs /\ (0 <? match_score (output r))%float = true
          /\ match_method (output r) <> m_none
          /\ confidence (output r) <> c_none)).
Proof.
  intros Hr. rewrite batchMatch_perm in Hr.
  apply list_elem_of_fmap in Hr as (j & -> & _). apply matchSingle_cases.
Qed.

Lemma batchMatch_records_witness :
  Forall (fun r =>
            confidence (output r) = confidenceOf (match_score (output r))
            /\ ((input r = emptyRow /\ match_score (output r) = 0%float
                 /\ match_method (output r) = m_none
                 /\ confidence (output r) = c_none)
                \/ (input r ∈ Fixtures.rows
                    /\ (0 <? match_score (output r))%float = true
                    /\ match_method (output r) <> m_none
                    /\ confidence (output r) <> c_none)))
    (fst (batchMatch Fixtures.codeUnitCompare
            (newAddressMatcher Fixtures.catalog) Fixtures.rows)).
Proof.
  apply Forall_forall. intros r Hr.
  exact (batchMatch_records Fixtures.codeUnitCompare Fixtures.catalog
           Fixtures.rows r Hr).
Defined.

Lemma needsConfirmation_matchSingle gn ix j :
  needsConfirmation (matchSingleJunboAddress gn ix j)
  = confidence_eqb (confidence (output (matchSingleJunboAddress gn ix j))) c_low
    || confidence_eqb (confidence (output (matchSingleJunboAddress gn ix j))) c_none.
Proof. reflexivity. Qed.

(** X14: with no input rows every record of the batch is unmatched: six
    empty fields, confidence [none], flagged for confirmation. *)
Theorem batchMatch_no_rows
    (localeCompare : jsstring -> jsstring -> Z) (data : JunboAddressData)
    (r : AddressMatchResult) :
  r ∈ fst (batchMatch localeCompare (newAddressMatcher data) []) ->
  input r = emptyRow /\ confidence (output r) = c_none
  /\ match_score (output r) = 0%float /\ needsConfirmation r = true.
Proof.
  intros Hr. rewrite batchMatch_perm in Hr.
  apply list_elem_of_fmap in Hr as (j & -> & _).
  destruct (matchSingle_cases getNormalized [] j)
    as [_ [(Hi & Hs & _ & Hc) | (Hin & _)]]; [|by apply elem_of_nil in Hin].
  split; [exact Hi|]. split; [exact Hc|]. split; [exact Hs|].
  rewrite needsConfirmation_matchSingle, Hc. reflexivity.
Qed.

Lemma batchMatch_no_rows_witness :
  Forall (fun r => input r = emptyRow /\ confidence (output r) = c_none
                   /\ match_score (output r) = 0%float
                   /\ needsConfirmation r = true)
    (fst (batchMatch Fixtures.codeUnitCompare
            (newAddressMatcher Fixtures.catalog) []))
  /\ length (fst (batchMatch Fixtures.codeUnitCompare
                    (newAddressMatcher Fixtures.catalog) [])) = 3.
Proof.
  split; [|vm_compute; reflexivity].
  apply Forall_forall. intros r Hr.
  exact (batchMatch_no_rows Fixtures.codeUnitCompare Fixtures.catalog r Hr).
Defined.

(** ** The joined key of the full-code shortcut *)

Lemma app_hyphen_inj (a a' r r' : jsstring) :
  hyphen ∉ a -> hyphen ∉ a' ->
  a ++ hyphen :: r = a' ++ hyphen :: r' -> a = a' /\ r = r'.
Proof.
  revert a'. induction a as [|x a IH]; intros [|x' a'] Ha Ha' H; simpl in H.
  - injection H as ->. done.
  - injection H as Hx _. exfalso. apply Ha'. rewrite <- Hx. by left.
  - injection H as Hx _. exfalso. apply Ha. rewrite Hx. by left.
  - injection H as -> H. destruct (IH a') as [-> ->]; try done.
    + intros Hin. apply Ha. by right.
    + intros Hin. apply Ha'. by right.
Qed.

Lemma join3_inj (a b c a' b' c' : jsstring) :
  hyphen ∉ a -> hyphen ∉ b -> hyphen ∉ a' -> hyphen ∉ b' ->
  join3 a b c = join3 a' b' c' -> a = a' /\ b = b' /\ c = c'.
Proof.
  unfold join3. intros Ha Hb Ha' Hb' H.
  apply app_hyphen_inj in H as [-> H]; try done.
  apply app_hyphen_inj in H as [-> ->]; done.
Qed.

(** X15: when neither the entry's province and city codes nor those of any
    input row contain a hyphen, a hit of the full-code shortcut is a row of
    the input whose three codes are non-empty and equal to the entry's, and
    the record built from it reports those codes. *)
Theorem full_code_hit_sound (getNormalized : jsstring -> jsstring)
    (operInputs : list OperAddressInput) (junboAddress : JunboEntry)
    (x : InputRef) :
  let ix := buildIndexes getNormalized operInputs in
  let r := matchSingleJunboAddress getNormalized ix junboAddress in
  hyphen ∉ provinceCode junboAddress ->
  hyphen ∉ cityCode junboAddress ->
  (forall row, row ∈ operInputs ->
     (hyphen ∉ 省份编码 row) /\ (hyphen ∉ 地市编码 row)) ->
  operInputsByCode ix
    !! join3 (provinceCode junboAddress) (cityCode junboAddress)
         (districtCode junboAddress) = Some x ->
  snd x ∈ operInputs
  /\ 省份编码 (snd x) = provinceCode junboAddress
  /\ 地市编码 (snd x) = cityCode junboAddress
  /\ 区县编码 (snd x) = districtCode junboAddress
  /\ provinceCode junboAddress <> [] /\ cityCode junboAddress <> []
  /\ districtCode junboAddress <> []
  /\ input r = snd x
  /\ match_score (output r) = 1.0%float.
Proof.
  intros ix r Hp Hc Hrows Hhit. subst ix r.
  pose proof Hhit as Hx. apply full_code_hit_elem in Hx as [Hx Hkey].
  apply inputRefs_elem_of in Hx. destruct (Hrows _ Hx) as [Hxp Hxc].
  unfold hasFullKey in Hkey. bool_facts.
  match goal with H : join3 _ _ _ = join3 _ _ _ |- _ =>
    apply join3_inj in H as (Ep & Ec & Ed); try done end.
  split; [done|]. rewrite <- Ep, <- Ec, <- Ed. repeat split; try done.
  - unfold matchSingleJunboAddress. cbv zeta. rewrite Hhit.
    cbn [input Res.matched]. rewrite !fieldOrEmpty_Some. by destruct (snd x).
  - unfold matchSingleJunboAddress. cbv zeta. rewrite Hhit. reflexivity.
Qed.

Ltac not_in_compute :=
  let H := fresh in
  intros H; apply list_elem_of_In in H; vm_compute in H;
  intuition discriminate.

Lemma full_code_hit_sound_witness :
  let x : InputRef := (0, Fixtures.row "福建" "1001" "厦门" "2001" "思明" "3007") in
  snd x ∈ Fixtures.rows
  /\ 省份编码 (snd x) = provinceCode Fixtures.siming
  /\ 地市编码 (snd x) = cityCode Fixtures.siming
  /\ 区县编码 (snd x) = districtCode Fixtures.siming.
Proof.
  intros x.
  destruct (full_code_hit_sound getNormalized Fixtures.rows Fixtures.siming x)
    as (H1 & H2 & H3 & H4 & _).
  - not_in_compute.
  - not_in_compute.
  - intros row Hrow. apply list_elem_of_In in Hrow. vm_compute in Hrow.
    destruct Hrow as [<- | [<- | [<- | []]]]; split; not_in_compute.
  - vm_compute. reflexivity.
  - exact (conj H1 (conj H2 (conj H3 H4))).
Defined.

(** Without that proviso the joined key is ambiguous: the codes 1-2 / 3 / 4
    of an entry and 1 / 2-3 / 4 of a row give the same key. *)
Example join3_collision :
  join3 (lit "1-2") (lit "3") (lit "4") = join3 (lit "1") (lit "2-3") (lit "4").
Proof. vm_compute. reflexivity. Qed.

(** ** The reference index *)

Lemma Map_set_Forall {V} (P : jsstring * V -> Prop) k v (m : OMap V) :
  Forall P m -> P (k, v) -> Forall P (Map_set k v m).
Proof.
  intros Hm Hv. induction Hm as [|[k' v'] m Hkv Hm IH]; cbn [Map_set].
  - by constructor.
  - destruct (str_eqb k' k) eqn:E.
    + apply str_eqb_eq in E as ->. by constructor.
    + by constructor.
Qed.

Lemma Map_get_set {V} k k' (v : V) (m : OMap V) :
  Map_get k (Map_set k' v m) = if str_eqb k' k then Some v else Map_get k m.
Proof.
  unfold Map_get. induction m as [|[k0 v0] m IH]; cbn [Map_set find fst].
  - by destruct (str_eqb k' k).
  - destruct (str_eqb k0 k') eqn:E0.
    + apply str_eqb_eq in E0 as ->. cbn [find fst].
      by destruct (str_eqb k' k).
    + cbn [find fst]. destruct (str_eqb k0 k) eqn:E1; [|exact IH].
      apply str_eqb_eq in E1 as ->.
      apply str_eqb_neq in E0.
      assert (str_eqb k' k = false) as -> by (apply str_eqb_neq; congruence).
      reflexivity.
Qed.

Lemma Map_get_elem {V} k (v : V) (m : OMap V) :
  Map_get k m = Some v -> (k, v) ∈ m.
Proof.
  unfold Map_get. destruct (find _ m) as [[k' v']|] eqn:E; [|discriminate].
  intros [= <-]. apply find_some in E as [Hin Hk]. simpl in Hk.
  apply str_eqb_eq in Hk as <-. by apply list_elem_of_In.
Qed.

Lemma indexDistricts_sound data pc cc ix :
  indexSound data ix -> indexSound data (indexDistricts pc cc (entriesOf data cc) ix).
Proof.
  unfold indexDistricts.
  assert (forall l ix, (forall d, d ∈ l -> d ∈ entriesOf data cc) ->
            indexSound data ix ->
            indexSound data
              (fold_left (fun ix d =>
                 match snd d with
                 | JString districtName =>
                     {| provinces := provinces ix; cities := cities ix;
                        districts :=
                          Map_set districtName
                            {| DInfo.code := fst d; DInfo.name := districtName;
                               DInfo.provinceCode := pc; DInfo.cityCode := cc |}
                            (districts ix) |}
                 | JObject => ix
                 end) l ix)) as H.
  { induction l as [|[dc dv] l IH]; intros ix0 Hl Hix; [done|].
    cbn [fold_left]. apply IH; [intros d Hd; apply Hl; by right|].
    cbn [snd fst]. destruct dv as [dn|]; [|done].
    destruct Hix as (Hp & Hc & Hd). repeat split; try done.
    cbn [districts]. apply Map_set_Forall; [done|]. cbn.
    split; [done|]. apply Hl. by left. }
  intros Hix. by apply H.
Qed.

Lemma indexCities_sound data pc ix :
  indexSound data ix -> indexSound data (indexCities data pc (entriesOf data pc) ix).
Proof.
  unfold indexCities.
  assert (forall l ix, (forall c, c ∈ l -> c ∈ entriesOf data pc) ->
            indexSound data ix ->
            indexSound data
              (fold_left (fun ix c =>
                 match snd c with
                 | JString cityName =>
                     indexDistricts pc (fst c) (entriesOf data (fst c))
                       {| provinces := provinces ix;
                          cities :=
                            Map_set cityName
                              {| CInfo.code := fst c; CInfo.name := cityName;
                                 CInfo.provinceCode := pc |} (cities ix);
                          districts := districts ix |}
                 | JObject => ix
                 end) l ix)) as H.
  { induction l as [|[cc cv] l IH]; intros ix0 Hl Hix; [done|].
    cbn [fold_left]. apply IH; [intros c Hc; apply Hl; by right|].
    cbn [snd fst]. destruct cv as [cn|]; [|done].
    apply indexDistricts_sound.
    destruct Hix as (Hp & Hc & Hd). repeat split; try done.
    cbn [cities]. apply Map_set_Forall; [done|]. cbn.
    split; [done|]. apply Hl. by left. }
  intros Hix. by apply H.
Qed.

Lemma buildIndex_sound data : indexSound data (buildIndex data).
Proof.
  unfold buildIndex.
  assert (forall l ix, (forall p, p ∈ l -> p ∈ entriesOf data (lit "0000")) ->
            indexSound data ix ->
            indexSound data
              (fold_left (fun ix p =>
                 match snd p with
                 | JString provinceName =>
                     indexCities data (fst p) (entriesOf data (fst p))
                       {| provinces :=
                            Map_set provinceName
                              {| PInfo.code := fst p; PInfo.name := provinceName |}
                              (provinces ix);
                          cities := cities ix; districts := districts ix |}
                 | JObject => ix
                 end) l ix)) as H.
  { induction l as [|[pc pv] l IH]; intros ix0 Hl Hix; [done|].
    cbn [fold_left]. apply IH; [intros p Hp; apply Hl; by right|].
    cbn [snd fst]. destruct pv as [pn|]; [|done].
    apply indexCities_sound.
    destruct Hix as (Hp & Hc & Hd). repeat split; try done.
    cbn [provinces]. apply Map_set_Forall; [done|]. cbn.
    split; [done|]. apply Hl. by left. }
  apply H; [done|]. repeat split; constructor.
Qed.

(** ** The district index and the catalog walk *)

Lemma fold_Map_set_get {A V} (key : A -> jsstring) (val : A -> V) l m k :
  Map_get k (fold_left (fun m a => Map_set (key a) (val a) m) l m)
  = match last (List.filter (fun a => str_eqb (key a) k) l) with
    | Some a => Some (val a)
    | None => Map_get k m
    end.
Proof.
  revert m. induction l as [|x l IH] using rev_ind; intros m; [done|].
  rewrite fold_left_app. cbn [fold_left].
  rewrite Map_get_set, List.filter_app. cbn [List.filter].
  destruct (str_eqb (key x) k).
  - by rewrite last_snoc.
  - rewrite app_nil_r. apply IH.
Qed.

Lemma setDistricts_app l1 l2 m :
  setDistricts (l1 ++ l2) m = setDistricts l2 (setDistricts l1 m).
Proof. apply fold_left_app. Qed.

Lemma indexDistricts_districts pc pn cc cn dd ix :
  districts (indexDistricts pc cc dd ix)
  = setDistricts
      (flat_map (fun d =>
         match snd d with
         | JString dn =>
             [ {| provinceCode := pc; provinceName := pn; cityCode := cc;
                  cityName := cn; districtCode := fst d; districtName := dn |} ]
         | JObject => []
         end) dd) (districts ix)
  /\ cities (indexDistricts pc cc dd ix) = cities ix
  /\ provinces (indexDistricts pc cc dd ix) = provinces ix.
Proof.
  unfold indexDistricts. revert ix.
  induction dd as [|[dc dv] dd IH]; intros ix; [done|].
  cbn [fold_left flat_map fst snd]. rewrite setDistricts_app.
  destruct (IH (match dv with
                | JString districtName =>
                    {| provinces := provinces ix; cities := cities ix;
                       districts :=
                         Map_set districtName
                           {| DInfo.code := dc; DInfo.name := districtName;
                              DInfo.provinceCode := pc; DInfo.cityCode := cc |}
                           (districts ix) |}
                | JObject => ix
                end)) as (-> & -> & ->).
  by destruct dv.
Qed.

Lemma indexCities_districts data pc pn cd ix :
  districts (indexCities data pc cd ix)
  = setDistricts
      (flat_map (fun c =>
         match snd c with
         | JString cn =>
             flat_map (fun d =>
               match snd d with
               | JString dn =>
                   [ {| provinceCode := pc; provinceName := pn;
                        cityCode := fst c; cityName := cn;
                        districtCode := fst d; districtName := dn |} ]
               | JObject => []
               end) (entriesOf data (fst c))
         | JObject => []
         end) cd) (districts ix).
Proof.
  unfold indexCities. revert ix.
  induction cd as [|[cc cv] cd IH]; intros ix; [done|].
  cbn [fold_left flat_map fst snd]. rewrite setDistricts_app, IH.
  destruct cv as [cn|]; [|done].
  by destruct (indexDistricts_districts pc pn cc cn (entriesOf data cc)
    {| provinces := provinces ix;
       cities := Map_set cn {| CInfo.code := cc; CInfo.name := cn;
                               CInfo.provinceCode := pc |} (cities ix);
       districts := districts ix |}) as (-> & _).
Qed.

Lemma buildIndex_districts data :
  districts (buildIndex data) = setDistricts (walkCatalog data) [].
Proof.
  unfold buildIndex, walkCatalog.
  change (@nil (jsstring * DInfo.t)%type) with (districts emptyIndex).
  generalize emptyIndex.
  induction (entriesOf data (lit "0000")) as [|[pc pv] pd IH]; intros ix; [done|].
  cbn [fold_left flat_map fst snd]. rewrite setDistricts_app, IH.
  destruct pv as [pn|]; [|done].
  by rewrite (indexCities_districts data pc pn).
Qed.

(** X18: the district index of the forward matcher holds, under each
    district name, the last entry of the catalog walk with that name: a
    name is in the index exactly when some entry of
    [generateAllJunboAddresses] has it, and of two districts of one name
    (in different cities) only the later one is kept. *)
Theorem buildIndex_district_last (data : JunboAddressData) (name : jsstring) :
  Map_get name (districts (buildIndex data))
  = option_map districtInfoOf (lastNamed name (walkCatalog data)).
Proof.
  rewrite buildIndex_districts. unfold setDistricts, lastNamed.
  rewrite fold_Map_set_get. by destruct (last _).
Qed.


(* ------------------------------------------------------------------ *)
(** ** The forward matcher *)

Lemma ownName_elem data outer inner name :
  ownName data outer inner = Some name ->
  (inner, JString name) ∈ entriesOf data outer /\ name <> [].
Proof.
  unfold ownName.
  destruct (find _ (entriesOf data outer)) as [[k [n|]]|] eqn:E; try discriminate.
  destruct (truthy n) eqn:En; [|discriminate]. intros [= <-].
  apply find_some in E as [Hin Hk]. simpl in Hk. apply str_eqb_eq in Hk as <-.
  split; [by apply list_elem_of_In | by apply truthy_true].
Qed.

Lemma ownName_of_elem data outer inner name :
  NoDup (map fst (entriesOf data outer)) ->
  (inner, JString name) ∈ entriesOf data outer -> name <> [] ->
  ownName data outer inner = Some name.
Proof.
  unfold ownName. intros Hnd Hin Hname.
  induction (entriesOf data outer) as [|[k v] l IH]; [by apply elem_of_nil in Hin|].
  cbn [map fst] in Hnd. apply NoDup_cons in Hnd as [Hk Hnd].
  cbn [find fst]. apply elem_of_cons in Hin as [[= <- <-] | Hin].
  - rewrite str_eqb_refl. by apply truthy_true in Hname as ->.
  - destruct (str_eqb k inner) eqn:E; [|by apply IH].
    apply str_eqb_eq in E as ->. exfalso. apply Hk.
    apply list_elem_of_fmap. by exists (inner, JString name).
Qed.

Lemma hasOwn_entries data outer e :
  e ∈ entriesOf data outer -> hasOwn data outer = true.
Proof.
  unfold entriesOf, hasOwn.
  destruct (find _ data); [done | intros H; by apply elem_of_nil in H].
Qed.

Lemma inheritedMethod_own data outer :
  hasOwn data outer = true -> inheritedMethod data outer = None.
Proof. unfold inheritedMethod. by intros ->. Qed.

Lemma inheritedMethod_root data : inheritedMethod data (lit "0000") = None.
Proof.
  unfold inheritedMethod. destruct (hasOwn data _); [done|].
  vm_compute. reflexivity.
Qed.

(** Under a code that leads to no inherited method only own properties
    are read, and nothing throws. *)
Lemma nameUnder_own data outer inner :
  inheritedMethod data outer = None ->
  nameUnder data outer inner = Normal (ownName data outer inner).
Proof.
  unfold nameUnder. intros ->. destruct (hasOwn data outer) eqn:E; [done|].
  unfold ownName, entriesOf. unfold hasOwn in E.
  by destruct (find _ data).
Qed.

Lemma nameUnder_throw data outer inner :
  nameUnder data outer inner = Throw ->
  throwingCode inner /\ is_Some (inheritedMethod data outer).
Proof.
  unfold nameUnder, throwingCode. destruct (hasOwn data outer); [discriminate|].
  destruct (inheritedMethod data outer) as [f|]; [|discriminate].
  destruct (str_eqb inner s_name); [discriminate|].
  destruct (str_eqb inner s_caller) eqn:E1.
  { apply str_eqb_eq in E1. intros _. split; [by left | by eexists]. }
  destruct (str_eqb inner s_arguments) eqn:E2; [|discriminate].
  apply str_eqb_eq in E2. intros _. split; [by right | by eexists].
Qed.

Lemma plainKeys_spec data outer k v :
  plainKeys data = true -> (k, v) ∈ entriesOf data outer ->
  inheritedMethod data k = None.
Proof.
  unfold plainKeys, entriesOf. intros H Hin.
  destruct (find _ data) as [obj|] eqn:E; [|by apply elem_of_nil in Hin].
  apply find_some in E as [Hobj _].
  rewrite forallb_forall in H. specialize (H _ Hobj).
  rewrite forallb_forall in H. apply list_elem_of_In in Hin.
  specialize (H _ Hin). cbn [fst] in H.
  by destruct (inheritedMethod data k).
Qed.

Lemma bestOf_elem {V} normalizedInput (passes : V -> bool) (m : OMap V) v :
  bestOf normalizedInput passes m = Some v ->
  exists k, (k, v) ∈ m /\ passes v = true
            /\ (0.8 <=? similarity normalizedInput (normalizeName k))%float = true.
Proof.
  unfold bestOf.
  set (good := fun b : V * float =>
         exists k, (k, fst b) ∈ m /\ passes (fst b) = true
                   /\ (0.8 <=? similarity normalizedInput (normalizeName k))%float
                      = true).
  assert (forall best,
            (forall b, best = Some b -> good b) ->
            forall l, (forall e, e ∈ l -> e ∈ m) ->
            forall b, fold_left (bestStep normalizedInput passes) l best = Some b ->
            good b) as H.
  { intros best Hbest l. revert best Hbest.
    induction l as [|[k x] l IH]; intros best Hbest Hl b; cbn [fold_left].
    - apply Hbest.
    - apply IH; [|intros e He; apply Hl; by right].
      intros b'. unfold bestStep. cbn [fst snd].
      destruct (passes x) eqn:Ex; [|apply Hbest].
      destruct (0.8 <=? similarity normalizedInput (normalizeName k))%float
        eqn:Es; [|apply Hbest].
      cbn [andb]. destruct (match best with Some _ => _ | None => _ end);
        [|apply Hbest].
      intros [= <-]. exists k. split; [apply Hl; by left | done]. }
  destruct (fold_left _ m None) as [b|] eqn:E; [|discriminate].
  intros [= <-]. eapply (H None); [discriminate | | exact E]. done.
Qed.

(** The value that [matchProvince] returns: the lookup under ["0000"]
    reads own properties only and never throws. *)
Lemma matchProvince_eq data ix provinceName provinceCode :
  matchProvince data ix provinceName provinceCode
  = Normal
      match (if truthy provinceCode
             then ownName data (lit "0000") provinceCode else None) with
      | Some name => Some (provinceCode, name)
      | None =>
          match Map_get provinceName (provinces ix) with
          | Some exactMatch =>
              Some (PInfo.code exactMatch, PInfo.name exactMatch)
          | None =>
              match bestOf (normalizeName provinceName) (fun _ => true)
                      (provinces ix) with
              | Some bestMatch =>
                  Some (PInfo.code bestMatch, PInfo.name bestMatch)
              | None => None
              end
          end
      end.
Proof.
  unfold matchProvince.
  rewrite (nameUnder_own data _ _ (inheritedMethod_root data)).
  by destruct (truthy provinceCode).
Qed.

Lemma matchProvince_sound data ix provinceName provinceCode pc pn :
  indexSound data ix ->
  matchProvince data ix provinceName provinceCode = Normal (Some (pc, pn)) ->
  (pc, JString pn) ∈ entriesOf data (lit "0000")
  /\ justified provinceName provinceCode pc pn.
Proof.
  intros (Hp & _ & _) H. rewrite matchProvince_eq in H. injection H as H.
  rewrite Forall_forall in Hp. unfold justified.
  destruct (if truthy provinceCode then _ else None) as [name|] eqn:E1.
  - injection H as <- <-. destruct (truthy provinceCode) eqn:T; [|discriminate].
    apply ownName_elem in E1 as [? _]. split; [done|].
    left. by apply truthy_true in T.
  - destruct (Map_get provinceName (provinces ix)) as [info|] eqn:E2.
    + injection H as <- <-. apply Map_get_elem in E2.
      apply Hp in E2 as [E2 ?]. split; [done|]. right; left. exact E2.
    + destruct (bestOf _ _ _) as [info|] eqn:E3; [|discriminate].
      injection H as <- <-. apply bestOf_elem in E3 as (k & Hk & _ & Hs).
      apply Hp in Hk as [Hk ?]. cbn [fst snd] in Hk. split; [done|].
      right; right. by rewrite Hk.
Qed.

(** [matchCity] throws only on the two throwing property names. *)
Lemma matchCity_throw data ix cityName cityCode provinceCode :
  matchCity data ix cityName cityCode provinceCode = Throw ->
  throwingCode cityCode.
Proof.
  unfold matchCity.
  destruct (truthy cityCode && truthy provinceCode); [|discriminate].
  destruct (nameUnder data provinceCode cityCode) eqn:E; [discriminate|].
  intros _. by apply nameUnder_throw in E as [? _].
Qed.

Lemma matchDistrict_throw data ix districtName districtCode provinceCode
    cityCode :
  matchDistrict data ix districtName districtCode provinceCode cityCode = Throw ->
  throwingCode districtCode.
Proof.
  unfold matchDistrict.
  destruct (truthy districtCode && truthy cityCode); [|discriminate].
  destruct (nameUnder data cityCode districtCode) eqn:E; [discriminate|].
  intros _. by apply nameUnder_throw in E as [? _].
Qed.

(** Whatever the lookup by code returns, a city comes with the row's code,
    the row's name or a similar normalised name. *)
Lemma matchCity_justified data ix cityName cityCode provinceCode cc cn :
  indexSound data ix ->
  matchCity data ix cityName cityCode provinceCode = Normal (Some (cc, cn)) ->
  justified cityName cityCode cc cn.
Proof.
  intros (_ & Hc & _) H. unfold matchCity in H.
  rewrite Forall_forall in Hc. unfold justified.
  destruct (if truthy cityCode && truthy provinceCode then _ else Normal None)
    as [[name|]|] eqn:E1; cbn [bind] in H; [| |discriminate].
  - injection H as <- <-. destruct (truthy cityCode) eqn:T; [|discriminate].
    left. by apply truthy_true in T.
  - injection H as H.
    destruct (if truthy provinceCode then _ else None) as [[k info]|] eqn:E2.
    + injection H as <- <-. destruct (truthy provinceCode); [|discriminate].
      apply find_some in E2 as [Hin Hk].
      cbn [fst snd] in *. apply andb_true_iff in Hk as [_ Hk].
      apply str_eqb_eq in Hk. apply list_elem_of_In, Hc in Hin as [Hin _].
      cbn [fst snd] in Hin. right; left. congruence.
    + cbv zeta in H. destruct (bestOf _ _ _) as [info|] eqn:E3; [|discriminate].
      injection H as <- <-. apply bestOf_elem in E3 as (k & Hk & _ & Hs).
      apply Hc in Hk as [Hk _]. cbn [fst snd] in Hk. right; right.
      by rewrite Hk.
Qed.

Lemma matchDistrict_justified data ix districtName districtCode provinceCode
    cityCode dc dn :
  indexSound data ix ->
  matchDistrict data ix districtName districtCode provinceCode cityCode
    = Normal (Some (dc, dn)) ->
  justified districtName districtCode dc dn.
Proof.
  intros (_ & _ & Hd) H. unfold matchDistrict in H.
  rewrite Forall_forall in Hd. unfold justified.
  destruct (if truthy districtCode && truthy cityCode then _ else Normal None)
    as [[name|]|] eqn:E1; cbn [bind] in H; [| |discriminate].
  - injection H as <- <-. destruct (truthy districtCode) eqn:T; [|discriminate].
    left. by apply truthy_true in T.
  - injection H as H.
    destruct (if truthy cityCode then _ else None) as [[k info]|] eqn:E2.
    + injection H as <- <-. destruct (truthy cityCode); [|discriminate].
      apply find_some in E2 as [Hin Hk].
      cbn [fst snd] in *. apply andb_true_iff in Hk as [_ Hk].
      apply str_eqb_eq in Hk. apply list_elem_of_In, Hd in Hin as [Hin _].
      cbn [fst snd] in Hin. right; left. congruence.
    + cbv zeta in H. destruct (bestOf _ _ _) as [info|] eqn:E3; [|discriminate].
      injection H as <- <-. apply bestOf_elem in E3 as (k & Hk & _ & Hs).
      apply Hd in Hk as [Hk _]. cbn [fst snd] in Hk. right; right.
      by rewrite Hk.
Qed.

(** Under a parent code that leads to no inherited method, [matchCity]
    and [matchDistrict] return, and what they return is a property of the
    parent. *)
Lemma matchCity_returns data ix cityName cityCode provinceCode :
  inheritedMethod data provinceCode = None ->
  exists res, matchCity data ix cityName cityCode provinceCode = Normal res.
Proof.
  intros Hplain. unfold matchCity. rewrite (nameUnder_own data _ _ Hplain).
  destruct (truthy cityCode && truthy provinceCode); cbn [bind];
    eexists; reflexivity.
Qed.

Lemma matchDistrict_returns data ix districtName districtCode provinceCode
    cityCode :
  inheritedMethod data cityCode = None ->
  exists res,
    matchDistrict data ix districtName districtCode provinceCode cityCode
    = Normal res.
Proof.
  intros Hplain. unfold matchDistrict. rewrite (nameUnder_own data _ _ Hplain).
  destruct (truthy districtCode && truthy cityCode); cbn [bind];
    eexists; reflexivity.
Qed.

Lemma matchCity_sound data ix cityName cityCode provinceCode cc cn :
  indexSound data ix -> truthy provinceCode = true ->
  inheritedMethod data provinceCode = None ->
  matchCity data ix cityName cityCode provinceCode = Normal (Some (cc, cn)) ->
  (cc, JString cn) ∈ entriesOf data provinceCode.
Proof.
  intros (_ & Hc & _) Hpc Hplain H. unfold matchCity in H.
  rewrite (nameUnder_own data _ _ Hplain), Hpc in H.
  rewrite Forall_forall in Hc.
  assert (match (if truthy cityCode && true
                 then ownName data provinceCode cityCode else None) with
          | Some name => Some (cityCode, name)
          | None =>
              match find (fun e => str_eqb (CInfo.provinceCode (snd e)) provinceCode
                                   && str_eqb (fst e) cityName) (cities ix) with
              | Some e => Some (CInfo.code (snd e), CInfo.name (snd e))
              | None =>
                  match bestOf (normalizeName cityName)
                          (fun info => negb true
                             || str_eqb (CInfo.provinceCode info) provinceCode)
                          (cities ix) with
                  | Some bestMatch =>
                      Some (CInfo.code bestMatch, CInfo.name bestMatch)
                  | None => None
                  end
              end
          end = Some (cc, cn)) as H'.
  { destruct (truthy cityCode && true); cbn [bind] in H; by injection H. }
  clear H. rename H' into H.
  destruct (if truthy cityCode && true then _ else None) as [name|] eqn:E1.
  - injection H as <- <-. destruct (truthy cityCode && true); [|discriminate].
    by apply ownName_elem in E1 as [? _].
  - destruct (find _ (cities ix)) as [[k info]|] eqn:E2.
    + injection H as <- <-. apply find_some in E2 as [Hin Hk].
      cbn [fst snd] in *. apply andb_true_iff in Hk as [Hk _].
      apply str_eqb_eq in Hk. apply list_elem_of_In, Hc in Hin as [_ Hin].
      cbn [snd] in Hin. by rewrite Hk in Hin.
    + destruct (bestOf _ _ _) as [info|] eqn:E3; [|discriminate].
      injection H as <- <-. apply bestOf_elem in E3 as (k & Hk & Hpass & _).
      cbn [negb orb] in Hpass. apply str_eqb_eq in Hpass.
      apply Hc in Hk as [_ Hk]. cbn [snd] in Hk. by rewrite Hpass in Hk.
Qed.

Lemma matchDistrict_sound data ix districtName districtCode provinceCode
    cityCode dc dn :
  indexSound data ix -> truthy cityCode = true ->
  inheritedMethod data cityCode = None ->
  matchDistrict data ix districtName districtCode provinceCode cityCode
    = Normal (Some (dc, dn)) ->
  (dc, JString dn) ∈ entriesOf data cityCode.
Proof.
  intros (_ & _ & Hd) Hcc Hplain H. unfold matchDistrict in H.
  rewrite (nameUnder_own data _ _ Hplain), Hcc in H.
  rewrite Forall_forall in Hd.
  assert (match (if truthy districtCode && true
                 then ownName data cityCode districtCode else None) with
          | Some name => Some (districtCode, name)
          | None =>
              match find (fun e => str_eqb (DInfo.cityCode (snd e)) cityCode
                                   && str_eqb (fst e) districtName)
                      (districts ix) with
              | Some e => Some (DInfo.code (snd e), DInfo.name (snd e))
              | None =>
                  match bestOf (normalizeName districtName)
                          (fun info =>
                             (negb true || str_eqb (DInfo.cityCode info) cityCode)
                             && (negb (truthy provinceCode)
                                 || str_eqb (DInfo.provinceCode info) provinceCode))
                          (districts ix) with
                  | Some bestMatch =>
                      Some (DInfo.code bestMatch, DInfo.name bestMatch)
                  | None => None
                  end
              end
          end = Some (dc, dn)) as H'.
  { destruct (truthy districtCode && true); cbn [bind] in H; by injection H. }
  clear H. rename H' into H.
  destruct (if truthy districtCode && true then _ else None) as [name|] eqn:E1.
  - injection H as <- <-. destruct (truthy districtCode && true); [|discriminate].
    by apply ownName_elem in E1 as [? _].
  - destruct (find _ (districts ix)) as [[k info]|] eqn:E2.
    + injection H as <- <-. apply find_some in E2 as [Hin Hk].
      cbn [fst snd] in *. apply andb_true_iff in Hk as [Hk _].
      apply str_eqb_eq in Hk. apply list_elem_of_In, Hd in Hin as [_ Hin].
      cbn [snd] in Hin. by rewrite Hk in Hin.
    + destruct (bestOf _ _ _) as [info|] eqn:E3; [|discriminate].
      injection H as <- <-. apply bestOf_elem in E3 as (k & Hk & Hpass & _).
      cbn [negb orb] in Hpass. apply andb_true_iff in Hpass as [Hpass _].
      apply str_eqb_eq in Hpass.
      apply Hd in Hk as [_ Hk]. cbn [snd] in Hk. by rewrite Hpass in Hk.
Qed.

(** [match] is its three lookups in order, then the record. *)
Lemma matchForward_eq data ix input :
  matchForward data ix input
  = let! provinceMatch :=
      matchProvince data ix (省份名称 input) (省份编码 input) in
    let! cityMatch := cityLookup data ix input provinceMatch in
    let! districtMatch :=
      districtLookup data ix input provinceMatch cityMatch in
    Normal (forwardResult input provinceMatch cityMatch districtMatch).
Proof.
  unfold matchForward, cityLookup, districtLookup, forwardResult. cbv zeta.
  destruct (matchProvince data ix _ _) as [[pm|]|]; cbn [bind]; [| |done].
  - destruct (if truthyField _ then _ else Normal None) as [[cm|]|];
      cbn [bind]; [| |done].
    + by destruct (if truthyField _ then _ else Normal None) as [[dm|]|].
    + by destruct (if truthyField _ then _ else Normal None) as [[dm|]|].
  - destruct (if truthyField _ then _ else Normal None) as [[cm|]|];
      cbn [bind]; [| |done].
    + by destruct (if truthyField _ then _ else Normal None) as [[dm|]|].
    + by destruct (if truthyField _ then _ else Normal None) as [[dm|]|].
Qed.

Lemma forwardResult_junbo input pm cm dm :
  MR.junbo (forwardResult input pm cm dm)
  = {| JA.provinceCode := option_map fst pm;
       JA.provinceName := option_map snd pm;
       JA.cityCode := option_map fst cm;
       JA.cityName := option_map snd cm;
       JA.districtCode := option_map fst dm;
       JA.districtName := option_map snd dm |}.
Proof. unfold forwardResult. by destruct pm, cm, dm. Qed.

(** How [match] ends: it throws at the city or the district lookup, or
    its three lookups return and it returns the record built from them;
    a level is looked up only under a truthy code of the level above. *)
Lemma matchForward_cases data ix input :
  match matchForward data ix input with
  | Throw => throwingCode (地市编码 input) \/ throwingCode (区县编码 input)
  | Normal r =>
      exists pm cm dm,
        r = forwardResult input pm cm dm
        /\ matchProvince data ix (省份名称 input) (省份编码 input) = Normal pm
        /\ cityLookup data ix input pm = Normal cm
        /\ districtLookup data ix input pm cm = Normal dm
  end.
Proof.
  rewrite matchForward_eq. cbv zeta.
  destruct (matchProvince data ix _ _) as [pm|] eqn:Ep; cbn [bind].
  2:{ rewrite matchProvince_eq in Ep. discriminate. }
  destruct (cityLookup data ix input pm) as [cm|] eqn:Ec; cbn [bind].
  2:{ left. unfold cityLookup in Ec.
      destruct (truthyField _); [|discriminate]. by apply matchCity_throw in Ec. }
  destruct (districtLookup data ix input pm cm) as [dm|] eqn:Ed; cbn [bind].
  2:{ right. unfold districtLookup in Ed.
      destruct (truthyField _); [|discriminate].
      by apply matchDistrict_throw in Ed. }
  by exists pm, cm, dm.
Qed.

Lemma cityLookup_Some data ix input pm cm :
  cityLookup data ix input pm = Normal (Some cm) ->
  exists pc pn, pm = Some (pc, pn) /\ truthy pc = true
    /\ matchCity data ix (地市名称 input) (地市编码 input) pc = Normal (Some cm).
Proof.
  unfold cityLookup. destruct pm as [[pc pn]|]; cbn; [|discriminate].
  destruct (truthy pc) eqn:E; [|discriminate]. intros H. by exists pc, pn.
Qed.

Lemma districtLookup_Some data ix input pm cm dm :
  districtLookup data ix input pm cm = Normal (Some dm) ->
  exists cc cn, cm = Some (cc, cn) /\ truthy cc = true
    /\ matchDistrict data ix (区县名称 input) (区县编码 input)
         (default [] (option_map fst pm)) cc = Normal (Some dm).
Proof.
  unfold districtLookup. destruct cm as [[cc cn]|]; cbn; [|discriminate].
  destruct (truthy cc) eqn:E; [|discriminate]. intros H. by exists cc, cn.
Qed.

(** X16: on a catalog none of whose property names leads to a method of
    [Object.prototype], [match] returns, and what it returns, with the index
    built from the same catalog, is a path of the catalog: a province it
    reports is a string-valued property under ["0000"], a city is reported
    only with a province and is a property under that province's code, a
    district only with a city and is a property under that city's code; a
    result with all three levels is an entry of the catalog walk. *)
Theorem matchForward_path (data : JunboAddressData) (input : OperAddressInput) :
  plainKeys data = true ->
  exists r,
    matchForward data (buildIndex data) input = Normal r
    /\ let junbo := MR.junbo r in
       (forall pc, JA.provinceCode junbo = Some pc ->
          exists pn, JA.provinceName junbo = Some pn
                     /\ (pc, JString pn) ∈ entriesOf data (lit "0000"))
       /\ (forall cc, JA.cityCode junbo = Some cc ->
             exists pc cn, JA.provinceCode junbo = Some pc
                           /\ JA.cityName junbo = Some cn
                           /\ (cc, JString cn) ∈ entriesOf data pc)
       /\ (forall dc, JA.districtCode junbo = Some dc ->
             exists pc pn cc cn dn,
               JA.provinceCode junbo = Some pc /\ JA.provinceName junbo = Some pn
               /\ JA.cityCode junbo = Some cc /\ JA.cityName junbo = Some cn
               /\ JA.districtName junbo = Some dn
               /\ (dc, JString dn) ∈ entriesOf data cc
               /\ {| provinceCode := pc; provinceName := pn; cityCode := cc;
                     cityName := cn; districtCode := dc; districtName := dn |}
                  ∈ walkCatalog data).
Proof.
  intros Hplain. pose proof (buildIndex_sound data) as Hix.
  set (ix := buildIndex data) in *.
  rewrite matchForward_eq. cbv zeta. rewrite matchProvince_eq. cbn [bind].
  pose proof (matchProvince_eq data ix (省份名称 input) (省份编码 input)) as Ep.
  set (pm := match (if truthy (省份编码 input) then _ else None) with
             | Some name => _ | None => _ end) in *.
  assert (forall pc pn, pm = Some (pc, pn) ->
            (pc, JString pn) ∈ entriesOf data (lit "0000")) as Hp.
  { intros pc pn E. rewrite E in Ep.
    by apply (matchProvince_sound data ix) in Ep as [? _]. }
  clearbody pm.
  assert (exists cm, cityLookup data ix input pm = Normal cm
            /\ forall cc cn, cm = Some (cc, cn) ->
                 exists pc pn, pm = Some (pc, pn)
                   /\ (cc, JString cn) ∈ entriesOf data pc) as (cm & Ec & Hc).
  { unfold cityLookup. destruct pm as [[pc pn]|]; cbn [option_map fst truthyField].
    2:{ exists None. split; [done|]. discriminate. }
    destruct (truthy pc) eqn:Tpc.
    2:{ exists None. split; [done|]. discriminate. }
    cbn [from_option id].
    pose proof (plainKeys_spec _ _ _ _ Hplain (Hp pc pn eq_refl)) as Hk.
    destruct (matchCity_returns data ix (地市名称 input) (地市编码 input) pc Hk)
      as (res & Eres).
    exists res. split; [exact Eres|]. intros cc cn ->. exists pc, pn.
    split; [done|]. by eapply matchCity_sound. }
  rewrite Ec. cbn [bind].
  assert (exists dm, districtLookup data ix input pm cm = Normal dm
            /\ forall dc dn, dm = Some (dc, dn) ->
                 exists cc cn, cm = Some (cc, cn)
                   /\ (dc, JString dn) ∈ entriesOf data cc) as (dm & Ed & Hd).
  { unfold districtLookup.
    destruct cm as [[cc cn]|]; cbn [option_map fst truthyField].
    2:{ exists None. split; [done|]. discriminate. }
    destruct (truthy cc) eqn:Tcc.
    2:{ exists None. split; [done|]. discriminate. }
    cbn [from_option id].
    destruct (Hc cc cn eq_refl) as (pc & pn & _ & Hin).
    pose proof (plainKeys_spec _ _ _ _ Hplain Hin) as Hk.
    destruct (matchDistrict_returns data ix (区县名称 input) (区县编码 input)
                (default [] (option_map fst pm)) cc Hk) as (res & Eres).
    exists res. split; [exact Eres|]. intros dc dn ->. exists cc, cn.
    split; [done|]. by eapply matchDistrict_sound. }
  rewrite Ed. cbn [bind]. eexists. split; [reflexivity|].
  cbv zeta. rewrite forwardResult_junbo.
  cbn [JA.provinceCode JA.provinceName JA.cityCode JA.cityName
       JA.districtCode JA.districtName].
  split; [|split].
  - intros pc E. destruct pm as [[pc' pn]|]; [|discriminate].
    injection E as <-. exists pn. split; [done|]. by apply Hp.
  - intros cc E. destruct cm as [[cc' cn]|]; [|discriminate].
    injection E as <-. destruct (Hc cc' cn eq_refl) as (pc & pn & -> & Hin).
    by exists pc, cn.
  - intros dc E. destruct dm as [[dc' dn]|]; [|discriminate].
    injection E as <-. destruct (Hd dc' dn eq_refl) as (cc & cn & -> & Hind).
    destruct (Hc cc cn eq_refl) as (pc & pn & -> & Hinc).
    exists pc, pn, cc, cn, dn. repeat split; try done.
    apply walkCatalog_spec. cbn. split; [by apply Hp | done].
Qed.

Lemma matchForward_path_witness :
  matchForward Fixtures.catalog (buildIndex Fixtures.catalog)
    (Fixtures.row "" "1002" "" "2002" "天山区" "")
  = Normal {| MR.junbo := junboOf Fixtures.tianshan;
              MR.matchScore := (0 + 0.33 + 0.33 + 0.34)%float;
              MR.matchMethod := m_code; MR.confidence := c_high |}
  /\ Fixtures.tianshan ∈ walkCatalog Fixtures.catalog.
Proof.
  destruct (matchForward_path Fixtures.catalog
              (Fixtures.row "" "1002" "" "2002" "天山区" ""))
    as (r & Er & _ & _ & Hd); [vm_compute; reflexivity|].
  assert (matchForward Fixtures.catalog (buildIndex Fixtures.catalog)
            (Fixtures.row "" "1002" "" "2002" "天山区" "")
          = Normal {| MR.junbo := junboOf Fixtures.tianshan;
                      MR.matchScore := (0 + 0.33 + 0.33 + 0.34)%float;
                      MR.matchMethod := m_code; MR.confidence := c_high |})
    as Er' by (vm_compute; reflexivity).
  split; [exact Er'|].
  rewrite Er' in Er. injection Er as <-.
  unfold junboOf in Hd.
  cbn [MR.junbo JA.provinceCode JA.provinceName JA.cityCode JA.cityName
       JA.districtCode JA.districtName] in Hd.
  destruct (Hd _ eq_refl)
    as (pc & pn & cc & cn & dn & E1 & E2 & E3 & E4 & E5 & _ & Hw).
  injection E1 as <-. injection E2 as <-. injection E3 as <-.
  injection E4 as <-. injection E5 as <-. exact Hw.
Defined.

(** Where that proviso fails.  The province code [constructor] is no
    own property of this catalog, so the city lookup reads the built-in
    function [Object]: a row with the city code [name] is given the city
    [Object], which is in no object of the catalog, and a row with the city
    code [caller] makes [match] throw. *)
Example matchForward_inherited :
  let data : JunboAddressData :=
    [ (lit "0000", Fixtures.object [("constructor", "P省")]%string) ] in
  plainKeys data = false
  /\ option_map (fun r => (JA.cityCode (MR.junbo r), JA.cityName (MR.junbo r),
                           MR.confidence r))
       (match matchForward data (buildIndex data)
                (Fixtures.row "" "constructor" "" "name" "" "") with
        | Normal r => Some r
        | Throw => None
        end)
     = Some (Some (lit "name"), Some (lit "Object"), c_medium)
  /\ matchForward data (buildIndex data)
       (Fixtures.row "" "constructor" "" "caller" "" "") = Throw.
Proof. vm_compute. repeat split; reflexivity. Qed.

Lemma truthyField_Some (field : option jsstring) :
  truthyField field = true -> exists s, field = Some s /\ truthy s = true.
Proof. destruct field as [s|]; [|discriminate]. intros H. by exists s. Qed.

Lemma forwardMethod_province inputCode inputName matched :
  forwardMethod true inputCode inputName matched m_none <> m_none.
Proof.
  unfold forwardMethod, methodIf.
  destruct (_ && _); [discriminate|]. by destruct (str_eqb _ _).
Qed.

Lemma forwardMethod_keeps inputCode inputName matched method :
  method <> m_none ->
  forwardMethod false inputCode inputName matched method = method.
Proof.
  unfold forwardMethod, methodIf. intros Hm.
  destruct (truthy inputCode && _); [by destruct method|].
  destruct (str_eqb inputName _); by destruct method.
Qed.

Lemma cityLookup_None data ix input :
  cityLookup data ix input None = Normal None.
Proof. reflexivity. Qed.

Lemma districtLookup_None data ix input pm :
  districtLookup data ix input pm None = Normal None.
Proof. reflexivity. Qed.

(** X17: for any index, [match] either throws, which it does only for a
    row whose city or district code is [caller] or [arguments], or returns
    a record whose confidence tells how deep the match went: [high]
    exactly when a district was matched, [medium] when a city but no
    district, [low] when a province but no city, [none] when nothing was
    matched; and the method of the record is the one the province level
    set, whatever the lower levels matched by. *)
Theorem matchForward_confidence (data : JunboAddressData) (index : AddressIndex)
    (input : OperAddressInput) :
  match matchForward data index input with
  | Normal r =>
      let junbo := MR.junbo r in
      match MR.confidence r with
      | c_high => is_Some (JA.districtCode junbo) /\ is_Some (JA.cityCode junbo)
                  /\ is_Some (JA.provinceCode junbo)
      | c_medium => JA.districtCode junbo = None /\ is_Some (JA.cityCode junbo)
                    /\ is_Some (JA.provinceCode junbo)
      | c_low => JA.districtCode junbo = None /\ JA.cityCode junbo = None
                 /\ is_Some (JA.provinceCode junbo)
      | c_none => JA.districtCode junbo = None /\ JA.cityCode junbo = None
                  /\ JA.provinceCode junbo = None
      end
      /\ exists provinceMatch,
           matchProvince data index (省份名称 input) (省份编码 input)
           = Normal provinceMatch
           /\ MR.matchMethod r
              = match provinceMatch with
                | Some pm =>
                    forwardMethod true (省份编码 input) (省份名称 input) pm m_none
                | None => m_none
                end
  | Throw => throwingCode (地市编码 input) \/ throwingCode (区县编码 input)
  end.
Proof.
  pose proof (matchForward_cases data index input) as H.
  destruct (matchForward data index input) as [r|]; [|exact H].
  destruct H as (pm & cm & dm & -> & Ep & Ec & Ed).
  cbv zeta. rewrite forwardResult_junbo.
  cbn [JA.provinceCode JA.cityCode JA.districtCode].
  destruct pm as [[pc pn]|].
  2:{ rewrite cityLookup_None in Ec. injection Ec as <-.
      rewrite districtLookup_None in Ed. injection Ed as <-.
      split; [by vm_compute|]. by exists None. }
  pose proof (forwardMethod_province (省份编码 input) (省份名称 input) (pc, pn))
    as Hm.
  destruct cm as [[cc cn]|].
  2:{ rewrite districtLookup_None in Ed. injection Ed as <-.
      unfold forwardResult. cbn [MR.confidence MR.matchMethod option_map].
      replace (confidenceOf (0 + 0.33)) with c_low by (by vm_compute).
      split; [by repeat split|]. by exists (Some (pc, pn)). }
  destruct dm as [[dc dn]|];
    unfold forwardResult; cbn [MR.confidence MR.matchMethod option_map].
  - replace (confidenceOf (0 + 0.33 + 0.33 + 0.34)) with c_high
      by (by vm_compute).
    split; [by repeat split|]. exists (Some (pc, pn)). split; [done|].
    by rewrite (forwardMethod_keeps _ _ _ _ Hm), (forwardMethod_keeps _ _ _ _ Hm).
  - replace (confidenceOf (0 + 0.33 + 0.33)) with c_medium by (by vm_compute).
    split; [by repeat split|]. exists (Some (pc, pn)). split; [done|].
    by rewrite (forwardMethod_keeps _ _ _ _ Hm).
Qed.

(** X19: the forward matcher resolves an entry of the catalog from its
    three codes alone.  When the row's codes are those of an entry of the
    walk, the codes and names of the entry are non-empty and the three
    objects looked into have no repeated key, [match] returns, and the
    result is that entry with method [code] and confidence [high],
    whatever the row's names and whatever the index holds. *)
Theorem matchForward_by_code (data : JunboAddressData) (index : AddressIndex)
    (input : OperAddressInput) (e : JunboEntry) :
  e ∈ walkCatalog data ->
  NoDup (map fst (entriesOf data (lit "0000"))) ->
  NoDup (map fst (entriesOf data (provinceCode e))) ->
  NoDup (map fst (entriesOf data (cityCode e))) ->
  省份编码 input = provinceCode e ->
  地市编码 input = cityCode e ->
  区县编码 input = districtCode e ->
  provinceCode e <> [] /\ cityCode e <> [] /\ districtCode e <> [] ->
  provinceName e <> [] /\ cityName e <> [] /\ districtName e <> [] ->
  exists r,
    matchForward data index input = Normal r
    /\ MR.junbo r = junboOf e /\ MR.matchMethod r = m_code
    /\ MR.confidence r = c_high.
Proof.
  intros He Hn0 Hn1 Hn2 Hpc Hcc Hdc (Tp & Tc & Td) (Np & Nc & Nd).
  apply walkCatalog_spec in He as (Hp & Hc & Hd).
  apply truthy_true in Tp, Tc, Td.
  pose proof (ownName_of_elem _ _ _ _ Hn0 Hp Np) as Ep.
  pose proof (ownName_of_elem _ _ _ _ Hn1 Hc Nc) as Ec.
  pose proof (ownName_of_elem _ _ _ _ Hn2 Hd Nd) as Ed.
  pose proof (inheritedMethod_own _ _ (hasOwn_entries _ _ _ Hc)) as Ic.
  pose proof (inheritedMethod_own _ _ (hasOwn_entries _ _ _ Hd)) as Id.
  rewrite matchForward_eq. cbv zeta.
  rewrite matchProvince_eq, Hpc, Tp, Ep. cbn [bind].
  unfold cityLookup. cbn [option_map fst truthyField from_option id].
  rewrite Tp. unfold matchCity.
  rewrite (nameUnder_own data _ _ Ic), Hcc, Tc, Tp. cbn [andb bind].
  rewrite Ec. cbn [bind].
  unfold districtLookup. cbn [option_map fst truthyField from_option id].
  rewrite Tc. unfold matchDistrict.
  rewrite (nameUnder_own data _ _ Id), Hdc, Td, Tc. cbn [andb bind].
  rewrite Ed. cbn [bind].
  eexists. split; [reflexivity|].
  rewrite forwardResult_junbo. split; [reflexivity|].
  unfold forwardResult. cbn [MR.matchMethod MR.confidence].
  unfold forwardMethod. cbn [fst snd].
  rewrite Hpc, Hcc, Hdc, Tp, Tc, Td, !str_eqb_refl.
  cbn [andb methodIf]. split; [done|]. by vm_compute.
Qed.

Lemma matchForward_by_code_witness :
  exists r,
    matchForward Fixtures.catalog emptyIndex
      (Fixtures.row "" "1002" "" "2002" "" "3010") = Normal r
    /\ MR.junbo r = junboOf Fixtures.tianshan /\ MR.matchMethod r = m_code
    /\ MR.confidence r = c_high.
Proof.
  apply (matchForward_by_code Fixtures.catalog emptyIndex
           (Fixtures.row "" "1002" "" "2002" "" "3010") Fixtures.tianshan).
  - apply list_elem_of_In. vm_compute. tauto.
  - vm_compute. repeat constructor; not_in_compute.
  - vm_compute. repeat constructor; not_in_compute.
  - vm_compute. repeat constructor; not_in_compute.
  - by vm_compute.
  - by vm_compute.
  - by vm_compute.
  - vm_compute. repeat split; discriminate.
  - vm_compute. repeat split; discriminate.
Defined.

(** X20: every level of a forward result is justified by the row.  With
    the index built from the catalog, [match] either throws, which it does
    only for a row whose city or district code is [caller] or [arguments],
    or returns a record in which the province, the city and the district
    reported each either carry the row's non-empty code, or have exactly
    the row's name, or have a normalised name whose similarity to the row's
    normalised name is at least 0.8. *)
Theorem matchForward_justified (data : JunboAddressData)
    (input : OperAddressInput) :
  match matchForward data (buildIndex data) input with
  | Normal r =>
      let junbo := MR.junbo r in
      from_option (fun pn =>
          justified (省份名称 input) (省份编码 input)
            (default [] (JA.provinceCode junbo)) pn) True (JA.provinceName junbo)
      /\ from_option (fun cn =>
             justified (地市名称 input) (地市编码 input)
               (default [] (JA.cityCode junbo)) cn) True (JA.cityName junbo)
      /\ from_option (fun dn =>
             justified (区县名称 input) (区县编码 input)
               (default [] (JA.districtCode junbo)) dn) True
           (JA.districtName junbo)
  | Throw => throwingCode (地市编码 input) \/ throwingCode (区县编码 input)
  end.
Proof.
  pose proof (buildIndex_sound data) as Hix.
  pose proof (matchForward_cases data (buildIndex data) input) as H.
  set (ix := buildIndex data) in *.
  destruct (matchForward data ix input) as [r|]; [|exact H].
  destruct H as (pm & cm & dm & -> & Ep & Ec & Ed).
  cbv zeta. rewrite forwardResult_junbo.
  cbn [JA.provinceCode JA.provinceName JA.cityCode JA.cityName
       JA.districtCode JA.districtName].
  split; [|split].
  - destruct pm as [[pc pn]|]; [|done].
    cbn [option_map fst snd from_option id].
    by apply (matchProvince_sound data ix) in Ep as [_ ?].
  - destruct cm as [[cc cn]|]; [|done].
    cbn [option_map fst snd from_option id].
    apply cityLookup_Some in Ec as (pc & pn & _ & _ & Ec).
    by apply (matchCity_justified data ix) in Ec.
  - destruct dm as [[dc dn]|]; [|done].
    cbn [option_map fst snd from_option id].
    apply districtLookup_Some in Ed as (cc & cn & _ & _ & Ed).
    by apply (matchDistrict_justified data ix) in Ed.
Qed.

(* ------------------------------------------------------------------ *)
(** * Selection and containment at the level of rows and records *)

(** The flag [districtExactMatch] of the staged scoring of a row is set
    exactly for an exact-or-code district match. *)
Lemma districtExactMatch_meaning gn j (operInput : OperAddressInput) :
  districtExactMatch (scoreCandidate gn j operInput) = true
  <-> districtExactOrCode gn j operInput.
Proof. apply districtExactMatch_iff. Qed.

Lemma candidateOf_positive gn j (x : InputRef) :
  (0 <? score (scoreCandidate gn j (snd x)))%float = true ->
  exists c, candidateOf gn j x = Some c /\ Cand.input c = x
            /\ Cand.score c = score (scoreCandidate gn j (snd x))
            /\ Cand.method c = method (scoreCandidate gn j (snd x))
            /\ Cand.districtExactMatch c
               = districtExactMatch (scoreCandidate gn j (snd x)).
Proof.
  intros Hpos. unfold candidateOf. cbv zeta. rewrite Hpos.
  eexists. split; [reflexivity|]. by repeat split.
Qed.

(** C4: let some row of the candidate list score above zero for the
    entry.  Then [matchOperAddressFromJunboOptimized] returns one of the
    rows of the list that score above zero, with its staged score and
    method, and for every row [x] of the list that scores above zero: if
    [x] has an exact-or-code district match (the district agrees by
    non-empty code, name or normalised name under a matched city), so has
    the returned row, and it scores at least as much as [x]; and if the
    returned row has no such match, no row has one and it scores at least
    as much as [x].  So a row without such a match is never returned when
    some row has one, whatever their scores. *)
Theorem selection_prefers_exact_district
    (getNormalized : jsstring -> jsstring) (junboAddress : JunboEntry)
    (candidateInputs : list InputRef) (x : InputRef) :
  let r := matchOperAddressFromJunboOptimized getNormalized junboAddress
             candidateInputs in
  let st (y : InputRef) := scoreCandidate getNormalized junboAddress (snd y) in
  x ∈ candidateInputs ->
  (0 <? score (st x))%float = true ->
  exists best,
    best ∈ candidateInputs
    /\ (0 <? score (st best))%float = true
    /\ Res.matched r = Some best
    /\ Res.matchScore r = score (st best)
    /\ Res.matchMethod r = method (st best)
    /\ (districtExactOrCode getNormalized junboAddress (snd x) ->
        districtExactOrCode getNormalized junboAddress (snd best)
        /\ (score (st x) <=? score (st best))%float = true)
    /\ (~ districtExactOrCode getNormalized junboAddress (snd best) ->
        ~ districtExactOrCode getNormalized junboAddress (snd x)
        /\ (score (st x) <=? score (st best))%float = true).
Proof.
  intros r st Hx Hpos. subst st. cbv beta in *.
  destruct (candidateOf_positive _ _ _ Hpos) as (cx & Hcx & _ & Hsx & _ & Hfx).
  set (candidates := scoreCandidates getNormalized junboAddress candidateInputs).
  assert (cx ∈ candidates) as Hcxin
    by (apply elem_of_scoreCandidates; by exists x).
  assert (candidates <> []) as Hne
    by (intros E; rewrite E in Hcxin; by apply elem_of_nil in Hcxin).
  destruct (selectBest_spec candidates) as (cb & Hsel & Hin & Hexact & Hall);
    [apply scoreCandidates_positive | done |].
  apply elem_of_scoreCandidates in Hin as (best & Hbest & Hcb).
  pose proof Hcb as Hcb'.
  apply candidateOf_Some in Hcb' as (Hposb & Hinb & Hsb & Hmb & Hfb & _).
  assert (cb ∈ candidates) as Hcbin
    by (apply elem_of_scoreCandidates; by exists best).
  exists best. subst r. unfold matchOperAddressFromJunboOptimized.
  fold candidates. rewrite Hsel.
  cbn [Res.matched Res.matchScore Res.matchMethod option_map from_option].
  rewrite Hinb, Hsb, Hmb.
  split; [exact Hbest|]. split; [exact Hposb|].
  split; [reflexivity|]. split; [reflexivity|]. split; [reflexivity|].
  assert (districtExactOrCode getNormalized junboAddress (snd x) ->
          districtExactOrCode getNormalized junboAddress (snd best)
          /\ (score (scoreCandidate getNormalized junboAddress (snd x))
              <=? score (scoreCandidate getNormalized junboAddress (snd best)))%float
             = true) as Hfirst.
  { intros Hxe. apply districtExactMatch_meaning in Hxe.
    destruct Hexact as [Hbe Hmax]; [exists cx; split; [done | congruence]|].
    split.
    - apply districtExactMatch_meaning. congruence.
    - rewrite <- Hsx, <- Hsb. apply Hmax; [done | congruence]. }
  split; [exact Hfirst|].
  intros Hnb.
  assert (forall c, c ∈ candidates -> Cand.districtExactMatch c = false) as Hnone.
  { intros c Hc. destruct (Cand.districtExactMatch c) eqn:Ec; [|done].
    exfalso. apply Hnb. apply districtExactMatch_meaning.
    destruct Hexact as [Hbe _]; [by exists c|]. congruence. }
  split.
  - intros Hxe. by apply Hnb, Hfirst.
  - rewrite <- Hsx, <- Hsb. by apply Hall.
Qed.

(** On the two rows of [Fixtures] for 天山区 the row with the district name
    itself is returned although the row matched by both parent codes scores
    more (0.9375 against 0.975); and of two rows without an exact-or-code
    district match the higher-scoring one is returned. *)
Lemma selection_prefers_exact_district_witness :
  let score_of (y : InputRef) :=
    score (scoreCandidate getNormalized Fixtures.tianshan (snd y)) in
  (Res.matched (matchOperAddressFromJunboOptimized getNormalized
                  Fixtures.tianshan [Fixtures.rowByCodes; Fixtures.rowByNames])
   = Some Fixtures.rowByNames
   /\ (score_of Fixtures.rowByNames <? score_of Fixtures.rowByCodes)%float = true)
  /\ Res.matched (matchOperAddressFromJunboOptimized getNormalized
                    Fixtures.tianshan
                    [Fixtures.rowParentsOnly; Fixtures.rowByCodes])
     = Some Fixtures.rowByCodes.
Proof.
  intros score_of.
  assert (~ districtExactOrCode getNormalized Fixtures.tianshan
            (snd Fixtures.rowByCodes)) as HnoCodes.
  { intros [_ [[H _] | [[_ H] | (_ & _ & H)]]].
    - apply H. vm_compute. reflexivity.
    - vm_compute in H. discriminate.
    - vm_compute in H. discriminate. }
  assert (~ districtExactOrCode getNormalized Fixtures.tianshan
            (snd Fixtures.rowParentsOnly)) as HnoParents.
  { intros [_ [[H _] | [[H _] | (H & _)]]]; apply H; vm_compute; reflexivity. }
  assert (districtExactOrCode getNormalized Fixtures.tianshan
            (snd Fixtures.rowByNames)) as Hnames.
  { split; [vm_compute; reflexivity|]. right; left.
    split; [vm_compute; discriminate | vm_compute; reflexivity]. }
  split; [split|].
  - destruct (selection_prefers_exact_district getNormalized Fixtures.tianshan
                [Fixtures.rowByCodes; Fixtures.rowByNames] Fixtures.rowByNames)
      as (best & Hin & _ & Hm & _ & _ & Hexact & _).
    + right. left.
    + vm_compute. reflexivity.
    + destruct (Hexact Hnames) as [Hbest _].
      apply elem_of_cons in Hin as [-> | Hin]; [by destruct HnoCodes|].
      apply list_elem_of_singleton in Hin as ->. exact Hm.
  - vm_compute. reflexivity.
  - destruct (selection_prefers_exact_district getNormalized Fixtures.tianshan
                [Fixtures.rowParentsOnly; Fixtures.rowByCodes]
                Fixtures.rowByCodes)
      as (best & Hin & _ & Hm & _ & _ & _ & Hnone).
    + right. left.
    + vm_compute. reflexivity.
    + apply elem_of_cons in Hin as [-> | Hin].
      * destruct (Hnone HnoParents) as [_ Hle]. vm_compute in Hle. discriminate.
      * apply list_elem_of_singleton in Hin as ->. exact Hm.
Defined.





